(** * Shallow embedding of the RLLM driver and its V8 sandbox

    Sources: [src/src/parsing.ts], [src/src/prompts.ts], [src/src/sandbox.ts],
    [src/src/rlm.ts], [src/src/types.ts].

    JavaScript strings are modelled as [string] whose characters are the
    UTF-16 code units U+0000..U+00FF; [.length] is [String.length]. *)

From Stdlib Require Import String Ascii List ZArith NArith Lia Bool.
Import ListNotations.

Local Set Warnings "-register-all,-abstract-large-number".

Local Open Scope Z_scope.
Local Open Scope string_scope.
Local Open Scope list_scope.

Declare Scope js_string_scope.
Notation "a +++ b" := (String.append a b) (at level 60, right associativity)
  : js_string_scope.
Local Open Scope js_string_scope.

(* ------------------------------------------------------------------------- *)
(** ** JavaScript string primitives *)

Definition chr (n : nat) : string := String (ascii_of_nat n) EmptyString.
Definition nl : string := chr 10.
(** the double quote character *)
Definition dq : string := chr 34.

(** WhiteSpace and LineTerminator code points below U+0100: what [\s] in a
    RegExp and [String.prototype.trim] treat as white space. *)
Definition is_space (c : ascii) : bool :=
  let n := nat_of_ascii c in
  ((9 <=? n)%nat && (n <=? 13)%nat) || (n =? 32)%nat || (n =? 160)%nat.

Fixpoint all_space (s : string) : bool :=
  match s with
  | EmptyString => true
  | String c s' => is_space c && all_space s'
  end.

Fixpoint str_rev (s : string) : string :=
  match s with
  | EmptyString => EmptyString
  | String c s' => str_rev s' +++ String c EmptyString
  end.

Fixpoint trim_start (s : string) : string :=
  match s with
  | EmptyString => EmptyString
  | String c s' => if is_space c then trim_start s' else s
  end.

(** [String.prototype.trim] *)
Definition trim (s : string) : string := str_rev (trim_start (str_rev (trim_start s))).

Fixpoint str_drop (n : nat) (s : string) : string :=
  match n, s with
  | O, _ => s
  | S n', String _ s' => str_drop n' s'
  | S _, EmptyString => EmptyString
  end.

(** [s.slice(0, n)] *)
Fixpoint str_take (n : nat) (s : string) : string :=
  match n, s with
  | O, _ => EmptyString
  | S n', String c s' => String c (str_take n' s')
  | S _, EmptyString => EmptyString
  end.

Fixpoint str_concat (sep : string) (l : list string) : string :=
  match l with
  | [] => EmptyString
  | [x] => x
  | x :: l' => x +++ sep +++ str_concat sep l'
  end.

(** [s.startsWith(p)] *)
Definition starts_with (p s : string) : bool := String.prefix p s.

(** Decimal rendering of numbers, as [String(n)] / template literals do. *)
Fixpoint digits_rev (fuel : nat) (n : N) : string :=
  match fuel with
  | O => EmptyString
  | S f =>
      let d := N.modulo n 10 in
      let q := N.div n 10 in
      String (ascii_of_N (48 + d))
        (if N.eqb q 0 then EmptyString else digits_rev f q)
  end.

Definition show_N (n : N) : string := str_rev (digits_rev (S (N.size_nat n)) n).
Definition show_nat (n : nat) : string := show_N (N.of_nat n).
Definition show_Z (z : Z) : string :=
  if Z.ltb z 0 then "-" +++ show_N (Z.to_N (Z.opp z)) else show_N (Z.to_N z).

(* ------------------------------------------------------------------------- *)
(** ** parsing.ts: [findCodeBlocks]

    The regular expression [/```repl\s*\n([\s\S]*?)\n```/g] is embedded as a
    backtracking matcher with JavaScript's priorities: [\s*] is greedy and
    gives back characters one at a time, [[\s\S]*?] is lazy and takes one
    more character at a time; [exec] tries the match at each position from
    [lastIndex] on. *)

Definition open_fence : string := "```repl".
Definition close_fence : string := nl +++ "```".

(** Positions reachable after [\s*], in the order the greedy star tries them
    (longest run of white space first). *)
Fixpoint ws_candidates (s : string) : list string :=
  match s with
  | EmptyString => [EmptyString]
  | String c s' => if is_space c then ws_candidates s' ++ [s] else [s]
  end.

(** [([\s\S]*?)\n```]: the shortest capture followed by the closing fence;
    returns the capture and the text after the match. *)
Fixpoint lazy_capture (s : string) : option (string * string) :=
  if String.prefix close_fence s then Some (EmptyString, str_drop 4 s)
  else match s with
       | EmptyString => None
       | String c s' =>
           match lazy_capture s' with
           | Some (cap, rest) => Some (String c cap, rest)
           | None => None
           end
       end.

Fixpoint first_some {A B} (f : A -> option B) (l : list A) : option B :=
  match l with
  | [] => None
  | x :: l' => match f x with Some y => Some y | None => first_some f l' end
  end.

Definition after_ws (t : string) : option (string * string) :=
  match t with
  | String c t' => if Ascii.eqb c (ascii_of_nat 10) then lazy_capture t' else None
  | EmptyString => None
  end.

(** A match of the pattern starting exactly at the head of [s]. *)
Definition match_at (s : string) : option (string * string) :=
  if String.prefix open_fence s
  then first_some after_ws (ws_candidates (str_drop 7 s))
  else None.

(** [pattern.exec(text)] from the current [lastIndex]: the leftmost match. *)
Fixpoint search (s : string) : option (string * string) :=
  match match_at s with
  | Some r => Some r
  | None =>
      match s with
      | EmptyString => None
      | String _ s' => search s'
      end
  end.

(** The [while ((match = pattern.exec(text)) !== null)] loop; every match
    consumes at least 11 characters, so [S (length text)] rounds suffice. *)
Fixpoint find_blocks_loop (fuel : nat) (s : string) : list string :=
  match fuel with
  | O => []
  | S f =>
      match search s with
      | None => []
      | Some (cap, rest) =>
          let codeContent := trim cap in
          (if String.eqb codeContent EmptyString then [] else [codeContent])
            ++ find_blocks_loop f rest
      end
  end.

Definition findCodeBlocks (text : string) : list string :=
  find_blocks_loop (S (String.length text)) text.


(* ------------------------------------------------------------------------- *)
(** ** JavaScript values *)

(** The data a program or a caller can hand over: the [context] value, the
    arguments of [print], [FINAL] and global assignments. *)
Inductive jsval : Type :=
| JUndefined
| JNull
| JBool (b : bool)
| JNum (z : Z)
| JNaN
| JInfinity
| JStr (s : string)
| JArr (elems : list jsval)
| JObj (fields : list (string * jsval)).

(** [String(v)] *)
Fixpoint js_String (v : jsval) : string :=
  match v with
  | JUndefined => "undefined"
  | JNull => "null"
  | JBool true => "true"
  | JBool false => "false"
  | JNum z => show_Z z
  | JNaN => "NaN"
  | JInfinity => "Infinity"
  | JStr s => s
  | JArr l =>
      (* Array.prototype.join(",") renders null and undefined as "" *)
      str_concat ","
        ((fix go (l : list jsval) : list string :=
            match l with
            | [] => []
            | x :: l' =>
                (match x with JUndefined | JNull => EmptyString | _ => js_String x end)
                  :: go l'
            end) l)
  | JObj _ => "[object Object]"
  end.

Definition hex_digit (n : nat) : string :=
  if (n <? 10)%nat then chr (48 + n) else chr (87 + n).

(** JSON string escaping (QuoteJSONString). *)
Fixpoint json_escape (s : string) : string :=
  match s with
  | EmptyString => EmptyString
  | String c s' =>
      let n := nat_of_ascii c in
      (if (n =? 34)%nat then "\" +++ dq
       else if (n =? 92)%nat then "\\"
       else if (n =? 8)%nat then "\b"
       else if (n =? 12)%nat then "\f"
       else if (n =? 10)%nat then "\n"
       else if (n =? 13)%nat then "\r"
       else if (n =? 9)%nat then "\t"
       else if (n <? 32)%nat then "\u00" +++ hex_digit (n / 16) +++ hex_digit (n mod 16)
       else String c EmptyString) +++ json_escape s'
  end.

Definition json_quote (s : string) : string := dq +++ json_escape s +++ dq.

(** [JSON.stringify(v)]; [None] is the [undefined] it returns for
    [undefined]. *)
Fixpoint json_stringify (v : jsval) : option string :=
  match v with
  | JUndefined => None
  | JNull => Some "null"
  | JBool true => Some "true"
  | JBool false => Some "false"
  | JNum z => Some (show_Z z)
  | JNaN | JInfinity => Some "null"
  | JStr s => Some (json_quote s)
  | JArr l =>
      Some ("[" +++ str_concat ","
              ((fix go (l : list jsval) : list string :=
                  match l with
                  | [] => []
                  | x :: l' =>
                      (match json_stringify x with Some t => t | None => "null" end)
                        :: go l'
                  end) l) +++ "]")
  | JObj fs =>
      Some ("{" +++ str_concat ","
              ((fix go (fs : list (string * jsval)) : list string :=
                  match fs with
                  | [] => []
                  | (k, x) :: fs' =>
                      match json_stringify x with
                      | Some t => (json_quote k +++ ":" +++ t) :: go fs'
                      | None => go fs'
                      end
                  end) fs) +++ "}")
  end.

(* ------------------------------------------------------------------------- *)
(** ** types.ts: messages and token usage *)

Inductive role : Type := System | Assistant | User.

Record ChatMessage : Type := mkMsg { msg_role : role; msg_content : string }.

Record TokenUsage : Type := mkUsage {
  promptTokens : nat;
  completionTokens : nat;
  totalTokens : nat }.

Definition zero_usage : TokenUsage := mkUsage 0 0 0.

(** [RLLM.addUsage] *)
Definition addUsage (a b : TokenUsage) : TokenUsage :=
  mkUsage (promptTokens a + promptTokens b)
          (completionTokens a + completionTokens b)
          (totalTokens a + totalTokens b).

(* ------------------------------------------------------------------------- *)
(** ** prompts.ts *)

Definition RLM_SYSTEM_PROMPT : string :=
  "You are tasked with answering a query with associated context. You can access, transform, and analyze this context interactively in a REPL environment that can recursively query sub-LLMs, which you are strongly encouraged to use as much as possible. You will be queried iteratively until you provide a final answer.

The REPL environment is initialized with:
1. A `context` variable that contains extremely important information about your query. You should check the content of the `context` variable to understand what you are working with. Make sure you look through it sufficiently as you answer your query.
2. A `llm_query` function that allows you to query an LLM (that can handle around 500K chars) inside your REPL environment.
3. A `llm_query_batched` function that allows you to query multiple prompts concurrently: `await llm_query_batched(prompts)` returns an array of responses. This is much faster than sequential `llm_query` calls when you have multiple independent queries.
4. The ability to use `print()` or `console.log()` statements to view the output of your REPL code and continue your reasoning.

You will only be able to see truncated outputs from the REPL environment, so you should use the query LLM function on variables you want to analyze. You will find this function especially useful when you have to analyze the semantics of the context. Use these variables as buffers to build up your final answer.

IMPORTANT: The REPL runs JavaScript/TypeScript, not Python. Use JavaScript syntax.

Make sure to explicitly look through the entire context in REPL before answering your query. An example strategy is to first look at the context and figure out a chunking strategy, then break up the context into smart chunks, and query an LLM per chunk with a particular question and save the answers to a buffer, then query an LLM with all the buffers to produce your final answer.

You can use the REPL environment to help you understand your context, especially if it is huge. Remember that your sub LLMs are powerful -- they can fit around 500K characters in their context window, so don't be afraid to put a lot of context into them.

When you want to execute JavaScript code in the REPL environment, wrap it in triple backticks with 'repl' language identifier. For example:
```repl
const chunk = context.slice(0, 10000);
const answer = await llm_query(`What is the magic number in the context? Here is the chunk: ${chunk}`);
print(answer);
```

As an example using batched queries for concurrent processing:
```repl
const query = " +++ dq +++ "A man became famous for his book. How many jobs did he have?" +++ dq +++ ";
// Split context into chunks
const chunkSize = Math.ceil(context.length / 10);
const chunks = [];
for (let i = 0; i < 10; i++) {
  chunks.push(context.slice(i * chunkSize, (i + 1) * chunkSize));
}

// Use batched query for concurrent processing - much faster!
const prompts = chunks.map((chunk, i) => 
  `Try to answer: ${query}\n\nChunk ${i + 1}:\n${chunk}\n\nAnswer if found, or " +++ dq +++ "Not found" +++ dq +++ ":`
);
const answers = await llm_query_batched(prompts);
answers.forEach((answer, i) => print(`Chunk ${i + 1}: ${answer}`));

// Combine answers
const finalAnswer = await llm_query(
  `Combine these answers to: ${query}\n\nAnswers:\n${answers.join(" +++ dq +++ "\n" +++ dq +++ ")}`
);
print(finalAnswer);
```

IMPORTANT: When you have your final answer, you MUST call `giveFinalAnswer()` with the required format:

```repl
giveFinalAnswer({ 
  message: " +++ dq +++ "Your human-readable answer here" +++ dq +++ ",  // REQUIRED: must be a string
  data: { ... }  // OPTIONAL: any structured data
});
```

The `message` property is REQUIRED and must be a string. The `data` property is optional and can contain any structured result data. This immediately ends execution and returns your result.

Think step by step carefully, plan, and execute this plan immediately in your response -- do not just say " +++ dq +++ "I will do this" +++ dq +++ " or " +++ dq +++ "I will do that" +++ dq +++ ". Output to the REPL environment and recursive LLMs as much as possible. Remember to explicitly answer the original query in your final answer.".

Definition USER_PROMPT_WITH_ROOT : string :=
  "Think step-by-step on what to do using the REPL environment (which contains the context) to answer the original prompt: " +++ dq +++ "{rootPrompt}" +++ dq +++ ".

Continue using the REPL environment, which has the `context` variable, and querying sub-LLMs by writing to ```repl``` tags, and determine your answer. Your next action:".

(** Position of the first occurrence of [p] in [s]. *)
Fixpoint str_index (p s : string) : option nat :=
  if String.prefix p s then Some O
  else match s with
       | EmptyString => None
       | String _ s' => option_map S (str_index p s')
       end.

(** GetSubstitution for a string pattern (no capture groups): [$$], [$&],
    [$`] and [$'] are replaced, any other [$] is kept. *)
Fixpoint get_substitution (matched before after r : string) : string :=
  match r with
  | EmptyString => EmptyString
  | String d rest =>
      if Ascii.eqb d "$"%char then
        match rest with
        | EmptyString => "$"
        | String c r' =>
            if Ascii.eqb c "$"%char then "$" +++ get_substitution matched before after r'
            else if Ascii.eqb c "&"%char then matched +++ get_substitution matched before after r'
            else if Ascii.eqb c "`"%char then before +++ get_substitution matched before after r'
            else if Ascii.eqb c "'"%char then after +++ get_substitution matched before after r'
            else "$" +++ get_substitution matched before after rest
        end
      else String d (get_substitution matched before after rest)
  end.

(** [s.replace(p, r)] with a string pattern: the first occurrence only. *)
Definition str_replace (p r s : string) : string :=
  match str_index p s with
  | None => s
  | Some i =>
      let before := str_take i s in
      let after := str_drop (i + String.length p) s in
      before +++ get_substitution p before after r +++ after
  end.

Definition show_lengths (l : list nat) : string := str_concat ", " (map show_nat l).

(** [buildSystemPrompt] *)
Definition buildSystemPrompt (systemPrompt : string) (contextLengths : list nat)
    (contextTotalLength : nat) (contextType : string)
    (schemaDescription : option string) : list ChatMessage :=
  let lengthsDisplay :=
    if (100 <? length contextLengths)%nat
    then "[" +++ show_lengths (firstn 100 contextLengths) +++ "... + "
           +++ show_nat (length contextLengths - 100) +++ " more]"
    else "[" +++ show_lengths contextLengths +++ "]" in
  let metadataPrompt :=
    "Your context is a " +++ contextType +++ " with " +++ show_nat contextTotalLength
      +++ " total characters, and is broken up into chunks of char lengths: "
      +++ lengthsDisplay +++ "." in
  let metadataPrompt :=
    match schemaDescription with
    | Some d =>
        if String.eqb d EmptyString then metadataPrompt
        else metadataPrompt +++ nl +++ nl
               +++ "The `context` variable has the following TypeScript type:" +++ nl
               +++ "```typescript" +++ nl +++ "type Context = " +++ d +++ nl +++ "```"
               +++ nl +++ nl
               +++ "You can access the properties of `context` directly according to this type structure."
    | None => metadataPrompt
    end in
  [mkMsg System systemPrompt; mkMsg Assistant metadataPrompt].

(** [buildUserPrompt] *)
Definition buildUserPrompt (prompt : string) (iteration : nat) : ChatMessage :=
  let content :=
    match iteration with
    | O =>
        let safeguard :=
          "You have not interacted with the REPL environment or seen your prompt / context yet. Your next action should be to look through and figure out how to answer the prompt, so don't just provide a final answer yet."
            +++ nl +++ nl in
        safeguard +++ str_replace "{rootPrompt}" prompt USER_PROMPT_WITH_ROOT
    | S _ =>
        "The history before is your previous interactions with the REPL environment. "
          +++ str_replace "{rootPrompt}" prompt USER_PROMPT_WITH_ROOT
    end in
  mkMsg User content.


(* ------------------------------------------------------------------------- *)
(** ** The world the code runs in

    [Date.now()] is the clock [m_clock]; the CompletionService is an external
    collaborator given as the script of its replies, consumed one per
    [complete] call; every request it receives is logged together with the
    call site it comes from. *)

Record LLMCallRecord : Type := mkCallRecord {
  rec_prompt : string;
  rec_response : string;
  rec_model : option string;
  rec_usage : TokenUsage;
  rec_durationMs : Z }.

(** Values held by the global object of the vm context. *)
Inductive gval : Type :=
| GFun (name : string)     (** a function (typeof "function") *)
| GHost (tag : string)     (** a host object such as JSON or Math *)
| GVal (v : jsval).

Definition is_function (g : gval) : bool :=
  match g with GFun _ => true | _ => false end.

Definition gval_String (g : gval) : string :=
  match g with
  | GFun n => "function " +++ n +++ "() { [native code] }"
  | GHost tag => "[object " +++ tag +++ "]"
  | GVal v => js_String v
  end.

Record ExecutionReport : Type := mkReport {
  r_stdout : string;
  r_stderr : string;
  r_locals : list (string * gval);
  r_executionTimeMs : Z;
  r_llmCalls : list LLMCallRecord;
  r_error : option string }.

Record Sandbox : Type := mkSandbox {
  sb_systemPrompt : option string;
  sb_context : jsval;
  sb_vmContext : option (list (string * gval));
  sb_stdout : list string;
  sb_stderr : list string;
  sb_locals : list (string * gval);
  sb_llmCalls : list LLMCallRecord;
  sb_finalAnswer : option string }.

(** [new Sandbox(client, systemPrompt)] *)
Definition new_Sandbox (systemPrompt : option string) : Sandbox :=
  mkSandbox systemPrompt JNull None [] [] [] [] None.

Inductive reply : Type :=
| RespondWith (content : string) (usage : TokenUsage) (latency : Z)
| FailWith (err : string) (latency : Z).

Record CompletionResult : Type := mkResult { cr_content : string; cr_usage : TokenUsage }.

Inductive caller : Type := RootLoopCall | RootFinalCall | SubCall.

(** Events handed to [onEvent] ([RLMEvent] without its timestamp). *)
Inductive RLMEvent : Type :=
| EvIterationStart (iteration : nat)
| EvLlmQueryStart (iteration : nat) (prompt : string)
| EvLlmQueryEnd (iteration : nat) (response : string)
| EvCodeExecutionStart (iteration : nat) (code : string)
| EvCodeExecutionEnd (iteration : nat) (code output : string) (error : option string)
| EvFinalAnswer (iteration : nat) (answer : option string).

(** *** Programs

    A code block is JavaScript run by V8; the embedding keeps what the
    program does through the sandbox: its calls of the injected bindings,
    its assignments to globals (the only variables [Object.keys(this)]
    sees), the time its synchronous work takes, its awaits and its throws. *)
Inductive stmt : Type :=
| SPrint (args : list jsval)                  (** [print(...args)], [console.log] *)
| SConsoleError (args : list jsval)           (** [console.error(...args)] *)
| SAssign (x : string) (v : jsval)            (** [x = v] for an undeclared [x] *)
| SFinal (answer : jsval)                     (** [FINAL(answer)] *)
| SFinalVar (varName : string)                (** [FINAL_VAR(varName)] *)
| SQuery (dst : option string) (prompt : string) (model : option string)
                                              (** [[x =] await llm_query(prompt, model)] *)
| SWork (ms : Z)                              (** synchronous computation taking [ms] *)
| SSleep (ms : Z)                             (** [await new Promise(r => setTimeout(r, ms))] *)
| SThrow (name message : string) (frames : list string).
    (** [throw new <name>(message)]; [frames] are the location lines V8
        writes into its [stack], such as ["    at rlm-sandbox.js:4:19"] *)

Inductive program : Type :=
| SyntaxErr (message : string)     (** [new vm.Script] rejects the wrapped code *)
| Program (body : list stmt).

Inductive outcome (A : Type) : Type := Ok (a : A) | Exn (e : string).
Arguments Ok {A} a.
Arguments Exn {A} e.

(** *** The event loop

    [execute] returns as soon as the wrapped async function reaches its first
    [await]; what follows that [await] is a task the event loop runs later,
    when the awaited reply or timer is due. *)

(** A [client.complete] call in flight: what [llmQuery] keeps across its
    [await]. *)
Record pending_call : Type := mkPending {
  pc_prompt : string;
  pc_model : option string;
  pc_startTime : Z;
  pc_settled : outcome CompletionResult;   (** how the call settles *)
  pc_arrival : Z }.                         (** when it settles *)

(** What a suspended program waits for. *)
Inductive wake : Type :=
| WakeReply (dst : option string) (call : pending_call)  (** [[dst =] await llm_query(...)] *)
| WakeTimer.                                              (** [await new Promise(r => setTimeout(r, ms))] *)

(** The sandbox state a suspended program works on.  [OwnCurrent vm live]:
    the [Sandbox] object in [m_sb]; [vm] is [None] while the program's global
    object is still [this.vmContext], [Some g] once a later [createContext]
    or [reset] replaced it; [live] tells whether [__locals__] is still
    [this.locals] ([reset] replaces that object).  [OwnDetached sb live]:
    a [Sandbox] object of an earlier completion, no longer reachable from
    the driver, as the program sees it. *)
Inductive owner : Type :=
| OwnCurrent (vm : option (list (string * gval))) (liveLocals : bool)
| OwnDetached (sb : Sandbox) (liveLocals : bool).

(** The rest of a suspended program, due at [tk_due]. *)
Record task : Type := mkTask {
  tk_due : Z;
  tk_wake : wake;
  tk_rest : list stmt;
  tk_owner : owner }.

Record Machine : Type := mkMachine {
  m_clock : Z;
  m_replies : list reply;
  m_requests : list (caller * list ChatMessage);
  m_sb : Sandbox;
  m_reports : list ExecutionReport;
  m_events : list (Z * RLMEvent);
  m_tasks : list task }.

(** Computations: a state monad over [Machine] with JavaScript exceptions. *)
Definition M (A : Type) : Type := Machine -> outcome A * Machine.

Definition ret {A} (a : A) : M A := fun m => (Ok a, m).
Definition bind {A B} (c : M A) (k : A -> M B) : M B :=
  fun m => match c m with
           | (Ok a, m') => k a m'
           | (Exn e, m') => (Exn e, m')
           end.
Definition throw {A} (e : string) : M A := fun m => (Exn e, m).

(** [try { c } catch (e) { ... }]: the exception becomes a value. *)
Definition try_catch {A} (c : M A) : M (A + string) :=
  fun m => match c m with
           | (Ok a, m') => (Ok (inl a), m')
           | (Exn e, m') => (Ok (inr e), m')
           end.

Notation "x <- c1 ;; c2" := (bind c1 (fun x => c2))
  (at level 61, c1 at next level, right associativity).
Notation "c1 ;; c2" := (bind c1 (fun _ => c2)) (at level 61, right associativity).

Definition modify (f : Machine -> Machine) : M unit := fun m => (Ok tt, f m).
Definition gets {A} (f : Machine -> A) : M A := fun m => (Ok (f m), m).

Definition now : M Z := gets m_clock.

Definition with_clock (t : Z) (m : Machine) : Machine :=
  mkMachine t (m_replies m) (m_requests m) (m_sb m) (m_reports m) (m_events m) (m_tasks m).
Definition with_sb (sb : Sandbox) (m : Machine) : Machine :=
  mkMachine (m_clock m) (m_replies m) (m_requests m) sb (m_reports m) (m_events m) (m_tasks m).
Definition with_tasks (tks : list task) (m : Machine) : Machine :=
  mkMachine (m_clock m) (m_replies m) (m_requests m) (m_sb m) (m_reports m) (m_events m) tks.

Definition set_clock (t : Z) : M unit := modify (with_clock t).
(** synchronous work of [ms] *)
Definition advance (ms : Z) : M unit := t <- now ;; set_clock (t + Z.max 0 ms).

Definition get_sb : M Sandbox := gets m_sb.
Definition put_sb (sb : Sandbox) : M unit := modify (with_sb sb).

Definition set_tasks (tks : list task) : M unit := modify (with_tasks tks).
Definition schedule (tk : task) : M unit := modify (fun m => with_tasks (m_tasks m ++ [tk]) m).

Definition log_report (r : ExecutionReport) : M unit :=
  modify (fun m => mkMachine (m_clock m) (m_replies m) (m_requests m) (m_sb m)
                     (m_reports m ++ [r]) (m_events m) (m_tasks m)).

(** [client.complete({ messages })] is called: the request goes out now;
    the call settles [latency] ms later, with the reply, with the transport
    error, or with a generic error once the script is exhausted. *)
Definition client_send (who : caller) (messages : list ChatMessage)
    : M (outcome CompletionResult * Z) :=
  fun m =>
    let logged := m_requests m ++ [(who, messages)] in
    match m_replies m with
    | [] =>
        (Ok (Exn "Error: CompletionService unavailable", 0),
         mkMachine (m_clock m) [] logged (m_sb m) (m_reports m) (m_events m) (m_tasks m))
    | RespondWith c u lat :: rs =>
        (Ok (Ok (mkResult c u), lat),
         mkMachine (m_clock m) rs logged (m_sb m) (m_reports m) (m_events m) (m_tasks m))
    | FailWith e lat :: rs =>
        (Ok (Exn e, lat),
         mkMachine (m_clock m) rs logged (m_sb m) (m_reports m) (m_events m) (m_tasks m))
    end.

(* ------------------------------------------------------------------------- *)
(** ** sandbox.ts *)

Module SandboxImpl.

(** Sandbox field updates *)
Definition set_vm (g : option (list (string * gval))) (s : Sandbox) : Sandbox :=
  mkSandbox (sb_systemPrompt s) (sb_context s) g (sb_stdout s) (sb_stderr s)
    (sb_locals s) (sb_llmCalls s) (sb_finalAnswer s).
Definition set_context (c : jsval) (s : Sandbox) : Sandbox :=
  mkSandbox (sb_systemPrompt s) c (sb_vmContext s) (sb_stdout s) (sb_stderr s)
    (sb_locals s) (sb_llmCalls s) (sb_finalAnswer s).
Definition set_stdout (o : list string) (s : Sandbox) : Sandbox :=
  mkSandbox (sb_systemPrompt s) (sb_context s) (sb_vmContext s) o (sb_stderr s)
    (sb_locals s) (sb_llmCalls s) (sb_finalAnswer s).
Definition set_stderr (e : list string) (s : Sandbox) : Sandbox :=
  mkSandbox (sb_systemPrompt s) (sb_context s) (sb_vmContext s) (sb_stdout s) e
    (sb_locals s) (sb_llmCalls s) (sb_finalAnswer s).
Definition set_locals (l : list (string * gval)) (s : Sandbox) : Sandbox :=
  mkSandbox (sb_systemPrompt s) (sb_context s) (sb_vmContext s) (sb_stdout s)
    (sb_stderr s) l (sb_llmCalls s) (sb_finalAnswer s).
Definition set_llmCalls (c : list LLMCallRecord) (s : Sandbox) : Sandbox :=
  mkSandbox (sb_systemPrompt s) (sb_context s) (sb_vmContext s) (sb_stdout s)
    (sb_stderr s) (sb_locals s) c (sb_finalAnswer s).
Definition set_finalAnswer (f : option string) (s : Sandbox) : Sandbox :=
  mkSandbox (sb_systemPrompt s) (sb_context s) (sb_vmContext s) (sb_stdout s)
    (sb_stderr s) (sb_locals s) (sb_llmCalls s) f.

Definition upd (f : Sandbox -> Sandbox) : M unit := s <- get_sb ;; put_sb (f s).

(** Keyed updates of a JavaScript object: an existing key keeps its place,
    a new key is appended (insertion order of [Object.keys]). *)
Fixpoint assoc_set {V} (k : string) (v : V) (l : list (string * V)) : list (string * V) :=
  match l with
  | [] => [(k, v)]
  | (k', v') :: l' => if String.eqb k k' then (k, v) :: l' else (k', v') :: assoc_set k v l'
  end.

Fixpoint assoc_get {V} (k : string) (l : list (string * V)) : option V :=
  match l with
  | [] => None
  | (k', v') :: l' => if String.eqb k k' then Some v' else assoc_get k l'
  end.

(** [loadContext(contextPayload)] *)
Definition loadContext (c : jsval) : M unit :=
  upd (fun s => let s := set_context c s in
                match sb_vmContext s with
                | Some g => set_vm (Some (assoc_set "context" (GVal c) g)) s
                | None => s
                end).

(** The object literal of [createContext], in its key order. *)
Definition injected_bindings (c : jsval) : list (string * gval) :=
  [("console", GHost "Object"); ("print", GFun "print"); ("context", GVal c);
   ("llm_query", GFun "llm_query"); ("llm_query_batched", GFun "llm_query_batched");
   ("FINAL", GFun "FINAL"); ("FINAL_VAR", GFun "FINAL_VAR");
   ("JSON", GHost "JSON"); ("Math", GHost "Math")]
  ++ map (fun n => (n, GFun n))
       ["Date"; "Array"; "Object"; "String"; "Number"; "Boolean"; "Map"; "Set";
        "WeakMap"; "WeakSet"; "Promise"; "RegExp"; "Error"; "TypeError";
        "RangeError"; "SyntaxError"; "URIError"; "EvalError"; "ReferenceError";
        "parseInt"; "parseFloat"; "isNaN"; "isFinite"; "encodeURI"; "decodeURI";
        "encodeURIComponent"; "decodeURIComponent"]
  ++ [("Infinity", GVal JInfinity); ("NaN", GVal JNaN); ("undefined", GVal JUndefined)]
  ++ map (fun n => (n, GFun n))
       ["setTimeout"; "setInterval"; "clearTimeout"; "clearInterval";
        "setImmediate"; "clearImmediate"; "queueMicrotask"; "atob"; "btoa"]
  ++ [("__locals__", GHost "Object")].

(** When [this.vmContext] is replaced, the programs still suspended on it
    keep the old global object as their own; when [keep] is false
    ([reset]), [this.locals] is replaced too and their [__locals__] is no
    longer it. *)
Definition retire_task (s : Sandbox) (keep : bool) (tk : task) : task :=
  match tk_owner tk with
  | OwnCurrent vm live =>
      let g := match vm with
               | Some g => g
               | None => match sb_vmContext s with Some g => g | None => [] end
               end in
      mkTask (tk_due tk) (tk_wake tk) (tk_rest tk) (OwnCurrent (Some g) (live && keep))
  | OwnDetached _ _ => tk
  end.

Definition retire_vm (keep : bool) : M unit :=
  modify (fun m => with_tasks (map (retire_task (m_sb m) keep) (m_tasks m)) m).

(** [createContext()]: resets the execution state and builds a fresh vm
    context; [locals] and [context] are kept. *)
Definition createContext : M unit :=
  retire_vm true ;;
  upd (fun s =>
         set_vm (Some (injected_bindings (sb_context s)))
           (set_finalAnswer None (set_llmCalls [] (set_stderr [] (set_stdout [] s))))).

(** [llmQuery(prompt, model)] up to its [await]: [client.complete] is
    called at once, and the call is handed to the event loop. *)
Definition llmQuery (prompt : string) (model : option string) : M pending_call :=
  startTime <- now ;;
  s <- get_sb ;;
  let messages :=
    match sb_systemPrompt s with
    | Some sp => if String.eqb sp EmptyString then [] else [mkMsg System sp]
    | None => []
    end ++ [mkMsg User prompt] in
  r <- client_send SubCall messages ;;
  match r with
  | (settled, latency) =>
      ret (mkPending prompt model startTime settled (startTime + Z.max 0 latency))
  end.

(** The rest of [llmQuery], run once [client.complete] has settled: the
    [try] block after the [await], or the [catch]. *)
Definition llmQuery_settle (call : pending_call) : M string :=
  match pc_settled call with
  | Ok result =>
      t <- now ;;
      upd (fun s => set_llmCalls
                      (sb_llmCalls s ++ [mkCallRecord (pc_prompt call) (cr_content result)
                                           (pc_model call) (cr_usage result)
                                           (t - pc_startTime call)]) s) ;;
      ret (cr_content result)
  | Exn e => ret ("Error: LLM query failed - " +++ e)
  end.

(** [getFinalAnswer()], [getLLMCalls()], [getTotalUsage()] *)
Definition getFinalAnswer : M (option string) := s <- get_sb ;; ret (sb_finalAnswer s).
Definition getLLMCalls : M (list LLMCallRecord) := s <- get_sb ;; ret (sb_llmCalls s).
Definition total_usage (calls : list LLMCallRecord) : TokenUsage :=
  fold_left (fun acc c => addUsage acc (rec_usage c)) calls zero_usage.
Definition getTotalUsage : M TokenUsage := s <- get_sb ;; ret (total_usage (sb_llmCalls s)).

(** [reset()] *)
Definition reset : M unit :=
  retire_vm false ;;
  upd (fun s => set_vm None (set_finalAnswer None (set_llmCalls []
                  (set_locals [] (set_stderr [] (set_stdout [] s)))))).

Definition push_stdout (line : string) : M unit :=
  upd (fun s => set_stdout (sb_stdout s ++ [line]) s).
Definition push_stderr (line : string) : M unit :=
  upd (fun s => set_stderr (sb_stderr s ++ [line]) s).

Definition set_global (x : string) (g : gval) : M unit :=
  upd (fun s => match sb_vmContext s with
                | Some gl => set_vm (Some (assoc_set x g gl)) s
                | None => s
                end).

(** The [FINAL] binding. *)
Definition FINAL (answer : jsval) : M string :=
  let a := js_String answer in
  upd (set_finalAnswer (Some a)) ;; ret a.

Definition is_quote (c : ascii) : bool :=
  Ascii.eqb c (ascii_of_nat 34) || Ascii.eqb c (ascii_of_nat 39).

Fixpoint last_char (s : string) : option ascii :=
  match s with
  | EmptyString => None
  | String c EmptyString => Some c
  | String _ s' => last_char s'
  end.

Fixpoint drop_last (s : string) : string :=
  match s with
  | EmptyString => EmptyString
  | String _ EmptyString => EmptyString
  | String c s' => String c (drop_last s')
  end.

Definition strip_last_quote (s : string) : string :=
  match last_char s with
  | Some c => if is_quote c then drop_last s else s
  | None => s
  end.

(** [s.replace(/^["']|["']$/g, "")] *)
Definition strip_quotes (s : string) : string :=
  match s with
  | String c s' => if is_quote c then strip_last_quote s' else strip_last_quote s
  | EmptyString => EmptyString
  end.

(** Properties every object inherits from [Object.prototype], seen by [in]. *)
Definition object_prototype_member (name : string) : option gval :=
  if String.eqb name "__proto__" then Some (GHost "Object")
  else if String.eqb name "constructor" then Some (GFun "Object")
  else if existsb (String.eqb name)
            ["__defineGetter__"; "__defineSetter__"; "hasOwnProperty";
             "__lookupGetter__"; "__lookupSetter__"; "isPrototypeOf";
             "propertyIsEnumerable"; "toString"; "valueOf"; "toLocaleString"]
       then Some (GFun name)
  else None.

(** The [FINAL_VAR] binding. *)
Definition FINAL_VAR (varName : string) : M string :=
  s <- get_sb ;;
  let name := strip_quotes (trim varName) in
  let a := match assoc_get name (sb_locals s) with
           | Some g => gval_String g
           | None =>
               match object_prototype_member name with
               | Some g => gval_String g
               | None => "Error: Variable '" +++ name +++ "' not found"
               end
           end in
  upd (set_finalAnswer (Some a)) ;; ret a.

(** [setTimeout] runs a delay outside 1..2147483647 ms after 1 ms. *)
Definition timer_delay (ms : Z) : Z :=
  if Z.ltb ms 1 || Z.ltb 2147483647 ms then 1 else ms.

(** How a run of the [try] block stops: at its end, at a throw, terminated
    by the timeout, or suspended at an [await] until [due], [rest] being
    what follows the [await]. *)
Inductive body_end : Type :=
| BodyDone
| BodyThrew (name message : string) (frames : list string)
| BodyTimedOut
| BodyAwait (w : wake) (due : Z) (rest : list stmt).

(** The [try] block of the wrapped async function, from its start or from
    an [await], up to its end, a throw or its next [await].  [Some deadline]:
    the run is the synchronous part inside [script.runInContext(context,
    { timeout })], terminated once the clock passes [deadline]; a run after
    an [await] ([None]) has no time limit. *)
Fixpoint run_body (deadline : option Z) (ss : list stmt) : M body_end :=
  match ss with
  | [] => ret BodyDone
  | st :: ss' =>
      match st with
      | SPrint args => push_stdout (str_concat " " (map js_String args)) ;;
                       run_body deadline ss'
      | SConsoleError args => push_stderr (str_concat " " (map js_String args)) ;;
                              run_body deadline ss'
      | SAssign x v => set_global x (GVal v) ;; run_body deadline ss'
      | SFinal v => FINAL v ;; run_body deadline ss'
      | SFinalVar n => FINAL_VAR n ;; run_body deadline ss'
      | SQuery dst p model =>
          call <- llmQuery p model ;;
          ret (BodyAwait (WakeReply dst call) (pc_arrival call) ss')
      | SWork ms =>
          t <- now ;;
          match deadline with
          | Some dl =>
              if Z.ltb dl (t + Z.max 0 ms)
              then set_clock dl ;; ret BodyTimedOut
              else advance ms ;; run_body deadline ss'
          | None => advance ms ;; run_body deadline ss'
          end
      | SSleep ms =>
          t <- now ;;
          ret (BodyAwait WakeTimer (t + timer_delay ms) ss')
      | SThrow n msg fr => ret (BodyThrew n msg fr)
      end
  end.

(** The program resumes after its [await]: [llm_query] finishes and its
    value is assigned; a timer just fires. *)
Definition resume (w : wake) : M unit :=
  match w with
  | WakeReply dst call =>
      r <- llmQuery_settle call ;;
      match dst with
      | Some x => set_global x (GVal (JStr r))
      | None => ret tt
      end
  | WakeTimer => ret tt
  end.

(** Keys skipped by the capture inside the wrapped code. *)
Definition iife_skipKeys : list string :=
  ["console"; "print"; "context"; "llm_query"; "llm_query_batched";
   "FINAL"; "FINAL_VAR"; "JSON"; "Math"; "Date"; "Array"; "Object";
   "String"; "Number"; "Boolean"; "Map"; "Set"; "Promise"; "RegExp";
   "Error"; "setTimeout"; "setInterval"; "clearTimeout"; "clearInterval"].

(** Keys skipped by [syncLocals]. *)
Definition sync_skipKeys : list string :=
  ["console"; "print"; "context"; "llm_query"; "llm_query_batched";
   "FINAL"; "FINAL_VAR"; "JSON"; "Math"; "Date"; "Array"; "Object";
   "String"; "Number"; "Boolean"; "Map"; "Set"; "WeakMap"; "WeakSet";
   "Promise"; "RegExp"; "Error"; "TypeError"; "RangeError"; "SyntaxError";
   "URIError"; "EvalError"; "ReferenceError"; "parseInt"; "parseFloat";
   "isNaN"; "isFinite"; "encodeURI"; "decodeURI"; "encodeURIComponent";
   "decodeURIComponent"; "Infinity"; "NaN"; "undefined"; "setTimeout";
   "setInterval"; "clearTimeout"; "clearInterval"; "setImmediate";
   "clearImmediate"; "queueMicrotask"; "atob"; "btoa"; "__locals__"].

Definition skipped (skip : list string) (k : string) : bool :=
  starts_with "__" k || existsb (String.eqb k) skip.

(** The capture loop of the wrapped code: [Object.assign(__locals__, ...)]
    writes into the same object as [this.locals]. *)
Definition capture_locals : M unit :=
  upd (fun s =>
         let g := match sb_vmContext s with Some g => g | None => [] end in
         set_locals
           (fold_left (fun acc '(k, v) =>
                         if skipped iife_skipKeys k || is_function v then acc
                         else assoc_set k v acc) g (sb_locals s)) s).

(** The capture when [__locals__] may have been replaced: it then writes
    into an object nobody reads. *)
Definition capture_into (live : bool) : M unit :=
  if live then capture_locals else ret tt.

(** [syncLocals(context)] *)
Definition syncLocals : M unit :=
  upd (fun s =>
         let g := match sb_vmContext s with Some g => g | None => [] end in
         set_locals
           (fold_left (fun acc '(k, v) =>
                         if skipped sync_skipKeys k then acc else assoc_set k v acc)
              g (sb_locals s)) s).

(** The first line of a V8 stack trace (ErrorUtils::ToString). *)
Definition error_header (name msg : string) : string :=
  if String.eqb name EmptyString then msg
  else if String.eqb msg EmptyString then name
  else name +++ ": " +++ msg.

(** [__e__.stack]: the header, then one line per frame. *)
Definition error_stack (name msg : string) (frames : list string) : string :=
  str_concat nl (error_header name msg :: frames).

(** [s.split('\n')] *)
Fixpoint split_nl (s : string) : list string :=
  match s with
  | EmptyString => [EmptyString]
  | String c s' =>
      if Ascii.eqb c (ascii_of_nat 10) then EmptyString :: split_nl s'
      else match split_nl s' with
           | x :: l => String c x :: l
           | [] => [String c EmptyString]
           end
  end.

(** [__e__.stack.split('\n').slice(0, 3).join('\n')] *)
Definition stack_head (name msg : string) (frames : list string) : string :=
  str_concat nl (firstn 3 (split_nl (error_stack name msg frames))).

(** The [catch (__e__)] of the wrapped code. *)
Definition report_user_error (name msg : string) (frames : list string) : M unit :=
  push_stderr (name +++ ": " +++ msg) ;;
  if String.eqb (error_stack name msg frames) EmptyString then ret tt
  else push_stderr (stack_head name msg frames).

(** The end of the wrapped async function once the [try] block has ended
    or thrown: the [catch], then the capture. *)
Definition wrapper_tail (live : bool) (e : body_end) : M unit :=
  match e with
  | BodyThrew n msg fr => report_user_error n msg fr ;; capture_into live
  | BodyDone => capture_into live
  | _ => ret tt
  end.

Definition report_ok (startTime : Z) : M ExecutionReport :=
  t <- now ;;
  s <- get_sb ;;
  let r := mkReport (str_concat nl (sb_stdout s)) (str_concat nl (sb_stderr s))
             (sb_locals s) (t - startTime) (sb_llmCalls s) None in
  log_report r ;; ret r.

(** The [catch (e)] of [execute]. *)
Definition report_error (startTime : Z) (errorMessage : string) : M ExecutionReport :=
  t <- now ;;
  s <- get_sb ;;
  let r := mkReport (str_concat nl (sb_stdout s))
             (str_concat nl (sb_stderr s)
                +++ (match sb_stderr s with [] => EmptyString | _ => nl end)
                +++ errorMessage)
             (sb_locals s) (t - startTime) (sb_llmCalls s) (Some errorMessage) in
  log_report r ;; ret r.

(** [runInContext] checks its [timeout] option with [validateUint32(timeout,
    'options.timeout', true)]. *)
Definition valid_timeout (t : Z) : bool := Z.leb 1 t && Z.leb t 4294967295.

(** [addNumericalSeparator]: groups of three digits from the right, on the
    reversed digit string. *)
Fixpoint group3_rev (fuel : nat) (s : string) : string :=
  match fuel with
  | O => s
  | S f =>
      if (String.length s <=? 3)%nat then s
      else str_take 3 s +++ "_" +++ group3_rev f (str_drop 3 s)
  end.

Definition add_numerical_separator (digits : string) : string :=
  str_rev (group3_rev (String.length digits) (str_rev digits)).

(** The [Received] part of [ERR_OUT_OF_RANGE]. *)
Definition received_value (t : Z) : string :=
  if Z.ltb 4294967296 (Z.abs t)
  then (if Z.ltb t 0 then "-" else EmptyString)
         +++ add_numerical_separator (show_N (Z.to_N (Z.abs t)))
  else show_Z t.

Definition timeout_range_error (t : Z) : string :=
  "RangeError: The value of " +++ dq +++ "options.timeout" +++ dq
    +++ " is out of range. It must be >= 1 && <= 4294967295. Received "
    +++ received_value t.

Section Engine.

(** How V8 reads a code string. *)
Variable run_js : string -> program.

(** [execute(code, options)]: [runInContext] returns the promise of the
    wrapped async function once it reaches its first [await]; that promise
    comes from the vm context's realm, so [result instanceof Promise] is
    false and it is not awaited: the locals are synced and the report is
    built right away, and the rest of the program is left to the event
    loop. *)
Definition execute (code : string) (timeoutOpt : option Z) : M ExecutionReport :=
  let timeout := match timeoutOpt with Some t => t | None => 300000 end in
  startTime <- now ;;
  createContext ;;
  match run_js code with
  | SyntaxErr msg => report_error startTime ("SyntaxError: " +++ msg)
  | Program ss =>
      if negb (valid_timeout timeout) then report_error startTime (timeout_range_error timeout)
      else
        e <- run_body (Some (startTime + timeout)) ss ;;
        match e with
        | BodyTimedOut =>
            report_error startTime
              ("Error: Script execution timed out after " +++ show_Z timeout +++ "ms")
        | BodyAwait w due rest =>
            schedule (mkTask due w rest (OwnCurrent None true)) ;;
            syncLocals ;; report_ok startTime
        | _ => wrapper_tail true e ;; syncLocals ;; report_ok startTime
        end
  end.

End Engine.

End SandboxImpl.

(* ------------------------------------------------------------------------- *)
(** ** The Node.js event loop *)

Module EventLoop.
Import SandboxImpl.

Definition owner_live (o : owner) : bool :=
  match o with OwnCurrent _ l | OwnDetached _ l => l end.

(** The sandbox as the suspended program sees it: the current one, with
    its own global object if that was replaced, or the one of an earlier
    completion. *)
Definition task_view (o : owner) (cur : Sandbox) : Sandbox :=
  match o with
  | OwnCurrent None _ => cur
  | OwnCurrent (Some g) _ => set_vm (Some g) cur
  | OwnDetached sb _ => sb
  end.

(** What a run of the program leaves: the current sandbox, and the owner of
    the program's next part. *)
Definition task_merge (o : owner) (cur view : Sandbox) : Sandbox * owner :=
  match o with
  | OwnCurrent None l => (view, OwnCurrent None l)
  | OwnCurrent (Some _) l => (set_vm (sb_vmContext cur) view, OwnCurrent (sb_vmContext view) l)
  | OwnDetached _ l => (cur, OwnDetached view l)
  end.

(** One task: the program resumes after its [await] and runs to its end,
    a throw, or its next [await]. *)
Definition run_task (tk : task) : M unit :=
  cur <- get_sb ;;
  put_sb (task_view (tk_owner tk) cur) ;;
  resume (tk_wake tk) ;;
  e <- run_body None (tk_rest tk) ;;
  wrapper_tail (owner_live (tk_owner tk)) e ;;
  view <- get_sb ;;
  match task_merge (tk_owner tk) cur view with
  | (cur', o') =>
      put_sb cur' ;;
      match e with
      | BodyAwait w due rest => schedule (mkTask due w rest o')
      | _ => ret tt
      end
  end.

Definition min_due (tks : list task) : option Z :=
  fold_left (fun acc tk => match acc with
                           | None => Some (tk_due tk)
                           | Some d => Some (Z.min d (tk_due tk))
                           end) tks None.

Fixpoint take_first_due (d : Z) (tks : list task) : option (task * list task) :=
  match tks with
  | [] => None
  | tk :: tks' =>
      if Z.eqb (tk_due tk) d then Some (tk, tks')
      else match take_first_due d tks' with
           | Some (x, others) => Some (x, tk :: others)
           | None => None
           end
  end.

(** The next task to run before [limit]: the earliest due, the first
    scheduled among those due at the same time. *)
Definition next_task (limit : Z) (tks : list task) : option (task * list task) :=
  match min_due tks with
  | Some d => if Z.leb d limit then take_first_due d tks else None
  | None => None
  end.

Fixpoint run_due (fuel : nat) (limit : Z) : M unit :=
  match fuel with
  | O => ret tt
  | S f =>
      tks <- gets m_tasks ;;
      match next_task limit tks with
      | None => ret tt
      | Some (tk, others) =>
          set_tasks others ;;
          t <- now ;;
          set_clock (Z.max t (tk_due tk)) ;;
          run_task tk ;;
          run_due f limit
      end
  end.

(** Every task runs at most once more than its remaining statements, since
    the part after its next [await] is shorter. *)
Definition task_fuel (tks : list task) : nat :=
  fold_right (fun tk n => S (length (tk_rest tk)) + n)%nat O tks.

(** The event loop runs every task due up to [limit], in time order. *)
Definition run_until (limit : Z) : M unit :=
  tks <- gets m_tasks ;;
  run_due (task_fuel tks) limit.

(** [await this.client.complete({ messages })] in the driver: while the
    reply is on its way the event loop runs the tasks due before it
    arrives (those due at the very same time first), then the driver
    resumes. *)
Definition client_complete (who : caller) (messages : list ChatMessage)
    : M CompletionResult :=
  r <- client_send who messages ;;
  match r with
  | (settled, latency) =>
      t <- now ;;
      let arrival := t + Z.max 0 latency in
      run_until arrival ;;
      t' <- now ;;
      set_clock (Z.max t' arrival) ;;
      match settled with
      | Ok result => ret result
      | Exn e => throw e
      end
  end.

(** A task of the sandbox being replaced keeps that sandbox object. *)
Definition detach (cur : Sandbox) (tk : task) : task :=
  match tk_owner tk with
  | OwnCurrent _ l =>
      mkTask (tk_due tk) (tk_wake tk) (tk_rest tk) (OwnDetached (task_view (tk_owner tk) cur) l)
  | OwnDetached _ _ => tk
  end.

(** [const sandbox = new Sandbox(...)] of a new completion. *)
Definition install_sb (sb : Sandbox) : M unit :=
  modify (fun m => mkMachine (m_clock m) (m_replies m) (m_requests m) sb (m_reports m)
                     (m_events m) (map (detach (m_sb m)) (m_tasks m))).

End EventLoop.

(* ------------------------------------------------------------------------- *)
(** ** parsing.ts: report formatting *)

(** [formatExecutionResult(result)] *)
Definition formatExecutionResult (r : ExecutionReport) : string :=
  let importantVars := filter (fun k => negb (starts_with "_" k)) (map fst (r_locals r)) in
  let parts :=
    (if String.eqb (r_stdout r) EmptyString then [] else [r_stdout r])
    ++ (if String.eqb (r_stderr r) EmptyString then [] else [r_stderr r])
    ++ (match importantVars with
        | [] => []
        | _ => ["REPL variables: [" +++ str_concat ", " importantVars +++ "]"]
        end) in
  match parts with
  | [] => "No output"
  | _ => str_concat (nl +++ nl) parts
  end.

(** [formatIteration(response, codeBlocks, maxCharLength = 20000)] *)
Definition formatIteration (response : string)
    (codeBlocks : list (string * ExecutionReport)) : list ChatMessage :=
  let maxCharLength := 20000%nat in
  mkMsg Assistant response
  :: map (fun '(code, result) =>
            let resultStr := formatExecutionResult result in
            let resultStr :=
              if (maxCharLength <? String.length resultStr)%nat
              then str_take maxCharLength resultStr +++ "... + ["
                     +++ show_nat (String.length resultStr - maxCharLength)
                     +++ " chars truncated]"
              else resultStr in
            mkMsg User ("Code executed:" +++ nl +++ "```javascript" +++ nl +++ code +++ nl
                        +++ "```" +++ nl +++ nl +++ "REPL output:" +++ nl +++ resultStr))
         codeBlocks.

(* ------------------------------------------------------------------------- *)
(** ** parsing.ts: [convertContextForRepl] *)

(** [msg["content"] ?? ""] for one element of the array: reading a
    property of [null] or [undefined] throws a TypeError. *)
Definition content_or_empty (msg : jsval) : outcome jsval :=
  match msg with
  | JUndefined => Exn "TypeError: Cannot read properties of undefined (reading 'content')"
  | JNull => Exn "TypeError: Cannot read properties of null (reading 'content')"
  | JObj fs =>
      match SandboxImpl.assoc_get "content" fs with
      | None | Some JUndefined | Some JNull => Ok (JStr EmptyString)
      | Some v => Ok v
      end
  | _ => Ok (JStr EmptyString)
  end.

(** [context.map(msg => msg["content"] ?? "")] *)
Fixpoint map_content (l : list jsval) : outcome (list jsval) :=
  match l with
  | [] => Ok []
  | x :: l' =>
      match content_or_empty x with
      | Exn e => Exn e
      | Ok v =>
          match map_content l' with
          | Ok vs => Ok (v :: vs)
          | Exn e => Exn e
          end
      end
  end.

(** [convertContextForRepl(context)]: the pair [{ data, str }], [str] being
    [None] for [null]. *)
Definition convertContextForRepl (context : jsval) : outcome (jsval * option string) :=
  match context with
  | JStr s => Ok (JNull, Some s)
  | JArr l =>
      match l with
      | JObj fs :: _ =>
          (* [typeof context[0] === "object"] and ["content" in first] *)
          if existsb (fun kv => String.eqb (fst kv) "content") fs then
            match map_content l with
            | Ok vs => Ok (JArr vs, None)
            | Exn e => Exn e
            end
          else Ok (context, None)
      | _ => Ok (context, None)
      end
  | _ => Ok (context, None)
  end.

(* ------------------------------------------------------------------------- *)
(** ** rlm.ts: the driver *)

Module Driver.
Import SandboxImpl.
Import EventLoop.

Record RLMConfig : Type := mkConfig {
  maxIterations : nat;               (** default 30 *)
  systemPrompt : option string }.    (** replaces [RLM_SYSTEM_PROMPT] *)

Definition default_config : RLMConfig := mkConfig 30 None.

(** [this.systemPrompt = config.systemPrompt ?? RLM_SYSTEM_PROMPT] *)
Definition rllm_systemPrompt (cfg : RLMConfig) : string :=
  match systemPrompt cfg with Some s => s | None => RLM_SYSTEM_PROMPT end.

Record CompletionOptions : Type := mkOptions {
  opt_context : jsval;                               (** [JUndefined] when absent *)
  opt_schemaDescription : option string;             (** the rendered [contextSchema] *)
  opt_onEvent : option (Z * RLMEvent -> option string) }.
  (** [Some e]: the callback throws [e] *)

Inductive RLMTraceEntry : Type :=
| TLlmCall (timestamp : Z) (iteration promptLength responseLength : nat)
| TToolCall (timestamp : Z) (codeLength : nat)
| TToolResult (timestamp : Z) (hasOutput hasError : bool) (llmCalls : nat).

Record RLMUsage : Type := mkRLMUsage {
  totalCalls : nat;
  rootCalls : nat;
  subCalls : nat;
  tokenUsage : TokenUsage;
  executionTimeMs : Z }.

(** The [answer] is the JavaScript value the driver puts there. *)
Record RLMResult : Type := mkRLMResult {
  answer : jsval;
  usage : RLMUsage;
  iterations : nat;
  trace : list RLMTraceEntry }.

Record DriverState : Type := mkDrv {
  d_history : list ChatMessage;
  d_iterations : nat;
  d_usage : TokenUsage;
  d_trace : list RLMTraceEntry }.

(** [options.context ?? ""] *)
Definition default_context (c : jsval) : jsval :=
  match c with JUndefined | JNull => JStr "" | _ => c end.

(** [typeof context === "string" ? context : JSON.stringify(context)] *)
Definition context_text (c : jsval) : option string :=
  match c with JStr s => Some s | _ => json_stringify c end.

Definition context_type (c : jsval) : string :=
  match c with JStr _ => "string" | JArr _ => "array" | _ => "object" end.

(** What the root prompt is built from: rendered length and type tag. *)
Definition context_descriptor (c : jsval) : option (nat * string) :=
  let c := default_context c in
  match context_text c with
  | Some s => Some (String.length s, context_type c)
  | None => None
  end.

Definition finalPrompt : ChatMessage :=
  mkMsg User "You've reached the maximum iterations. Please provide your best final answer now using giveFinalAnswer({ message: 'your answer', data: optionalData }).".

Definition truncate_prompt (s : string) : string :=
  if (2000 <? String.length s)%nat then str_take 2000 s +++ "..." else s.

Definition is_truthy_string (o : option string) : option string :=
  match o with
  | Some a => if String.eqb a EmptyString then None else Some a
  | None => None
  end.

Section Completion.

Variable run_js : string -> program.
Variable cfg : RLMConfig.
Variable prompt : string.
Variable opts : CompletionOptions.

(** [emit(event)] *)
Definition emit (ev : RLMEvent) : M unit :=
  match opt_onEvent opts with
  | None => ret tt
  | Some f =>
      t <- now ;;
      modify (fun m => mkMachine (m_clock m) (m_replies m) (m_requests m) (m_sb m)
                         (m_reports m) (m_events m ++ [(t, ev)]) (m_tasks m)) ;;
      match f (t, ev) with
      | None => ret tt
      | Some e => throw e
      end
  end.

Definition with_trace (d : DriverState) (e : RLMTraceEntry) : DriverState :=
  mkDrv (d_history d) (d_iterations d) (d_usage d) (d_trace d ++ [e]).

(** The [return] inside the code-block loop. *)
Definition early_result (startTime : Z) (a : string) (d : DriverState) : M RLMResult :=
  calls <- getLLMCalls ;;
  su <- getTotalUsage ;;
  t <- now ;;
  ret (mkRLMResult (JStr a)
         (mkRLMUsage (d_iterations d + length calls) (d_iterations d) (length calls)
            (addUsage (d_usage d) su) (t - startTime))
         (d_iterations d) (d_trace d)).

(** [for (const code of codeBlockStrs) { ... }] of iteration [i]. *)
Fixpoint run_blocks (startTime : Z) (i : nat) (codes : list string)
    (acc : list (string * ExecutionReport)) (d : DriverState)
    : M (RLMResult + (list (string * ExecutionReport) * DriverState)) :=
  match codes with
  | [] => ret (inr (acc, d))
  | code :: rest =>
      emit (EvCodeExecutionStart (S i) code) ;;
      t1 <- now ;;
      let d := with_trace d (TToolCall t1 (String.length code)) in
      result <- execute run_js code None ;;
      let acc := acc ++ [(code, result)] in
      let formattedOutput := formatExecutionResult result in
      emit (EvCodeExecutionEnd (S i) code formattedOutput (r_error result)) ;;
      t2 <- now ;;
      let d := with_trace d (TToolResult t2 (0 <? String.length (r_stdout result))%nat
                               (match r_error result with Some _ => true | None => false end)
                               (length (r_llmCalls result))) in
      fa <- getFinalAnswer ;;
      match is_truthy_string fa with
      | Some a =>
          (* [finalAnswer.message] of a string is [undefined] *)
          emit (EvFinalAnswer (S i) None) ;;
          res <- early_result startTime a d ;;
          ret (inl res)
      | None => run_blocks startTime i rest acc d
      end
  end.

(** One pass of [for (let i = 0; i < maxIterations; i++)]. *)
Definition iteration (startTime : Z) (i : nat) (d : DriverState)
    : M (RLMResult + DriverState) :=
  let userPrompt := buildUserPrompt prompt i in
  let currentMessages := d_history d ++ [userPrompt] in
  emit (EvIterationStart (S i)) ;;
  emit (EvLlmQueryStart (S i) (truncate_prompt (msg_content userPrompt))) ;;
  llmResult <- client_complete RootLoopCall currentMessages ;;
  emit (EvLlmQueryEnd (S i) (cr_content llmResult)) ;;
  t <- now ;;
  let response := cr_content llmResult in
  let d := mkDrv (d_history d) (S i) (addUsage (d_usage d) (cr_usage llmResult))
             (d_trace d ++ [TLlmCall t (S i)
                              (String.length (str_concat "" (map msg_content currentMessages)))
                              (String.length response)]) in
  r <- run_blocks startTime i (findCodeBlocks response) [] d ;;
  match r with
  | inl res => ret (inl res)
  | inr (codeBlocks, d) =>
      ret (inr (mkDrv (d_history d ++ formatIteration response codeBlocks)
                  (d_iterations d) (d_usage d) (d_trace d)))
  end.

Fixpoint iter_loop (startTime : Z) (fuel i : nat) (d : DriverState)
    : M (RLMResult + DriverState) :=
  match fuel with
  | O => ret (inr d)
  | S f =>
      r <- iteration startTime i d ;;
      match r with
      | inl res => ret (inl res)
      | inr d' => iter_loop startTime f (S i) d'
      end
  end.

Fixpoint execute_all (codes : list string) : M unit :=
  match codes with
  | [] => ret tt
  | code :: rest => execute run_js code None ;; execute_all rest
  end.

(** After the loop: the final-request root call. *)
Definition final_phase (startTime : Z) (d : DriverState) : M RLMResult :=
  finalResult <- client_complete RootFinalCall (d_history d ++ [finalPrompt]) ;;
  let totalUsage := addUsage (d_usage d) (cr_usage finalResult) in
  execute_all (findCodeBlocks (cr_content finalResult)) ;;
  fa <- getFinalAnswer ;;
  calls <- getLLMCalls ;;
  su <- getTotalUsage ;;
  t <- now ;;
  let it := d_iterations d in
  let u := mkRLMUsage (it + 1 + length calls) (it + 1) (length calls)
             (addUsage totalUsage su) (t - startTime) in
  match is_truthy_string fa with
  | Some a => ret (mkRLMResult (JStr a) u (it + 1) (d_trace d))
  | None =>
      ret (mkRLMResult (JObj [("message", JStr (cr_content finalResult)); ("data", JUndefined)])
             u (it + 1) (d_trace d))
  end.

(** [completion(prompt, options)] *)
Definition completion : M RLMResult :=
  startTime <- now ;;
  let context := default_context (opt_context opts) in
  let sp := rllm_systemPrompt cfg in
  install_sb (new_Sandbox (Some sp)) ;;
  loadContext context ;;
  match context_text context with
  | None => throw "TypeError: Cannot read properties of undefined (reading 'length')"
  | Some contextStr =>
      let messageHistory :=
        buildSystemPrompt sp [String.length contextStr] (String.length contextStr)
          (context_type context) (opt_schemaDescription opts) in
      r <- iter_loop startTime (maxIterations cfg) O (mkDrv messageHistory O zero_usage []) ;;
      match r with
      | inl res => ret res
      | inr d => final_phase startTime d
      end
  end.

End Completion.

Definition initial_machine (replies : list reply) : Machine :=
  mkMachine 0 replies [] (new_Sandbox None) [] [] [].

(** One call of [completion] against a CompletionService script. *)
Definition run_completion (run_js : string -> program) (cfg : RLMConfig)
    (prompt : string) (opts : CompletionOptions) (replies : list reply)
    : outcome RLMResult * Machine :=
  completion run_js cfg prompt opts (initial_machine replies).

End Driver.

(* ------------------------------------------------------------------------- *)
(** ** Fenced blocks, the shape [findCodeBlocks] recognises *)

(** [fenced text inners]: [text] is a sequence of blocks, each some text,
    then ```repl, white space, a line break, the inner text [inner], a line
    break and ```, followed by arbitrary trailing text. *)
Inductive fenced : string -> list string -> Prop :=
| fenced_end : forall t, fenced t []
| fenced_block : forall pre ws inner post inners,
    all_space ws = true ->
    fenced post inners ->
    fenced (pre +++ open_fence +++ ws +++ nl +++ inner +++ close_fence +++ post)
           (inner :: inners).

(* ------------------------------------------------------------------------- *)
(** ** Sample sessions *)

Import SandboxImpl.
Import EventLoop.
Import Driver.

(** How V8 reads the code blocks of the sample sessions. *)
Definition demo_js (code : string) : program :=
  if String.eqb code "FINAL('first')" then Program [SFinal (JStr "first")]
  else if String.eqb code "x = 2" then Program [SAssign "x" (JNum 2)]
  else if String.eqb code "await llm_query('p')" then Program [SQuery None "p" None]
  else if String.eqb code "FINAL('done')" then Program [SFinal (JStr "done")]
  else if String.eqb code "FINAL('a'); FINAL('b')"
  then Program [SFinal (JStr "a"); SFinal (JStr "b")]
  else if String.eqb code "await new Promise(r => setTimeout(r, 0)); busy(400000)"
  then Program [SSleep 0; SWork 400000]
  else if String.eqb code "busy(400000)" then Program [SWork 400000]
  else SyntaxErr "Unexpected token".

Definition demo_usage : TokenUsage := mkUsage 1 2 3.

Definition repl_block (code : string) : string :=
  "```repl" +++ nl +++ code +++ nl +++ "```".

(** The root model queries a sub-model in iteration 1 and answers in
    iteration 2. *)
Definition demo_replies : list reply :=
  [RespondWith (repl_block "await llm_query('p')") demo_usage 5;
   RespondWith "sub" demo_usage 7;
   RespondWith (repl_block "FINAL('done')") demo_usage 11].

Definition demo_options (onEvent : option (Z * RLMEvent -> option string))
    : CompletionOptions :=
  mkOptions (JStr "abc") None onEvent.

Definition demo_run (onEvent : option (Z * RLMEvent -> option string))
    : outcome RLMResult * Machine :=
  run_completion demo_js (mkConfig 2 None) "question" (demo_options onEvent) demo_replies.

(** The root model queries a sub-model in its only iteration; the final
    request answers without code. *)
Definition late_replies : list reply :=
  [RespondWith (repl_block "await llm_query('p')") demo_usage 5;
   RespondWith "sub" demo_usage 7;
   RespondWith "no code" demo_usage 100].

Definition late_run : outcome RLMResult * Machine :=
  run_completion demo_js (mkConfig 1 None) "question" (demo_options None) late_replies.

(** Number of sub-call records in each logged [ExecutionReport]. *)
Definition report_subcalls (m : Machine) : list nat :=
  map (fun r => length (r_llmCalls r)) (m_reports m).

(** The timeout [execute] uses: [options.timeout ?? 300000]. *)
Definition timeout_of (timeoutOpt : option Z) : Z :=
  match timeoutOpt with Some t => t | None => 300000 end.

(** An [onEvent] callback that throws [e] on every event. *)
Definition failing_listener (e : string) : Z * RLMEvent -> option string := fun _ => Some e.

(** An [onEvent] callback that throws only on [code_execution_start]. *)
Definition throw_at_code (x : Z * RLMEvent) : option string :=
  match snd x with
  | EvCodeExecutionStart _ _ => Some "Error: listener failed"
  | _ => None
  end.

(** The sample completion with that callback. *)
Definition code_throw_run : outcome RLMResult * Machine :=
  run_completion demo_js (mkConfig 2 None) "question" (demo_options (Some throw_at_code))
    demo_replies.

(* ------------------------------------------------------------------------- *)
(** ** The CompletionService request log *)

(** [Logs P c]: running [c] only appends to the request log, and every
    request it appends satisfies [P]. *)
Definition Logs {A} (P : caller * list ChatMessage -> Prop) (c : M A) : Prop :=
  forall m, exists l, m_requests (snd (c m)) = m_requests m ++ l /\ Forall P l.

Definition not_final (x : caller * list ChatMessage) : Prop := fst x <> RootFinalCall.

(** [Post c Q]: whenever [c] returns normally, its value satisfies [Q]. *)
Definition Post {A} (c : M A) (Q : A -> Prop) : Prop :=
  forall m, match fst (c m) with Ok a => Q a | Exn _ => True end.

(** The first root request of a completion whose loop runs at least once,
    issued at time [t] with message history [d_history d]: none if one of
    the two events emitted before it throws. *)
Definition first_loop_request (prompt : string) (opts : CompletionOptions)
    (d : DriverState) (t : Z) : option (caller * list ChatMessage) :=
  let userPrompt := buildUserPrompt prompt 0 in
  let req := Some (RootLoopCall, d_history d ++ [userPrompt]) in
  match opt_onEvent opts with
  | None => req
  | Some f =>
      match f (t, EvIterationStart 1) with
      | Some _ => None
      | None =>
          match f (t, EvLlmQueryStart 1 (truncate_prompt (msg_content userPrompt))) with
          | Some _ => None
          | None => req
          end
      end
  end.

(** [Hoare P c Q]: from a state satisfying [P], if [c] returns normally
    with [a], the state it leaves satisfies [Q a]. *)
Definition Hoare {A} (P : Machine -> Prop) (c : M A) (Q : A -> Machine -> Prop) : Prop :=
  forall m, P m -> match c m with (Ok a, m') => Q a m' | (Exn _, _) => True end.

(** [Inv I c]: running [c] from a state satisfying [I], whether it returns
    or throws, leaves a state satisfying [I]. *)
Definition Inv {A} (I : Machine -> Prop) (c : M A) : Prop := forall m, I m -> I (snd (c m)).

Fixpoint has_dollar (s : string) : bool :=
  match s with
  | EmptyString => false
  | String c s' => Ascii.eqb c "$"%char || has_dollar s'
  end.

(** Header of the user message [formatIteration] builds for a code block. *)
Definition code_header (code : string) : string :=
  "Code executed:" +++ nl +++ "```javascript" +++ nl +++ code +++ nl
    +++ "```" +++ nl +++ nl +++ "REPL output:" +++ nl.

(** The vm context binds [k], and only to plain values. *)
Definition builtin_gvals (k : string) (s : Sandbox) : Prop :=
  exists g, sb_vmContext s = Some g /\ In k (map fst g) /\
            forall w, In (k, w) g -> exists v, w = GVal v.

(** A property of the sandbox's [locals]. *)
Definition locals_inv (L : list (string * gval) -> Prop) (s : Sandbox) : Prop := L (sb_locals s).

(** The usage figures of a result agree with each other. *)
Definition usage_consistent (res : RLMResult) : Prop :=
  rootCalls (usage res) = iterations res
  /\ totalCalls (usage res) = (rootCalls (usage res) + subCalls (usage res))%nat.

(** The loaded context of the sandbox is [c]. *)
Definition context_is (c : jsval) (s : Sandbox) : Prop := sb_context s = c.

Definition is_llm_entry (e : RLMTraceEntry) : bool :=
  match e with TLlmCall _ _ _ _ => true | _ => false end.

(** The number of [llm_call] entries of a trace. *)
Definition count_llm_entries (tr : list RLMTraceEntry) : nat := length (filter is_llm_entry tr).

Definition not_system (msg : ChatMessage) : Prop := msg_role msg <> System.

(** [LogsS J P c]: from a state satisfying [J], [c] only appends requests
    satisfying [P], and [J] still holds afterwards. *)
Definition LogsS {A} (J : Machine -> Prop) (P : caller * list ChatMessage -> Prop) (c : M A)
    : Prop :=
  forall m, J m ->
    exists l, m_requests (snd (c m)) = m_requests m ++ l /\ Forall P l /\ J (snd (c m)).

(** The messages of a sub-LLM request under system prompt [sp]. *)
Definition sub_request_ok (sp : string) (x : caller * list ChatMessage) : Prop :=
  fst x = SubCall ->
  exists p, snd x = (if String.eqb sp EmptyString then [] else [mkMsg System sp]) ++ [mkMsg User p].

(** The sandbox of a completion keeps the system prompt it was built with. *)
Definition has_systemPrompt (sp : string) (s : Sandbox) : Prop := sb_systemPrompt s = Some sp.

(** A suspended program of an earlier completion keeps that completion's
    sandbox, whose system prompt must be [sp] too. *)
Definition task_prompt_ok (sp : string) (tk : task) : Prop :=
  match tk_owner tk with
  | OwnDetached sb _ => has_systemPrompt sp sb
  | OwnCurrent _ _ => True
  end.

(** The current sandbox, and the sandbox of every program suspended in an
    earlier completion, have the system prompt [sp]; a program of the
    current sandbox sees its prompt. *)
Definition prompt_inv (sp : string) (m : Machine) : Prop :=
  has_systemPrompt sp (m_sb m) /\ Forall (task_prompt_ok sp) (m_tasks m).

(** Statements that suspend the program. *)
Definition is_await (st : stmt) : bool :=
  match st with SQuery _ _ _ | SSleep _ => true | _ => false end.



(** [Keeps c]: [c] emits no event. *)
Definition Keeps {A} (c : M A) : Prop := forall m, m_events (snd (c m)) = m_events m.

(** [EmitsOK f c]: [c] only appends events; either the callback [f]
    returned normally on all of them, or it returned normally on all but
    the last, threw [e] on the last, and [c] rejects with [e]. *)
Definition EmitsOK {A} (f : Z * RLMEvent -> option string) (c : M A) : Prop :=
  forall m, exists l, m_events (snd (c m)) = m_events m ++ l
    /\ (Forall (fun x => f x = None) l
        \/ exists l0 ev e, l = l0 ++ [ev] /\ Forall (fun x => f x = None) l0
                           /\ f ev = Some e /\ fst (c m) = Exn e).

(* ========================================================================= *)
(** * Theorems *)

Example findCodeBlocks_ex1 :
  findCodeBlocks ("hi" +++ nl +++ "```repl" +++ nl +++ "  x = 1 " +++ nl +++ "```"
                  +++ " and ```repl " +++ nl +++ "y" +++ nl +++ "``` end")
  = ["x = 1"; "y"].
Proof. reflexivity. Qed.

Example findCodeBlocks_ex2 : findCodeBlocks "```repl code```" = [].
Proof. reflexivity. Qed.

Example replace_dollar :
  str_replace "{r}" "<$&|$$|$x>" "a{r}b" = "a<{r}|$|$x>b".
Proof. reflexivity. Qed.

Lemma append_assoc (a b c : string) : (a +++ b) +++ c = a +++ b +++ c.
Proof. induction a as [|x a IH]; simpl; [reflexivity | now rewrite IH]. Qed.

Lemma append_empty_r (a : string) : a +++ EmptyString = a.
Proof. induction a as [|x a IH]; simpl; [reflexivity | now rewrite IH]. Qed.

Lemma prefix_split (p s : string) :
  String.prefix p s = true -> s = p +++ str_drop (String.length p) s.
Proof.
  revert s; induction p as [|c p IH]; intros s H; simpl.
  - destruct s; reflexivity.
  - destruct s as [|d s]; simpl in H; [discriminate|].
    destruct (ascii_dec c d) as [->|]; [|discriminate].
    f_equal. now apply IH.
Qed.

Lemma ws_candidates_split (r t : string) :
  In t (ws_candidates r) -> exists ws, all_space ws = true /\ r = ws +++ t.
Proof.
  revert t; induction r as [|c r IH]; intros t Hin; simpl in Hin.
  - destruct Hin as [<-|[]]. now exists EmptyString.
  - destruct (is_space c) eqn:Hc.
    + apply in_app_or in Hin as [Hin|[<-|[]]].
      * destruct (IH t Hin) as [ws [Hws ->]].
        exists (String c ws). simpl. now rewrite Hc, Hws.
      * now exists EmptyString.
    + destruct Hin as [<-|[]]. now exists EmptyString.
Qed.

Lemma lazy_capture_split (s cap rest : string) :
  lazy_capture s = Some (cap, rest) -> s = cap +++ close_fence +++ rest.
Proof.
  revert cap rest; induction s as [|c s IH]; intros cap rest H.
  - discriminate.
  - unfold lazy_capture in H; fold lazy_capture in H.
    destruct (String.prefix close_fence (String c s)) eqn:Hp.
    + injection H as <- <-. simpl. apply (prefix_split _ _ Hp).
    + destruct (lazy_capture s) as [[cap' rest']|] eqn:Hl; [|discriminate].
      injection H as <- <-. simpl. f_equal. now apply IH.
Qed.

Lemma first_some_in {A B} (f : A -> option B) (l : list A) (y : B) :
  first_some f l = Some y -> exists x, In x l /\ f x = Some y.
Proof.
  induction l as [|x l IH]; simpl; intros H; [discriminate|].
  destruct (f x) eqn:Hx.
  - injection H as <-. eauto.
  - destruct (IH H) as [x' [? ?]]. eauto.
Qed.

Lemma match_at_split (s cap rest : string) :
  match_at s = Some (cap, rest) ->
  exists ws, all_space ws = true /\
             s = open_fence +++ ws +++ nl +++ cap +++ close_fence +++ rest.
Proof.
  unfold match_at. destruct (String.prefix open_fence s) eqn:Hp; [|discriminate].
  intros H. apply first_some_in in H as [t [Hin Ht]].
  apply ws_candidates_split in Hin as [ws [Hws Hr]].
  exists ws; split; [exact Hws|].
  rewrite (prefix_split _ _ Hp). f_equal. simpl String.length. rewrite Hr. f_equal.
  destruct t as [|c t]; [discriminate|]. simpl in Ht.
  destruct (Ascii.eqb c (ascii_of_nat 10)) eqn:Hc; [|discriminate].
  apply Ascii.eqb_eq in Hc as ->.
  unfold nl, chr. simpl. f_equal. now apply lazy_capture_split.
Qed.

Lemma search_split (s cap rest : string) :
  search s = Some (cap, rest) ->
  exists pre ws, all_space ws = true /\
    s = pre +++ open_fence +++ ws +++ nl +++ cap +++ close_fence +++ rest.
Proof.
  induction s as [|c s IH]; intros H; simpl in H.
  - discriminate.
  - destruct (match_at (String c s)) eqn:Hm.
    + injection H as ->. apply match_at_split in Hm as [ws [? ?]].
      now exists EmptyString, ws.
    + destruct (IH H) as [pre [ws [Hws ->]]].
      now exists (String c pre), ws.
Qed.

Lemma find_blocks_loop_fenced (fuel : nat) (s : string) :
  exists inners, fenced s inners /\
    find_blocks_loop fuel s
    = filter (fun p => negb (String.eqb p EmptyString)) (map trim inners).
Proof.
  revert s; induction fuel as [|f IH]; intros s.
  - exists []. split; [constructor | reflexivity].
  - simpl. destruct (search s) as [[cap rest]|] eqn:Hs.
    + destruct (IH rest) as [inners [Hf Heq]].
      destruct (search_split _ _ _ Hs) as [pre [ws [Hws ->]]].
      exists (cap :: inners). split.
      * now constructor.
      * simpl. rewrite Heq. destruct (String.eqb (trim cap) EmptyString); reflexivity.
    + exists []. split; [constructor | reflexivity].
Qed.

Lemma length_append (a b : string) :
  String.length (a +++ b) = (String.length a + String.length b)%nat.
Proof. induction a as [|c a IH]; simpl; [reflexivity | now rewrite IH]. Qed.

Lemma search_shrinks (s cap rest : string) :
  search s = Some (cap, rest) -> (String.length rest + 11 <= String.length s)%nat.
Proof.
  intros H. destruct (search_split _ _ _ H) as [pre [ws [_ ->]]].
  rewrite !length_append. simpl. lia.
Qed.

(** The fuel of [findCodeBlocks] never runs out: more rounds give the same
    list, as the unbounded [while] loop does. *)
Lemma find_blocks_loop_enough (n : nat) (s : string) :
  (String.length s < n)%nat -> find_blocks_loop n s = find_blocks_loop (S n) s.
Proof.
  revert s; induction n as [|n IH]; intros s Hlt; [lia|].
  cbn [find_blocks_loop]. destruct (search s) as [[cap rest]|] eqn:Hs; [|reflexivity].
  apply search_shrinks in Hs. f_equal. apply IH. lia.
Qed.

Lemma findCodeBlocks_fuel (text : string) (k : nat) :
  find_blocks_loop (S (String.length text) + k) text = findCodeBlocks text.
Proof.
  unfold findCodeBlocks. induction k as [|k IH]; [now rewrite Nat.add_0_r|].
  rewrite Nat.add_succ_r, <- IH. symmetry. apply find_blocks_loop_enough. lia.
Qed.

(** C10: [findCodeBlocks] returns payloads only for fenced blocks in which
    ```repl is followed (after optional white space) by a line break and the
    closing ``` is preceded by a line break: for every text there is such a
    decomposition of the text into blocks, in order, whose trimmed non-empty
    inner texts are exactly the returned list; a single-line block
    "```repl code```" yields no code block. *)
Theorem findCodeBlocks_only_fenced :
  (forall text : string,
     exists inners, fenced text inners /\
       findCodeBlocks text
       = filter (fun p => negb (String.eqb p EmptyString)) (map trim inners))
  /\ findCodeBlocks "```repl code```" = [].
Proof.
  split.
  - intros text. apply find_blocks_loop_fenced.
  - reflexivity.
Qed.

(* ------------------------------------------------------------------------- *)
(** ** Sandbox state across executions *)

(** C1: the final answer does not persist across [execute] calls:
    [createContext] clears it. After [execute("FINAL('first')")] the answer
    is "first", and after a second [execute("x = 2")] on the same sandbox,
    which never calls [FINAL], [getFinalAnswer()] returns [null]. *)
Theorem execute_clears_final_answer :
  let m1 := snd (execute demo_js "FINAL('first')" None (initial_machine [])) in
  let m2 := snd (execute demo_js "x = 2" None m1) in
  fst (getFinalAnswer m1) = Ok (Some "first") /\ fst (getFinalAnswer m2) = Ok None.
Proof. vm_compute. split; reflexivity. Qed.

(** C2: [usage.subCalls] is not the sum of the sub-call records of the
    reports.  [execute] builds its report as soon as the program reaches
    [await llm_query(...)], before the call settles, so the report holds no
    record; the record lands in [llmCalls] later, while the driver awaits
    its final request, and [subCalls] counts it.  In the sample session the
    only report holds 0 records, yet [subCalls] is 1. *)
Theorem subCalls_not_sum_of_reports :
  match late_run with
  | (Ok res, m) => subCalls (usage res) = 1%nat /\ report_subcalls m = [0]%nat
  | (Exn _, _) => False
  end.
Proof. vm_compute. split; reflexivity. Qed.

(** C3: when a code block calls [FINAL], the [answer] of the result is the
    bare string the sandbox stored, not an object with a [message] field. *)
Theorem final_answer_is_bare_string :
  match demo_run None with
  | (Ok res, _) => answer res = JStr "done"
  | (Exn _, _) => False
  end.
Proof. vm_compute. reflexivity. Qed.

(** C5 (counterexample): a second [FINAL] in the same execution is not
    ignored: after [FINAL('a'); FINAL('b')] the answer is "b". *)
Lemma final_second_call_wins :
  fst (getFinalAnswer (snd (execute demo_js "FINAL('a'); FINAL('b')" None
                              (initial_machine [])))) = Ok (Some "b").
Proof. vm_compute. reflexivity. Qed.

(** C6 (counterexample): an [llm_query] whose completion call rejects
    appends no sub-call record. *)
Lemma llmQuery_failure_no_record :
  let '(o, m) := (call <- llmQuery "p" None ;; llmQuery_settle call)
                   (initial_machine [FailWith "Error: boom" 0]) in
  o = Ok "Error: LLM query failed - Error: boom" /\ sb_llmCalls (m_sb m) = [].
Proof. vm_compute. split; reflexivity. Qed.


(** C8 (counterexample): a throwing [onEvent] callback makes the sample
    completion reject, while with a callback that returns normally it
    resolves to a result. *)
Lemma onEvent_throw_not_swallowed :
  fst (demo_run (Some (fun _ => Some "Error: listener failed")))
    = Exn "Error: listener failed"
  /\ exists res, fst (demo_run (Some (fun _ => None))) = Ok res.
Proof. split; [vm_compute; reflexivity | eexists; vm_compute; reflexivity]. Qed.

(* ------------------------------------------------------------------------- *)
(** ** The final-answer bindings *)

(** C5 (amended): every call of [FINAL] or [FINAL_VAR] overwrites the stored
    final answer with the value it returns, whatever was stored before; of
    two calls in sequence the later one wins. *)
Theorem final_bindings_overwrite (m : Machine) (v w : jsval) (name : string) :
  (fst (FINAL v m) = Ok (js_String v)
   /\ sb_finalAnswer (m_sb (snd (FINAL v m))) = Some (js_String v))
  /\ (exists a, fst (FINAL_VAR name m) = Ok a
                /\ sb_finalAnswer (m_sb (snd (FINAL_VAR name m))) = Some a)
  /\ sb_finalAnswer (m_sb (snd ((FINAL v ;; FINAL w) m))) = Some (js_String w).
Proof.
  destruct m as [c rs rq [sp ctx vm o e l calls fa] reps evs tks].
  split; [split; reflexivity|]. split; [eexists; split; reflexivity | reflexivity].
Qed.

(** C6 (amended): [llm_query] always returns normally. [llmQuery] sends
    the request at once and appends nothing; when the completion call
    settles, the rest of [llmQuery] runs: if the call resolved it returns
    the text and appends exactly one record with the prompt, the text, the
    model, the usage and the call's duration (from the request to the time
    the rest runs, which is when the reply arrives if the program is
    resumed at once); if it rejected it returns "Error: LLM query failed - "
    followed by the error and appends nothing. *)
Theorem llmQuery_total (p : string) (model : option string) (m : Machine) :
  let '(o1, m1) := llmQuery p model m in
  exists call, o1 = Ok call /\ sb_llmCalls (m_sb m1) = sb_llmCalls (m_sb m) /\
  forall m2,
  let '(o2, m3) := llmQuery_settle call m2 in
  match m_replies m with
  | RespondWith c u lat :: _ =>
      pc_arrival call = m_clock m + Z.max 0 lat
      /\ o2 = Ok c
      /\ sb_llmCalls (m_sb m3)
         = sb_llmCalls (m_sb m2) ++ [mkCallRecord p c model u (m_clock m2 - m_clock m)]
  | FailWith e _ :: _ =>
      o2 = Ok ("Error: LLM query failed - " +++ e) /\ sb_llmCalls (m_sb m3) = sb_llmCalls (m_sb m2)
  | [] =>
      o2 = Ok ("Error: LLM query failed - Error: CompletionService unavailable")
      /\ sb_llmCalls (m_sb m3) = sb_llmCalls (m_sb m2)
  end.
Proof.
  destruct m as [clk rs rq sb reps evs tks].
  destruct rs as [|[c u lat|e lat] rs]; cbn;
    (eexists; split; [reflexivity|]; split; [reflexivity|]);
    intros [clk2 rs2 rq2 sb2 reps2 evs2 tks2]; cbn; repeat split.
Qed.

(* ------------------------------------------------------------------------- *)
(** ** The execution timeout *)









Lemma context_text_default (c : jsval) : exists s, context_text (default_context c) = Some s.
Proof. destruct c; try destruct b; cbn; eexists; reflexivity. Qed.

(* ------------------------------------------------------------------------- *)
(** ** What the driver sends to the CompletionService *)

Section LogLemmas.

Variable P : caller * list ChatMessage -> Prop.

Lemma logs_ret {A} (a : A) : Logs P (ret a).
Proof. intros m. exists []. split; [symmetry; apply app_nil_r | constructor]. Qed.

Lemma logs_throw {A} (e : string) : Logs P (@throw A e).
Proof. intros m. exists []. split; [symmetry; apply app_nil_r | constructor]. Qed.

Lemma logs_gets {A} (f : Machine -> A) : Logs P (gets f).
Proof. intros m. exists []. split; [symmetry; apply app_nil_r | constructor]. Qed.

Lemma logs_modify (f : Machine -> Machine) :
  (forall m, m_requests (f m) = m_requests m) -> Logs P (modify f).
Proof. intros Hf m. exists []. cbn. rewrite Hf. split; [symmetry; apply app_nil_r | constructor]. Qed.

Lemma logs_bind {A B} (c : M A) (k : A -> M B) :
  Logs P c -> (forall a, Logs P (k a)) -> Logs P (bind c k).
Proof.
  intros Hc Hk m. unfold bind. destruct (Hc m) as [l1 [E1 F1]].
  destruct (c m) as [[a|e] m1]; cbn in E1.
  - destruct (Hk a m1) as [l2 [E2 F2]]. exists (l1 ++ l2).
    rewrite E2, E1, app_assoc. split; [reflexivity | apply Forall_app; auto].
  - exists l1. auto.
Qed.

Lemma logs_try_catch {A} (c : M A) : Logs P c -> Logs P (try_catch c).
Proof.
  intros Hc m. destruct (Hc m) as [l [E F]]. unfold try_catch.
  destruct (c m) as [[a|e] m1]; exists l; auto.
Qed.

Lemma logs_client_send (who : caller) (msgs : list ChatMessage) :
  P (who, msgs) -> Logs P (client_send who msgs).
Proof.
  intros H m. exists [(who, msgs)]. unfold client_send.
  destruct (m_replies m) as [|[c u lat|e lat] rs]; cbn; auto.
Qed.

Lemma logs_install_sb (sb : Sandbox) : Logs P (install_sb sb).
Proof. apply logs_modify. reflexivity. Qed.

Lemma logs_set_tasks (tks : list task) : Logs P (set_tasks tks).
Proof. apply logs_modify. reflexivity. Qed.

Lemma logs_schedule (tk : task) : Logs P (schedule tk).
Proof. apply logs_modify. reflexivity. Qed.

Lemma logs_retire_vm (keep : bool) : Logs P (retire_vm keep).
Proof. apply logs_modify. reflexivity. Qed.

Lemma logs_put_sb (sb : Sandbox) : Logs P (put_sb sb).
Proof. apply logs_modify. reflexivity. Qed.

Lemma logs_set_clock (t : Z) : Logs P (set_clock t).
Proof. apply logs_modify. reflexivity. Qed.

Lemma logs_log_report (r : ExecutionReport) : Logs P (log_report r).
Proof. apply logs_modify. reflexivity. Qed.

Lemma logs_now : Logs P now.
Proof. apply logs_gets. Qed.

Lemma logs_get_sb : Logs P get_sb.
Proof. apply logs_gets. Qed.

Lemma logs_advance (ms : Z) : Logs P (advance ms).
Proof. apply logs_bind; [apply logs_now | intros; apply logs_set_clock]. Qed.

Lemma logs_upd (f : Sandbox -> Sandbox) : Logs P (upd f).
Proof. apply logs_bind; [apply logs_get_sb | intros; apply logs_put_sb]. Qed.

End LogLemmas.

Create HintDb logs.
#[export] Hint Resolve logs_ret logs_throw logs_gets logs_try_catch logs_put_sb
  logs_set_clock logs_log_report logs_now logs_get_sb logs_advance logs_upd logs_install_sb
  logs_set_tasks logs_schedule logs_retire_vm : logs.
#[export] Hint Extern 1 (Logs _ (modify _)) => (apply logs_modify; intros; reflexivity) : logs.
#[export] Hint Extern 1 (Logs _ (client_send _ _)) =>
  (apply logs_client_send;
   first [exact I | solve [eauto] | (cbv [not_final]; cbn; discriminate)]) : logs.

(** Walks through a monadic program, splitting its binds and its branches. *)
Ltac logs_solve :=
  repeat (cbv beta zeta;
          match goal with
          | |- Logs _ (bind _ _) => apply logs_bind; [|intros ?]
          | |- Logs _ (match ?x with _ => _ end) => destruct x
          | |- Logs _ (if ?b then _ else _) => destruct b
          | |- _ => solve [eauto with logs]
          end).

Section Sub.

Variable P : caller * list ChatMessage -> Prop.
Hypothesis P_sub : forall msgs, P (SubCall, msgs).

Lemma logs_llmQuery (p : string) (model : option string) : Logs P (llmQuery p model).
Proof. unfold llmQuery. logs_solve. Qed.
#[local] Hint Resolve logs_llmQuery : logs.

Lemma logs_run_body (deadline : option Z) (ss : list stmt) : Logs P (run_body deadline ss).
Proof.
  induction ss as [|st ss IH]; cbn [run_body]; [auto with logs|].
  destruct st; unfold FINAL, FINAL_VAR, push_stdout, push_stderr, set_global; logs_solve.
Qed.
#[local] Hint Resolve logs_run_body : logs.

Lemma logs_wrapper_tail (live : bool) (e : body_end) : Logs P (wrapper_tail live e).
Proof.
  unfold wrapper_tail, report_user_error, capture_into, capture_locals, push_stderr. logs_solve.
Qed.
#[local] Hint Resolve logs_wrapper_tail : logs.

Lemma logs_execute (run_js : string -> program) (code : string) (t : option Z) :
  Logs P (execute run_js code t).
Proof.
  unfold execute, createContext, syncLocals, report_ok, report_error. logs_solve.
Qed.

Lemma logs_run_task (tk : task) : Logs P (run_task tk).
Proof.
  unfold run_task, resume, llmQuery_settle, set_global. logs_solve.
Qed.
#[local] Hint Resolve logs_run_task : logs.

Lemma logs_run_until (limit : Z) : Logs P (run_until limit).
Proof.
  unfold run_until. apply logs_bind; [auto with logs|intros tks].
  generalize (task_fuel tks). intros fuel.
  induction fuel as [|f IH]; cbn [run_due]; logs_solve.
Qed.
#[local] Hint Resolve logs_run_until : logs.

Lemma logs_client_complete (who : caller) (msgs : list ChatMessage) :
  P (who, msgs) -> Logs P (client_complete who msgs).
Proof. intros H. unfold client_complete. logs_solve. Qed.

End Sub.

#[export] Hint Extern 1 (Logs _ (client_complete _ _)) =>
  (apply logs_client_complete;
   intros; first [exact I | solve [eauto] | (cbv [not_final]; cbn; discriminate)]) : logs.

Section Loop.

Variable P : caller * list ChatMessage -> Prop.
Hypothesis P_sub : forall msgs, P (SubCall, msgs).
Hypothesis P_loop : forall msgs, P (RootLoopCall, msgs).

Variable run_js : string -> program.
Variable prompt : string.
Variable opts : CompletionOptions.

#[local] Hint Resolve logs_execute : logs.

Lemma logs_emit (ev : RLMEvent) : Logs P (emit opts ev).
Proof. unfold emit. logs_solve. Qed.
#[local] Hint Resolve logs_emit : logs.

Lemma logs_early_result (st : Z) (a : string) (d : DriverState) :
  Logs P (early_result st a d).
Proof. unfold early_result, getLLMCalls, getTotalUsage. logs_solve. Qed.
#[local] Hint Resolve logs_early_result : logs.

Lemma logs_run_blocks (st : Z) (i : nat) (codes : list string)
    (acc : list (string * ExecutionReport)) (d : DriverState) :
  Logs P (run_blocks run_js opts st i codes acc d).
Proof.
  revert acc d; induction codes as [|code codes IH]; intros acc d;
    cbn [run_blocks]; [auto with logs|].
  unfold getFinalAnswer. logs_solve.
Qed.
#[local] Hint Resolve logs_run_blocks : logs.

Lemma logs_iteration (st : Z) (i : nat) (d : DriverState) :
  Logs P (iteration run_js prompt opts st i d).
Proof. unfold iteration. logs_solve. Qed.
#[local] Hint Resolve logs_iteration : logs.

Lemma logs_iter_loop (st : Z) (fuel i : nat) (d : DriverState) :
  Logs P (iter_loop run_js prompt opts st fuel i d).
Proof.
  revert i d; induction fuel as [|f IH]; intros i d; cbn [iter_loop]; logs_solve.
Qed.

Lemma logs_execute_all (codes : list string) : Logs P (execute_all run_js codes).
Proof. induction codes as [|c cs IH]; cbn [execute_all]; logs_solve. Qed.
#[local] Hint Resolve logs_execute_all : logs.

Hypothesis P_final : forall msgs, P (RootFinalCall, msgs).

Lemma logs_final_phase (st : Z) (d : DriverState) : Logs P (final_phase run_js st d).
Proof. unfold final_phase, getFinalAnswer, getLLMCalls, getTotalUsage. logs_solve. Qed.

End Loop.

Lemma post_ret {A} (a : A) (Q : A -> Prop) : Q a -> Post (ret a) Q.
Proof. intros H m. exact H. Qed.

Lemma post_bind {A B} (c : M A) (k : A -> M B) (R : A -> Prop) (Q : B -> Prop) :
  Post c R -> (forall a, R a -> Post (k a) Q) -> Post (bind c k) Q.
Proof.
  intros Hc Hk m. specialize (Hc m). unfold bind.
  destruct (c m) as [[a|e] m1]; cbn in *; [apply Hk; exact Hc | exact I].
Qed.

Lemma post_any {A B} (c : M A) (k : A -> M B) (Q : B -> Prop) :
  (forall a, Post (k a) Q) -> Post (bind c k) Q.
Proof.
  intros Hk. apply (post_bind c k (fun _ => True)); [|intros a _; apply Hk].
  intros m. destruct (fst (c m)); exact I.
Qed.

Lemma post_conseq {A} (c : M A) (Q Q' : A -> Prop) :
  Post c Q -> (forall a, Q a -> Q' a) -> Post c Q'.
Proof. intros Hc H m. specialize (Hc m). destruct (fst (c m)); auto. Qed.

Lemma bind_requests {A B} (P : caller * list ChatMessage -> Prop) (c : M A) (k : A -> M B)
    (m : Machine) :
  (forall a, Logs P (k a)) ->
  exists l, m_requests (snd (bind c k m)) = m_requests (snd (c m)) ++ l.
Proof.
  intros Hk. unfold bind. destruct (c m) as [[a|e] m1]; cbn.
  - destruct (Hk a m1) as [l [E _]]. exists l. exact E.
  - exists []. symmetry. apply app_nil_r.
Qed.

#[export] Hint Resolve logs_llmQuery logs_run_body logs_execute logs_emit logs_early_result
  logs_run_blocks logs_iteration logs_iter_loop logs_execute_all logs_wrapper_tail logs_run_task
  logs_run_until : logs.
#[export] Hint Extern 1 (not_final _) => (cbv [not_final]; cbn; discriminate) : logs.

Section Iterations.

Variable run_js : string -> program.
Variable cfg : RLMConfig.
Variable prompt : string.
Variable opts : CompletionOptions.

Lemma early_result_iterations (st : Z) (a : string) (d : DriverState) :
  Post (early_result st a d) (fun res => iterations res = d_iterations d).
Proof.
  unfold early_result. do 3 (apply post_any; intros ?). apply post_ret. reflexivity.
Qed.

Lemma run_blocks_iterations (st : Z) (i : nat) (codes : list string)
    (acc : list (string * ExecutionReport)) (d : DriverState) :
  Post (run_blocks run_js opts st i codes acc d)
    (fun r => match r with
              | inl res => iterations res = d_iterations d
              | inr (_, d') => d_iterations d' = d_iterations d
              end).
Proof.
  revert acc d; induction codes as [|code codes IH]; intros acc d;
    cbn [run_blocks]; [apply post_ret; reflexivity|].
  do 6 (apply post_any; intros ?). cbv zeta.
  destruct (is_truthy_string _).
  - apply post_any; intros _.
    apply (post_bind _ _ _ _ (early_result_iterations _ _ _)).
    intros res Hres. apply post_ret. exact Hres.
  - eapply post_conseq; [apply IH|]. intros [res|[acc' d']]; auto.
Qed.

Lemma iteration_iterations (st : Z) (i : nat) (d : DriverState) :
  Post (iteration run_js prompt opts st i d)
    (fun r => match r with
              | inl res => iterations res = S i
              | inr d' => d_iterations d' = S i
              end).
Proof.
  unfold iteration. do 5 (apply post_any; intros ?). cbv zeta.
  eapply post_bind; [apply run_blocks_iterations|].
  intros [res|[cb d']] H; apply post_ret; exact H.
Qed.

Lemma iter_loop_iterations (st : Z) (fuel i : nat) (d : DriverState) :
  d_iterations d = i ->
  Post (iter_loop run_js prompt opts st fuel i d)
    (fun r => match r with
              | inl res => (S i <= iterations res <= i + fuel)%nat
              | inr d' => d_iterations d' = (i + fuel)%nat
              end).
Proof.
  revert i d; induction fuel as [|f IH]; intros i d Hd; cbn [iter_loop].
  - apply post_ret. lia.
  - eapply post_bind; [apply iteration_iterations|].
    intros [res|d'] H.
    + apply post_ret. lia.
    + eapply post_conseq; [apply (IH (S i) d' H)|]. intros [res|d'']; lia.
Qed.

Lemma final_phase_iterations (st : Z) (d : DriverState) :
  Post (final_phase run_js st d) (fun res => iterations res = (d_iterations d + 1)%nat).
Proof.
  unfold final_phase. do 6 (apply post_any; intros ?). cbv zeta.
  destruct (is_truthy_string _); apply post_ret; reflexivity.
Qed.

Lemma client_complete_requests (who : caller) (msgs : list ChatMessage) (m : Machine) :
  exists l, m_requests (snd (client_complete who msgs m)) = m_requests m ++ (who, msgs) :: l.
Proof.
  unfold client_complete.
  match goal with
  | |- context [bind ?c ?k m] => destruct (bind_requests (fun _ => True) c k m) as [l E]
  end.
  { intros [settled lat]. logs_solve. }
  exists l. rewrite E. unfold client_send.
  destruct (m_replies m) as [|[]]; cbn; rewrite <- app_assoc; reflexivity.
Qed.

Lemma final_phase_logs_final (st : Z) (d : DriverState) (m : Machine) :
  In RootFinalCall (map fst (m_requests (snd (final_phase run_js st d m)))).
Proof.
  unfold final_phase.
  match goal with
  | |- context [bind ?c ?k m] => destruct (bind_requests (fun _ => True) c k m) as [l E]
  end.
  { intros a. unfold getFinalAnswer, getLLMCalls, getTotalUsage. logs_solve. }
  destruct (client_complete_requests RootFinalCall (d_history d ++ [finalPrompt]) m) as [l' E'].
  rewrite E, E', !map_app. apply in_or_app. left.
  apply in_or_app. right. left. reflexivity.
Qed.

End Iterations.

(* ------------------------------------------------------------------------- *)
(** ** Iteration count *)

(** C7: when a completion returns a result, [iterations] lies between 1 and
    [maxIterations + 1], and it equals [maxIterations + 1] exactly when the
    final-request root call was sent, which happens only once the loop has
    run all [maxIterations] iterations without a final answer. *)
Theorem iterations_bounded (run_js : string -> program) (cfg : RLMConfig) (prompt : string)
    (opts : CompletionOptions) (replies : list reply) (res : RLMResult) (m : Machine) :
  run_completion run_js cfg prompt opts replies = (Ok res, m) ->
  (1 <= iterations res <= maxIterations cfg + 1)%nat
  /\ (iterations res = (maxIterations cfg + 1)%nat <-> In RootFinalCall (map fst (m_requests m))).
Proof.
  intros H. unfold run_completion, completion in H.
  destruct (context_text_default (opt_context opts)) as [s Hs].
  cbv [bind now gets put_sb modify loadContext upd get_sb install_sb] in H.
  cbn -[context_text default_context buildSystemPrompt iter_loop final_phase] in H.
  rewrite Hs in H.
  match type of H with
  | context [iter_loop ?rj ?p ?o ?st ?fu ?i ?d ?m1] =>
      pose proof (iter_loop_iterations rj p o st fu i d eq_refl m1) as HP;
      destruct (logs_iter_loop not_final ltac:(eauto with logs) ltac:(eauto with logs)
                  rj p o st fu i d m1) as [l [El Fl]];
      destruct (iter_loop rj p o st fu i d m1) as [[[r|dd]|e] m2] eqn:E
  end; cbn in HP, El.
  - injection H as <- <-. split; [lia|]. split; [lia|].
    rewrite El. intros Hin. apply in_map_iff in Hin as [x [Hx Hin]].
    rewrite Forall_forall in Fl. destruct (Fl x Hin Hx).
  - pose proof (final_phase_iterations run_js 0 dd m2) as HF.
    pose proof (final_phase_logs_final run_js 0 dd m2) as HL.
    rewrite H in HF, HL. cbn in HF. split; [lia|]. split; [intros _; exact HL | lia].
  - discriminate H.
Qed.

Lemma iterations_bounded_witness :
  exists res,
  fst (run_completion demo_js (mkConfig 2 None) "question" (demo_options None) demo_replies)
    = Ok res
  /\ (1 <= iterations res <= maxIterations (mkConfig 2 None) + 1)%nat
  /\ (iterations res = (maxIterations (mkConfig 2 None) + 1)%nat
      <-> In RootFinalCall (map fst (m_requests (snd (run_completion demo_js (mkConfig 2 None)
                                                       "question" (demo_options None)
                                                       demo_replies))))).
Proof.
  destruct (run_completion demo_js (mkConfig 2 None) "question" (demo_options None) demo_replies)
    as [[res|e] m] eqn:E.
  - exists res. split; [reflexivity|].
    exact (iterations_bounded demo_js (mkConfig 2 None) "question" (demo_options None)
             demo_replies res m E).
  - vm_compute in E. discriminate E.
Defined.

(* ------------------------------------------------------------------------- *)
(** ** What the root model is shown of the context *)

#[export] Hint Resolve logs_final_phase : logs.

Lemma bind_unfold {A B} (c : M A) (k : A -> M B) (m : Machine) :
  bind c k m = match c m with (Ok a, m') => k a m' | (Exn e, m') => (Exn e, m') end.
Proof. reflexivity. Qed.

Lemma emit_step (opts : CompletionOptions) (ev : RLMEvent) (m : Machine) :
  emit opts ev m
  = match opt_onEvent opts with
    | None => (Ok tt, m)
    | Some f =>
        (match f (m_clock m, ev) with None => Ok tt | Some e => Exn e end,
         mkMachine (m_clock m) (m_replies m) (m_requests m) (m_sb m) (m_reports m)
           (m_events m ++ [(m_clock m, ev)]) (m_tasks m))
    end.
Proof.
  unfold emit. destruct (opt_onEvent opts) as [f|]; [|reflexivity].
  cbv [bind now gets modify]. destruct (f (m_clock m, ev)); reflexivity.
Qed.

Lemma head_bind {A B} (c : M A) (k : A -> M B) (m : Machine) :
  (forall a, Logs (fun _ => True) (k a)) ->
  (m_requests (snd (c m)) <> [] \/ exists e, fst (c m) = Exn e) ->
  hd_error (m_requests (snd (bind c k m))) = hd_error (m_requests (snd (c m)))
  /\ (m_requests (snd (bind c k m)) <> [] \/ exists e, fst (bind c k m) = Exn e).
Proof.
  intros Hk Hc. unfold bind. destruct (c m) as [[a|e] m1]; cbn in Hc |- *.
  - destruct Hc as [Hne|[e' He]]; [|discriminate].
    destruct (Hk a m1) as [l [E _]]. rewrite E.
    destruct (m_requests m1); [contradiction|]. split; [reflexivity | left; discriminate].
  - split; [reflexivity | right; eauto].
Qed.

Lemma head_client_bind {B} (who : caller) (msgs : list ChatMessage)
    (k : CompletionResult -> M B) (m : Machine) :
  m_requests m = [] ->
  (forall a, Logs (fun _ => True) (k a)) ->
  hd_error (m_requests (snd (bind (client_complete who msgs) k m))) = Some (who, msgs).
Proof.
  intros Hm Hk. destruct (bind_requests _ (client_complete who msgs) k m Hk) as [l E].
  destruct (client_complete_requests who msgs m) as [l' E'].
  rewrite E, E', Hm. reflexivity.
Qed.

Lemma iteration_first_request (run_js : string -> program) (prompt : string)
    (opts : CompletionOptions) (st : Z) (d : DriverState) (m : Machine) :
  m_requests m = [] ->
  hd_error (m_requests (snd (iteration run_js prompt opts st 0 d m)))
    = first_loop_request prompt opts d (m_clock m)
  /\ (first_loop_request prompt opts d (m_clock m) = None ->
      exists e, fst (iteration run_js prompt opts st 0 d m) = Exn e).
Proof.
  intros Hm. unfold iteration, first_loop_request. cbv zeta.
  rewrite bind_unfold, emit_step.
  destruct (opt_onEvent opts) as [f|] eqn:Ho; cbv beta iota.
  - destruct (f (m_clock m, EvIterationStart 1)) as [e1|] eqn:F1; cbv beta iota.
    + cbn [snd fst m_requests]. rewrite Hm. split; [reflexivity | eauto].
    + rewrite bind_unfold, emit_step, Ho. cbn [m_clock m_requests].
      destruct (f (m_clock m, EvLlmQueryStart 1 _)) as [e2|] eqn:F2; cbv beta iota.
      * cbn [snd fst m_requests]. rewrite Hm. split; [reflexivity | eauto].
      * split; [|discriminate]. apply head_client_bind; [exact Hm|].
        intros a. logs_solve.
  - rewrite bind_unfold, emit_step, Ho. cbv beta iota.
    split; [|discriminate]. apply head_client_bind; [exact Hm|].
    intros a. logs_solve.
Qed.

Lemma loop_first_request {B} (run_js : string -> program) (prompt : string)
    (opts : CompletionOptions) (st : Z) (n : nat) (d : DriverState)
    (k : RLMResult + DriverState -> M B) (m : Machine) :
  m_requests m = [] ->
  (forall a, Logs (fun _ => True) (k a)) ->
  hd_error (m_requests (snd (bind (iter_loop run_js prompt opts st (S n) 0 d) k m)))
    = first_loop_request prompt opts d (m_clock m).
Proof.
  intros Hm Hk. destruct (iteration_first_request run_js prompt opts st d m Hm) as [Hh He].
  assert (Hc : m_requests (snd (iteration run_js prompt opts st 0 d m)) <> []
               \/ exists e, fst (iteration run_js prompt opts st 0 d m) = Exn e).
  { destruct (first_loop_request prompt opts d (m_clock m)) eqn:F.
    - left. intros E. rewrite E in Hh. discriminate.
    - right. apply He. reflexivity. }
  cbn [iter_loop].
  match goal with
  | |- context [bind (bind ?c ?k1) k m] =>
      destruct (head_bind c k1 m ltac:(intros a; logs_solve) Hc) as [H1 H2];
      destruct (head_bind (bind c k1) k m Hk H2) as [H3 _]
  end.
  rewrite H3, H1, Hh. reflexivity.
Qed.

Lemma final_phase_first_request (run_js : string -> program) (st : Z) (d : DriverState)
    (m : Machine) :
  m_requests m = [] ->
  hd_error (m_requests (snd (final_phase run_js st d m)))
    = Some (RootFinalCall, d_history d ++ [finalPrompt]).
Proof.
  intros Hm. unfold final_phase. apply head_client_bind; [exact Hm|].
  intros a. unfold getFinalAnswer, getLLMCalls, getTotalUsage. logs_solve.
Qed.

(** C4: the first request the driver sends to the root CompletionService
    depends on the context only through its rendered length and its type
    tag: two contexts with the same [context_descriptor] give the same first
    root request (caller and message history), so the root prompt does not
    carry the raw context. *)
Theorem root_request_context_metadata (run_js : string -> program) (cfg : RLMConfig)
    (prompt : string) (schema : option string) (onEvent : option (Z * RLMEvent -> option string))
    (replies : list reply) (c1 c2 : jsval) :
  context_descriptor c1 = context_descriptor c2 ->
  hd_error (m_requests (snd (run_completion run_js cfg prompt (mkOptions c1 schema onEvent) replies)))
  = hd_error (m_requests (snd (run_completion run_js cfg prompt (mkOptions c2 schema onEvent) replies))).
Proof.
  intros H. unfold context_descriptor in H.
  destruct (context_text_default c1) as [s1 H1]. destruct (context_text_default c2) as [s2 H2].
  rewrite H1, H2 in H. injection H as Hlen Hty.
  unfold run_completion, completion.
  cbn -[iter_loop final_phase buildSystemPrompt context_text default_context].
  rewrite H1, H2. cbv beta iota. rewrite Hlen, Hty.
  destruct (maxIterations cfg) as [|n].
  - cbn [iter_loop]. rewrite !bind_unfold. cbv [ret]. cbv beta iota.
    rewrite !final_phase_first_request by reflexivity. reflexivity.
  - rewrite !loop_first_request by (reflexivity || (intros a; logs_solve)). reflexivity.
Qed.

Lemma root_request_context_metadata_witness :
  context_descriptor (JStr "abc") = context_descriptor (JStr "xyz")
  /\ hd_error (m_requests (snd (run_completion demo_js (mkConfig 2 None) "question"
                                  (mkOptions (JStr "abc") None None) demo_replies)))
     = hd_error (m_requests (snd (run_completion demo_js (mkConfig 2 None) "question"
                                  (mkOptions (JStr "xyz") None None) demo_replies))).
Proof.
  split; [reflexivity|].
  apply (root_request_context_metadata demo_js (mkConfig 2 None) "question" None None
           demo_replies (JStr "abc") (JStr "xyz")).
  reflexivity.
Defined.

(* ------------------------------------------------------------------------- *)
(** ** Token usage totals *)

Lemma list_sum_cons' (x : nat) (l : list nat) : list_sum (x :: l) = (x + list_sum l)%nat.
Proof. reflexivity. Qed.

Lemma total_usage_fold (calls : list LLMCallRecord) (acc : TokenUsage) :
  fold_left (fun acc c => addUsage acc (rec_usage c)) calls acc
  = mkUsage (promptTokens acc + list_sum (map (fun c => promptTokens (rec_usage c)) calls))
            (completionTokens acc
               + list_sum (map (fun c => completionTokens (rec_usage c)) calls))
            (totalTokens acc + list_sum (map (fun c => totalTokens (rec_usage c)) calls)).
Proof.
  revert acc; induction calls as [|c calls IH]; intros acc; cbn [fold_left map];
    rewrite ?list_sum_cons'.
  - destruct acc; cbn [promptTokens completionTokens totalTokens list_sum fold_right].
    f_equal; lia.
  - rewrite IH. unfold addUsage. cbn [promptTokens completionTokens totalTokens].
    f_equal; lia.
Qed.

(** X1: [getTotalUsage] adds up each of the three token counts of the
    recorded sub-LLM calls. *)
Theorem total_usage_sums (calls : list LLMCallRecord) :
  total_usage calls
  = mkUsage (list_sum (map (fun c => promptTokens (rec_usage c)) calls))
            (list_sum (map (fun c => completionTokens (rec_usage c)) calls))
            (list_sum (map (fun c => totalTokens (rec_usage c)) calls)).
Proof. unfold total_usage. rewrite total_usage_fold. reflexivity. Qed.

(** X2: the total usage of two lists of calls put one after the other is the
    [addUsage] of their totals. *)
Theorem total_usage_app (l1 l2 : list LLMCallRecord) :
  total_usage (l1 ++ l2) = addUsage (total_usage l1) (total_usage l2).
Proof.
  unfold total_usage. rewrite !total_usage_fold, !map_app, !list_sum_app.
  unfold addUsage. cbn. f_equal; lia.
Qed.

(* ------------------------------------------------------------------------- *)
(** ** Report formatting *)

Lemma str_concat_in (sep x : string) (l : list string) :
  In x l -> exists pre post, str_concat sep l = pre +++ x +++ post.
Proof.
  induction l as [|y l IH]; intros Hin; [destruct Hin|].
  destruct Hin as [<-|Hin].
  - destruct l as [|z l].
    + exists EmptyString, EmptyString. cbn. now rewrite append_empty_r.
    + exists EmptyString, (sep +++ str_concat sep (z :: l)). reflexivity.
  - destruct (IH Hin) as [pre [post E]]. destruct l as [|z l]; [destruct Hin|].
    exists (y +++ sep +++ pre), post.
    change (str_concat sep (y :: z :: l)) with (y +++ sep +++ str_concat sep (z :: l)).
    rewrite E, !append_assoc. reflexivity.
Qed.

(** X3: a report with empty stdout and stderr whose local names all start
    with an underscore is rendered as "No output". *)
Theorem formatExecutionResult_no_output (r : ExecutionReport) :
  r_stdout r = EmptyString -> r_stderr r = EmptyString ->
  Forall (fun k => starts_with "_" k = true) (map fst (r_locals r)) ->
  formatExecutionResult r = "No output".
Proof.
  intros H1 H2 H3. unfold formatExecutionResult. rewrite H1, H2. cbn.
  assert (filter (fun k => negb (starts_with "_" k)) (map fst (r_locals r)) = []) as ->.
  { induction H3 as [|k l Hk _ IH]; cbn; [reflexivity|]. rewrite Hk. exact IH. }
  reflexivity.
Qed.

Lemma formatExecutionResult_no_output_witness :
  let r := mkReport EmptyString EmptyString [("_x", GVal JNull)] 0 [] None in
  (r_stdout r = EmptyString /\ r_stderr r = EmptyString
   /\ Forall (fun k => starts_with "_" k = true) (map fst (r_locals r)))
  /\ formatExecutionResult r = "No output".
Proof.
  intros r. split; [split; [reflexivity | split; [reflexivity | repeat constructor]]|].
  apply formatExecutionResult_no_output; [reflexivity | reflexivity | repeat constructor].
Defined.

(** X4: every local name that does not start with an underscore appears in
    the rendered report, which is then never "No output". *)
Theorem formatExecutionResult_lists_vars (r : ExecutionReport) (k : string) :
  In k (map fst (r_locals r)) -> starts_with "_" k = false ->
  (exists pre post, formatExecutionResult r = pre +++ k +++ post)
  /\ formatExecutionResult r <> "No output".
Proof.
  intros Hin Hk. unfold formatExecutionResult.
  remember (filter (fun k => negb (starts_with "_" k)) (map fst (r_locals r))) as vars eqn:Ev.
  assert (Hv : In k vars) by (subst vars; apply filter_In; rewrite Hk; auto).
  destruct vars as [|v vs]; [destruct Hv|].
  remember ("REPL variables: [" +++ str_concat ", " (v :: vs) +++ "]") as line eqn:El.
  remember ((if String.eqb (r_stdout r) EmptyString then [] else [r_stdout r])
            ++ (if String.eqb (r_stderr r) EmptyString then [] else [r_stderr r])
            ++ [line]) as parts eqn:Ep.
  assert (Hl : In line parts)
    by (subst parts; apply in_or_app; right; apply in_or_app; right; left; reflexivity).
  destruct parts as [|p ps]; [destruct Hl|].
  destruct (str_concat_in (nl +++ nl) line (p :: ps) Hl) as [pre [post E]].
  rewrite E. split.
  - destruct (str_concat_in ", " k (v :: vs) Hv) as [pre2 [post2 E2]].
    exists (pre +++ "REPL variables: [" +++ pre2), (post2 +++ "]" +++ post).
    rewrite El, E2, !append_assoc. reflexivity.
  - intros Heq. apply (f_equal String.length) in Heq. rewrite El, !length_append in Heq.
    cbn in Heq. lia.
Qed.

Lemma formatExecutionResult_lists_vars_witness :
  let r := mkReport EmptyString EmptyString [("x", GVal (JNum 2))] 0 [] None in
  (In "x" (map fst (r_locals r)) /\ starts_with "_" "x" = false)
  /\ (exists pre post, formatExecutionResult r = pre +++ "x" +++ post)
  /\ formatExecutionResult r <> "No output".
Proof.
  intros r. split; [split; [left; reflexivity | reflexivity]|].
  apply formatExecutionResult_lists_vars; [left; reflexivity | reflexivity].
Defined.

(** X5: [formatIteration] puts the assistant response first and then one
    user message per executed code block. *)
Theorem formatIteration_roles (response : string) (blocks : list (string * ExecutionReport)) :
  map msg_role (formatIteration response blocks) = Assistant :: repeat User (length blocks).
Proof.
  unfold formatIteration. cbn [map]. f_equal.
  induction blocks as [|[c r] bs IH]; cbn [map length repeat]; [reflexivity|].
  f_equal. exact IH.
Qed.

Lemma str_take_all (n : nat) (s : string) : (String.length s <= n)%nat -> str_take n s = s.
Proof.
  revert n; induction s as [|c s IH]; intros [|n] H; cbn in *; try reflexivity; try lia.
  f_equal. apply IH. lia.
Qed.

Lemma str_drop_length (n : nat) (s : string) :
  String.length (str_drop n s) = (String.length s - n)%nat.
Proof. revert n; induction s as [|c s IH]; intros [|n]; cbn; auto. Qed.

(** X6: for every executed block, the history gets a user message with the
    code and the first 20000 characters of the rendered report; a longer
    report is cut there and followed by the number of characters dropped. *)
Theorem formatIteration_keeps_prefix (response code : string) (result : ExecutionReport)
    (blocks : list (string * ExecutionReport)) :
  In (code, result) blocks ->
  let R := formatExecutionResult result in
  In (mkMsg User (code_header code +++ str_take 20000 R
                  +++ (if (String.length R <=? 20000)%nat then EmptyString
                       else "... + [" +++ show_nat (String.length (str_drop 20000 R))
                              +++ " chars truncated]")))
     (formatIteration response blocks).
Proof.
  intros Hin R. right. apply in_map_iff. exists (code, result). split; [|exact Hin].
  fold R. unfold code_header. rewrite str_drop_length.
  destruct (20000 <? String.length R)%nat eqn:E1; destruct (String.length R <=? 20000)%nat eqn:E2.
  - apply Nat.ltb_lt in E1. apply Nat.leb_le in E2. lia.
  - rewrite !append_assoc. reflexivity.
  - rewrite str_take_all by (apply Nat.leb_le; exact E2).
    rewrite !append_assoc, append_empty_r. reflexivity.
  - apply Nat.ltb_ge in E1. apply Nat.leb_gt in E2. lia.
Qed.

Lemma formatIteration_keeps_prefix_witness :
  let blocks := [("x = 2", mkReport "out" EmptyString [] 0 [] None)] in
  In ("x = 2", mkReport "out" EmptyString [] 0 [] None) blocks
  /\ In (mkMsg User (code_header "x = 2" +++ str_take 20000 "out" +++ EmptyString))
        (formatIteration "r" blocks).
Proof.
  intros blocks. split; [left; reflexivity|].
  exact (formatIteration_keeps_prefix "r" "x = 2" (mkReport "out" EmptyString [] 0 [] None)
           blocks (or_introl eq_refl)).
Defined.

(* ------------------------------------------------------------------------- *)
(** ** Prompts *)

(** X7: when there are more than 100 chunk lengths, only the first 100 and
    their count reach the system messages: two lists that agree on those
    give the same messages. *)
Theorem buildSystemPrompt_hides_tail (sp : string) (l1 l2 : list nat) (n : nat)
    (ty : string) (sch : option string) :
  length l1 = length l2 -> (100 < length l1)%nat -> firstn 100 l1 = firstn 100 l2 ->
  buildSystemPrompt sp l1 n ty sch = buildSystemPrompt sp l2 n ty sch.
Proof.
  intros H1 H2 H3. unfold buildSystemPrompt. rewrite <- H1, H3.
  destruct (100 <? length l1)%nat eqn:E; [reflexivity|].
  apply Nat.ltb_ge in E. lia.
Qed.

Lemma buildSystemPrompt_hides_tail_witness :
  (length (seq 0 101) = length (seq 0 100 ++ [7%nat]) /\ (100 < length (seq 0 101))%nat
   /\ firstn 100 (seq 0 101) = firstn 100 (seq 0 100 ++ [7%nat]))
  /\ buildSystemPrompt "sys" (seq 0 101) 5 "string" None
     = buildSystemPrompt "sys" (seq 0 100 ++ [7%nat]) 5 "string" None.
Proof.
  split; [split; [reflexivity | split; [cbn; lia | reflexivity]]|].
  apply buildSystemPrompt_hides_tail; [reflexivity | cbn; lia | reflexivity].
Defined.

Lemma get_substitution_plain (mt b a p : string) :
  has_dollar p = false -> get_substitution mt b a p = p.
Proof.
  induction p as [|c p IH]; cbn; [reflexivity|]. intros H.
  apply orb_false_iff in H as [Hc Hp]. rewrite Hc. f_equal. apply IH, Hp.
Qed.

Lemma buildUserPrompt_shape (i : nat) :
  exists P, forall r, msg_content (buildUserPrompt r i)
                      = P +++ str_replace "{rootPrompt}" r USER_PROMPT_WITH_ROOT.
Proof. destruct i; eexists; intros r; reflexivity. Qed.

(** X8: [buildUserPrompt] inserts a prompt without a dollar sign verbatim
    into the template, but [String.prototype.replace] expands the patterns
    [$&] (the placeholder itself) and [$$] (one dollar sign) in the prompt. *)
Theorem buildUserPrompt_replace_patterns (i : nat) :
  exists pre post, forall p, has_dollar p = false ->
    msg_content (buildUserPrompt p i) = pre +++ p +++ post
    /\ msg_content (buildUserPrompt ("$&" +++ p) i) = pre +++ "{rootPrompt}" +++ p +++ post
    /\ msg_content (buildUserPrompt ("$$" +++ p) i) = pre +++ "$" +++ p +++ post.
Proof.
  destruct (str_index "{rootPrompt}" USER_PROMPT_WITH_ROOT) as [k|] eqn:HU;
    [|vm_compute in HU; discriminate HU].
  destruct (buildUserPrompt_shape i) as [P HP].
  set (head := str_take k USER_PROMPT_WITH_ROOT).
  set (tail := str_drop (k + String.length "{rootPrompt}") USER_PROMPT_WITH_ROOT).
  assert (Hrep : forall r, str_replace "{rootPrompt}" r USER_PROMPT_WITH_ROOT
                           = head +++ get_substitution "{rootPrompt}" head tail r +++ tail)
    by (intros r; unfold str_replace; rewrite HU; reflexivity).
  exists (P +++ head), tail. intros p Hp. rewrite !HP, !Hrep.
  assert (E1 : get_substitution "{rootPrompt}" head tail ("$&" +++ p)
               = "{rootPrompt}" +++ get_substitution "{rootPrompt}" head tail p)
    by reflexivity.
  assert (E2 : get_substitution "{rootPrompt}" head tail ("$$" +++ p)
               = "$" +++ get_substitution "{rootPrompt}" head tail p)
    by reflexivity.
  rewrite E1, E2, get_substitution_plain by exact Hp.
  rewrite !append_assoc. auto.
Qed.

(* ------------------------------------------------------------------------- *)
(** ** Context conversion *)

Lemma map_content_length (l vs : list jsval) : map_content l = Ok vs -> length vs = length l.
Proof.
  revert vs; induction l as [|x l IH]; intros vs H; cbn in H.
  - injection H as <-. reflexivity.
  - destruct (content_or_empty x); [|discriminate H].
    destruct (map_content l) eqn:E; [|discriminate H].
    injection H as <-. cbn. f_equal. apply IH. reflexivity.
Qed.

(** X9: converting an array context never produces a string, and the data
    it returns is an array of the same length. *)
Theorem convertContextForRepl_array (l : list jsval) (data : jsval) (str : option string) :
  convertContextForRepl (JArr l) = Ok (data, str) ->
  str = None /\ exists l', data = JArr l' /\ length l' = length l.
Proof.
  intros H. cbn in H. destruct l as [|x l]; [injection H as <- <-; eauto|].
  destruct x; try (injection H as <- <-; eauto; fail).
  destruct (existsb _ _); [|injection H as <- <-; eauto].
  destruct (map_content _) eqn:E; [|discriminate H].
  injection H as <- <-. split; [reflexivity|].
  eexists; split; [reflexivity|]. apply map_content_length; exact E.
Qed.

Lemma convertContextForRepl_array_witness :
  let l := [JObj [("content", JStr "a")]; JObj [("role", JStr "user")]] in
  convertContextForRepl (JArr l) = Ok (JArr [JStr "a"; JStr EmptyString], None)
  /\ None = @None string
  /\ exists l', JArr [JStr "a"; JStr EmptyString] = JArr l' /\ length l' = length l.
Proof.
  intros l. split; [reflexivity|].
  apply (convertContextForRepl_array l). reflexivity.
Defined.

Lemma map_content_nullish (l : list jsval) :
  In JNull l \/ In JUndefined l ->
  exists e, map_content l = Exn e
            /\ String.prefix "TypeError: Cannot read properties of " e = true.
Proof.
  induction l as [|x l IH]; intros H; [destruct H as [[]|[]]|].
  cbn. destruct (content_or_empty x) as [v|e] eqn:Ex.
  - assert (H' : In JNull l \/ In JUndefined l).
    { destruct H as [[->|H]|[->|H]]; cbn in Ex; try discriminate Ex; tauto. }
    destruct (IH H') as [e [E Pe]]. rewrite E. eauto.
  - exists e. split; [reflexivity|].
    destruct x; cbn in Ex; try discriminate Ex; try (injection Ex as <-; reflexivity).
    destruct (SandboxImpl.assoc_get _ _) as [[]|]; discriminate Ex.
Qed.

(** X10: when the first element of an array context is an object with a
    [content] property, a later [null] or [undefined] element makes the
    conversion throw a TypeError. *)
Theorem convertContextForRepl_nullish_element (fs : list (string * jsval)) (rest : list jsval) :
  existsb (fun kv => String.eqb (fst kv) "content") fs = true ->
  In JNull rest \/ In JUndefined rest ->
  exists e, convertContextForRepl (JArr (JObj fs :: rest)) = Exn e
            /\ String.prefix "TypeError: Cannot read properties of " e = true.
Proof.
  intros Hc Hn. cbn [convertContextForRepl]. rewrite Hc.
  destruct (map_content_nullish (JObj fs :: rest)) as [e [E Pe]].
  { destruct Hn as [H|H]; [left|right]; right; exact H. }
  rewrite E. eauto.
Qed.

Lemma convertContextForRepl_nullish_element_witness :
  (existsb (fun kv => String.eqb (fst kv) "content") [("content", JStr "a")] = true
   /\ (In JNull [JNull] \/ In JUndefined [JNull]))
  /\ exists e, convertContextForRepl (JArr [JObj [("content", JStr "a")]; JNull]) = Exn e
               /\ String.prefix "TypeError: Cannot read properties of " e = true.
Proof.
  split; [split; [reflexivity | left; left; reflexivity]|].
  apply convertContextForRepl_nullish_element; [reflexivity | left; left; reflexivity].
Defined.

(* ------------------------------------------------------------------------- *)
(** ** Invariants of the sandbox state *)

Section InvLemmas.

Variable I : Machine -> Prop.

Lemma inv_ret {A} (a : A) : Inv I (ret a).
Proof. intros m H. exact H. Qed.

Lemma inv_throw {A} (e : string) : Inv I (@throw A e).
Proof. intros m H. exact H. Qed.

Lemma inv_gets {A} (f : Machine -> A) : Inv I (gets f).
Proof. intros m H. exact H. Qed.

Lemma inv_modify (f : Machine -> Machine) : (forall m, I m -> I (f m)) -> Inv I (modify f).
Proof. intros Hf m H. exact (Hf m H). Qed.

Lemma inv_bind {A B} (c : M A) (k : A -> M B) :
  Inv I c -> (forall a, Inv I (k a)) -> Inv I (bind c k).
Proof.
  intros Hc Hk m H. specialize (Hc m H). unfold bind.
  destruct (c m) as [[a|e] m1]; [exact (Hk a m1 Hc) | exact Hc].
Qed.

Lemma inv_try_catch {A} (c : M A) : Inv I c -> Inv I (try_catch c).
Proof. intros Hc m H. specialize (Hc m H). unfold try_catch. destruct (c m) as [[a|e] m1]; exact Hc. Qed.

End InvLemmas.

Lemma client_send_sb (who : caller) (msgs : list ChatMessage) (m : Machine) :
  m_sb (snd (client_send who msgs m)) = m_sb m.
Proof. unfold client_send. destruct (m_replies m) as [|[]]; reflexivity. Qed.

Section SandboxInv.

Variable J : Sandbox -> Prop.

Lemma inv_client_send (who : caller) (msgs : list ChatMessage) :
  Inv (fun m => J (m_sb m)) (client_send who msgs).
Proof. intros m H. rewrite client_send_sb. exact H. Qed.

Lemma inv_schedule (tk : task) : Inv (fun m => J (m_sb m)) (schedule tk).
Proof. apply inv_modify. auto. Qed.

Lemma inv_retire_vm (keep : bool) : Inv (fun m => J (m_sb m)) (retire_vm keep).
Proof. apply inv_modify. auto. Qed.

Lemma inv_upd (f : Sandbox -> Sandbox) :
  (forall s, J s -> J (f s)) -> Inv (fun m => J (m_sb m)) (upd f).
Proof. intros Hf m H. exact (Hf _ H). Qed.

Lemma inv_now : Inv (fun m => J (m_sb m)) now.
Proof. apply inv_gets. Qed.

Lemma inv_get_sb : Inv (fun m => J (m_sb m)) get_sb.
Proof. apply inv_gets. Qed.

Lemma inv_set_clock (t : Z) : Inv (fun m => J (m_sb m)) (set_clock t).
Proof. apply inv_modify. auto. Qed.

Lemma inv_advance (ms : Z) : Inv (fun m => J (m_sb m)) (advance ms).
Proof. apply inv_bind; [apply inv_now | intros; apply inv_set_clock]. Qed.

Lemma inv_log_report (r : ExecutionReport) : Inv (fun m => J (m_sb m)) (log_report r).
Proof. apply inv_modify. auto. Qed.

End SandboxInv.

Create HintDb inv.
#[export] Hint Resolve inv_ret inv_throw inv_gets inv_try_catch inv_client_send inv_now
  inv_get_sb inv_set_clock inv_advance inv_log_report inv_schedule inv_retire_vm : inv.

Ltac inv_solve :=
  repeat (cbv beta zeta;
          match goal with
          | |- Inv _ (bind _ _) => apply inv_bind; [|intros ?]
          | |- Inv _ (match ?x with _ => _ end) => destruct x
          | |- Inv _ (if ?b then _ else _) => destruct b
          | |- _ => solve [eauto with inv]
          end).

Section RunBodyInv.

Variable J : Sandbox -> Prop.
Hypothesis J_stdout : forall s o, J s -> J (set_stdout o s).
Hypothesis J_stderr : forall s e, J s -> J (set_stderr e s).
Hypothesis J_final : forall s f, J s -> J (set_finalAnswer f s).
Hypothesis J_global : forall s x v, J s ->
  J (match sb_vmContext s with
     | Some gl => set_vm (Some (assoc_set x (GVal v) gl)) s
     | None => s
     end).

#[local] Hint Resolve J_stdout J_stderr J_final J_global : inv.
#[local] Hint Extern 1 (Inv _ (upd _)) => (apply inv_upd; intros ? ?; eauto with inv) : inv.

Lemma inv_llmQuery (p : string) (model : option string) :
  Inv (fun m => J (m_sb m)) (llmQuery p model).
Proof. unfold llmQuery. inv_solve. Qed.
#[local] Hint Resolve inv_llmQuery : inv.

Lemma inv_run_body (deadline : option Z) (ss : list stmt) :
  Inv (fun m => J (m_sb m)) (run_body deadline ss).
Proof.
  induction ss as [|st ss IH]; cbn [run_body]; [auto with inv|].
  destruct st; unfold FINAL, FINAL_VAR, push_stdout, push_stderr, set_global; inv_solve.
Qed.

End RunBodyInv.

(* ------------------------------------------------------------------------- *)
(** ** The [FINAL_VAR] binding *)

Lemma str_rev_app (a b : string) : str_rev (a +++ b) = str_rev b +++ str_rev a.
Proof.
  induction a as [|c a IH]; cbn.
  - now rewrite append_empty_r.
  - now rewrite IH, append_assoc.
Qed.

Lemma str_rev_involutive (s : string) : str_rev (str_rev s) = s.
Proof. induction s as [|c s IH]; cbn; [reflexivity|]. now rewrite str_rev_app, IH. Qed.

Lemma all_space_app (a b : string) : all_space (a +++ b) = all_space a && all_space b.
Proof. induction a as [|c a IH]; cbn; [reflexivity|]. now rewrite IH, andb_assoc. Qed.

Lemma all_space_rev (s : string) : all_space (str_rev s) = all_space s.
Proof.
  induction s as [|c s IH]; cbn; [reflexivity|].
  rewrite all_space_app, IH. cbn. now rewrite andb_true_r, andb_comm.
Qed.

Lemma trim_start_spaces (w s : string) : all_space w = true -> trim_start (w +++ s) = trim_start s.
Proof.
  induction w as [|c w IH]; cbn; [reflexivity|]. intros H.
  apply andb_true_iff in H as [Hc Hw]. rewrite Hc. apply IH, Hw.
Qed.

Lemma quote_not_space (q : ascii) : is_quote q = true -> is_space q = false.
Proof.
  unfold is_quote. intros H. apply orb_true_iff in H as [H|H];
    apply Ascii.eqb_eq in H; subst q; reflexivity.
Qed.

Lemma last_char_snoc (s : string) (c : ascii) : last_char (s +++ String c EmptyString) = Some c.
Proof.
  induction s as [|d s IH]; [reflexivity|]. cbn.
  destruct (s +++ String c EmptyString) eqn:E; [destruct s; discriminate E | exact IH].
Qed.

Lemma drop_last_snoc (s : string) (c : ascii) : drop_last (s +++ String c EmptyString) = s.
Proof.
  induction s as [|d s IH]; [reflexivity|]. cbn.
  destruct (s +++ String c EmptyString) eqn:E; [destruct s; discriminate E|].
  now rewrite IH.
Qed.

(** How [FINAL_VAR] reads a quoted name surrounded by white space. *)
Lemma final_var_name (ws1 ws2 name : string) (q1 q2 : ascii) :
  all_space ws1 = true -> all_space ws2 = true -> is_quote q1 = true -> is_quote q2 = true ->
  strip_quotes (trim (ws1 +++ String q1 (name +++ String q2 ws2))) = name.
Proof.
  intros H1 H2 Q1 Q2. unfold trim.
  rewrite trim_start_spaces by exact H1. cbn [trim_start]. rewrite (quote_not_space q1 Q1).
  change (String q1 (name +++ String q2 ws2))
    with (String q1 EmptyString +++ name +++ String q2 EmptyString +++ ws2).
  rewrite !str_rev_app, !append_assoc.
  rewrite trim_start_spaces by (rewrite all_space_rev; exact H2).
  cbn [str_rev append trim_start]. rewrite (quote_not_space q2 Q2).
  change (String q2 (str_rev name +++ String q1 EmptyString))
    with (String q2 EmptyString +++ str_rev name +++ String q1 EmptyString).
  rewrite !str_rev_app, str_rev_involutive. cbn [str_rev append strip_quotes].
  rewrite Q1. unfold strip_last_quote. rewrite last_char_snoc, Q2, drop_last_snoc.
  reflexivity.
Qed.

(** X11: [FINAL_VAR] strips the white space and the quotes around the name;
    for a name bound in [locals] it stores [String] of the value as the final
    answer and returns it. *)
Theorem FINAL_VAR_found (ws1 ws2 name : string) (q1 q2 : ascii) (g : gval) (m : Machine) :
  all_space ws1 = true -> all_space ws2 = true -> is_quote q1 = true -> is_quote q2 = true ->
  assoc_get name (sb_locals (m_sb m)) = Some g ->
  FINAL_VAR (ws1 +++ String q1 (name +++ String q2 ws2)) m
  = (Ok (gval_String g), with_sb (set_finalAnswer (Some (gval_String g)) (m_sb m)) m).
Proof.
  intros H1 H2 Q1 Q2 Hg. cbv [FINAL_VAR upd get_sb put_sb gets modify bind ret].
  rewrite final_var_name by assumption. rewrite Hg. reflexivity.
Qed.

Lemma FINAL_VAR_found_witness :
  let m := mkMachine 0 [] [] (mkSandbox None JNull None [] [] [("x", GVal (JNum 2))] [] None)
             [] [] [] in
  (all_space " " = true /\ all_space EmptyString = true /\ is_quote "'"%char = true
   /\ is_quote "'"%char = true /\ assoc_get "x" (sb_locals (m_sb m)) = Some (GVal (JNum 2)))
  /\ FINAL_VAR (" " +++ String "'"%char ("x" +++ String "'"%char EmptyString)) m
     = (Ok (gval_String (GVal (JNum 2))),
        with_sb (set_finalAnswer (Some (gval_String (GVal (JNum 2)))) (m_sb m)) m).
Proof.
  intros m. split; [repeat split|].
  apply FINAL_VAR_found; reflexivity.
Defined.

(** X12: a name that is neither bound in [locals] nor inherited from
    [Object.prototype] makes [FINAL_VAR] store and return the message
    "Error: Variable '<name>' not found". *)
Theorem FINAL_VAR_missing (ws1 ws2 name : string) (q1 q2 : ascii) (m : Machine) :
  all_space ws1 = true -> all_space ws2 = true -> is_quote q1 = true -> is_quote q2 = true ->
  assoc_get name (sb_locals (m_sb m)) = None -> object_prototype_member name = None ->
  FINAL_VAR (ws1 +++ String q1 (name +++ String q2 ws2)) m
  = (Ok ("Error: Variable '" +++ name +++ "' not found"),
     with_sb (set_finalAnswer (Some ("Error: Variable '" +++ name +++ "' not found"))
                (m_sb m)) m).
Proof.
  intros H1 H2 Q1 Q2 Hg Hp. cbv [FINAL_VAR upd get_sb put_sb gets modify bind ret].
  rewrite final_var_name by assumption. rewrite Hg, Hp. reflexivity.
Qed.

Lemma FINAL_VAR_missing_witness :
  let m := mkMachine 0 [] [] (mkSandbox None JNull None [] [] [("x", GVal (JNum 2))] [] None)
             [] [] [] in
  (all_space EmptyString = true /\ all_space EmptyString = true /\ is_quote (ascii_of_nat 34) = true
   /\ is_quote (ascii_of_nat 34) = true /\ assoc_get "y" (sb_locals (m_sb m)) = None
   /\ object_prototype_member "y" = None)
  /\ FINAL_VAR (EmptyString +++ String (ascii_of_nat 34) ("y" +++ String (ascii_of_nat 34) EmptyString)) m
     = (Ok ("Error: Variable '" +++ "y" +++ "' not found"),
        with_sb (set_finalAnswer (Some ("Error: Variable '" +++ "y" +++ "' not found"))
                   (m_sb m)) m).
Proof.
  intros m. split; [repeat split|].
  apply FINAL_VAR_missing; reflexivity.
Defined.

(** X13: a name inherited from [Object.prototype], such as [toString] or
    [constructor], is never reported as missing: with no local of that name
    [FINAL_VAR] returns [String] of the inherited member. *)
Theorem FINAL_VAR_prototype_member (ws1 ws2 name : string) (q1 q2 : ascii) (g : gval)
    (m : Machine) :
  all_space ws1 = true -> all_space ws2 = true -> is_quote q1 = true -> is_quote q2 = true ->
  assoc_get name (sb_locals (m_sb m)) = None -> object_prototype_member name = Some g ->
  fst (FINAL_VAR (ws1 +++ String q1 (name +++ String q2 ws2)) m) = Ok (gval_String g)
  /\ gval_String g <> "Error: Variable '" +++ name +++ "' not found".
Proof.
  intros H1 H2 Q1 Q2 Hg Hp. split.
  - cbv [FINAL_VAR upd get_sb put_sb gets modify bind ret].
    rewrite final_var_name by assumption. rewrite Hg, Hp. reflexivity.
  - unfold object_prototype_member in Hp.
    destruct (String.eqb name "__proto__"); [injection Hp as <-; discriminate|].
    destruct (String.eqb name "constructor"); [injection Hp as <-; discriminate|].
    destruct (existsb _ _); [injection Hp as <-; discriminate | discriminate Hp].
Qed.

Lemma FINAL_VAR_prototype_member_witness :
  let m := mkMachine 0 [] [] (mkSandbox None JNull None [] [] [] [] None) [] [] [] in
  (all_space EmptyString = true /\ all_space EmptyString = true /\ is_quote "'"%char = true
   /\ is_quote "'"%char = true /\ assoc_get "toString" (sb_locals (m_sb m)) = None
   /\ object_prototype_member "toString" = Some (GFun "toString"))
  /\ fst (FINAL_VAR (EmptyString +++ String "'"%char ("toString" +++ String "'"%char EmptyString)) m)
     = Ok (gval_String (GFun "toString"))
  /\ gval_String (GFun "toString") <> "Error: Variable '" +++ "toString" +++ "' not found".
Proof.
  intros m. split; [repeat split|].
  apply FINAL_VAR_prototype_member; reflexivity.
Defined.

(* ------------------------------------------------------------------------- *)
(** ** [execute] on programs that do not run to their end *)

(** X14: when V8 rejects the code, [execute] returns a report whose error
    and stderr are "SyntaxError: <message>", with empty stdout, the
    unchanged locals, no sub-call records and a duration of 0; the state
    keeps the locals, clears the final answer and sends no request. *)
Theorem execute_syntax_error (run_js : string -> program) (code msg : string) (t : option Z)
    (m : Machine) :
  run_js code = SyntaxErr msg ->
  exists m', execute run_js code t m
             = (Ok (mkReport EmptyString ("SyntaxError: " +++ msg) (sb_locals (m_sb m)) 0 []
                      (Some ("SyntaxError: " +++ msg))), m')
             /\ sb_locals (m_sb m') = sb_locals (m_sb m)
             /\ sb_finalAnswer (m_sb m') = None
             /\ m_requests m' = m_requests m.
Proof.
  intros H. cbv [execute bind now gets createContext upd get_sb put_sb modify].
  rewrite H. cbv [report_error bind now gets get_sb log_report modify ret].
  cbn. rewrite Z.sub_diag. eexists. split; [reflexivity|]. auto.
Qed.

Lemma execute_syntax_error_witness :
  demo_js "let" = SyntaxErr "Unexpected token"
  /\ exists m', execute demo_js "let" None (initial_machine [])
             = (Ok (mkReport EmptyString ("SyntaxError: " +++ "Unexpected token")
                      (sb_locals (m_sb (initial_machine []))) 0 []
                      (Some ("SyntaxError: " +++ "Unexpected token"))), m')
             /\ sb_locals (m_sb m') = sb_locals (m_sb (initial_machine []))
             /\ sb_finalAnswer (m_sb m') = None
             /\ m_requests m' = m_requests (initial_machine []).
Proof.
  split; [reflexivity|].
  apply execute_syntax_error. reflexivity.
Defined.

Lemma run_body_prints (dl : option Z) (outs : list (list jsval)) (ss : list stmt)
    (m : Machine) :
  run_body dl (map SPrint outs ++ ss) m
  = run_body dl ss
      (with_sb (set_stdout (sb_stdout (m_sb m)
                  ++ map (fun args => str_concat " " (map js_String args)) outs) (m_sb m)) m).
Proof.
  revert m; induction outs as [|a outs IH]; intros m; cbn [map app run_body].
  - rewrite app_nil_r. destruct m as [? ? ? [] ? ? ?]; reflexivity.
  - cbv [push_stdout upd get_sb put_sb gets modify bind]. rewrite IH.
    destruct m as [? ? ? [] ? ? ?]. cbn. rewrite <- app_assoc. reflexivity.
Qed.

(** X15: for a program that prints some lines and then throws, [execute]
    reports no error: stdout holds the printed lines, stderr holds
    "<name>: <message>" and then, unless the error's [stack] is empty, the
    first three lines of the [stack] V8 builds (its header line, then the
    first frames); nothing after the throw runs. *)
Theorem execute_prints_then_throw (run_js : string -> program) (code : string)
    (outs : list (list jsval)) (n msg : string) (frames : list string) (rest : list stmt)
    (t : option Z) (m : Machine) :
  valid_timeout (timeout_of t) = true ->
  run_js code = Program (map SPrint outs ++ SThrow n msg frames :: rest) ->
  exists r m', execute run_js code t m = (Ok r, m')
    /\ r_error r = None
    /\ r_stdout r = str_concat nl (map (fun args => str_concat " " (map js_String args)) outs)
    /\ r_stderr r = n +++ ": " +++ msg
                    +++ (if String.eqb (error_stack n msg frames) EmptyString then EmptyString
                         else nl +++ stack_head n msg frames)
    /\ sb_finalAnswer (m_sb m') = None.
Proof.
  intros Hv H. unfold timeout_of in Hv.
  cbv [execute bind now gets createContext retire_vm upd get_sb put_sb modify]. rewrite H, Hv.
  cbv [negb]. rewrite run_body_prints. cbn [run_body].
  cbv [ret wrapper_tail report_user_error capture_into push_stderr capture_locals syncLocals
       report_ok upd get_sb put_sb gets modify bind log_report now].
  destruct (String.eqb (error_stack n msg frames) EmptyString);
    (eexists _, _; split; [reflexivity|]); repeat split; cbn;
    rewrite ?append_empty_r, ?append_assoc; reflexivity.
Qed.

Lemma execute_prints_then_throw_witness :
  valid_timeout (timeout_of None) = true
  /\ (fun code : string => Program (map SPrint [[JStr "hi"]]
                                    ++ SThrow "Error" "boom" ["    at rlm-sandbox.js:4:19";
                                                             "    at rlm-sandbox.js:25:11"]
                                    :: [SFinal JNull]))
    "c" = Program (map SPrint [[JStr "hi"]]
                   ++ SThrow "Error" "boom" ["    at rlm-sandbox.js:4:19";
                                            "    at rlm-sandbox.js:25:11"] :: [SFinal JNull])
  /\ exists r m',
      execute (fun _ => Program (map SPrint [[JStr "hi"]]
                                 ++ SThrow "Error" "boom" ["    at rlm-sandbox.js:4:19";
                                                          "    at rlm-sandbox.js:25:11"]
                                 :: [SFinal JNull]))
        "c" None (initial_machine []) = (Ok r, m')
    /\ r_error r = None
    /\ r_stdout r = str_concat nl (map (fun args => str_concat " " (map js_String args)) [[JStr "hi"]])
    /\ r_stderr r = "Error" +++ ": " +++ "boom"
                    +++ (if String.eqb (error_stack "Error" "boom" ["    at rlm-sandbox.js:4:19";
                                                                   "    at rlm-sandbox.js:25:11"])
                              EmptyString then EmptyString
                         else nl +++ stack_head "Error" "boom" ["    at rlm-sandbox.js:4:19";
                                                               "    at rlm-sandbox.js:25:11"])
    /\ sb_finalAnswer (m_sb m') = None.
Proof.
  split; [reflexivity|]. split; [reflexivity|].
  apply (execute_prints_then_throw _ "c" [[JStr "hi"]] "Error" "boom"
           ["    at rlm-sandbox.js:4:19"; "    at rlm-sandbox.js:25:11"] [SFinal JNull]);
    reflexivity.
Defined.

(* ------------------------------------------------------------------------- *)
(** ** What [execute] keeps in [locals] *)

Lemma assoc_get_set {V} (k x : string) (v : V) (l : list (string * V)) :
  assoc_get k (assoc_set x v l) = if String.eqb k x then Some v else assoc_get k l.
Proof.
  induction l as [|[k' v'] l IH]; cbn; [reflexivity|].
  destruct (String.eqb x k') eqn:Exk; cbn.
  - apply String.eqb_eq in Exk. subst k'. destruct (String.eqb k x); reflexivity.
  - rewrite IH. destruct (String.eqb k x) eqn:Ekx; [|reflexivity].
    apply String.eqb_eq in Ekx. subst k. rewrite Exk. reflexivity.
Qed.

Lemma in_assoc_set {V} (a x : string) (b v : V) (l : list (string * V)) :
  In (a, b) (assoc_set x v l) -> (a, b) = (x, v) \/ In (a, b) l.
Proof.
  induction l as [|[k' v'] l IH]; cbn; [intros [H|[]]; auto|].
  destruct (String.eqb x k'); cbn; [intros [H|H]; auto|].
  intros [H|H]; [auto|]. destruct (IH H); auto.
Qed.

Lemma keys_assoc_set {V} (k x : string) (v : V) (l : list (string * V)) :
  In k (map fst l) -> In k (map fst (assoc_set x v l)).
Proof.
  induction l as [|[k' v'] l IH]; cbn; [tauto|].
  destruct (String.eqb x k') eqn:E; cbn; [|tauto].
  apply String.eqb_eq in E. subst k'. tauto.
Qed.

Lemma in_assoc_set_self {V} (x : string) (v : V) (l : list (string * V)) :
  In (x, v) (assoc_set x v l).
Proof.
  induction l as [|[k' v'] l IH]; cbn; [auto|].
  destruct (String.eqb x k'); cbn; auto.
Qed.

Lemma assoc_set_nodup {V} (x : string) (v w : V) (l : list (string * V)) :
  NoDup (map fst l) -> In (x, w) (assoc_set x v l) -> w = v.
Proof.
  induction l as [|[k' v'] l IH]; cbn; intros Hnd Hin.
  - destruct Hin as [H|[]]. congruence.
  - inversion Hnd as [|? ? Hk' Hnd']. subst.
    destruct (String.eqb x k') eqn:E; cbn in Hin.
    + apply String.eqb_eq in E. subst k'.
      destruct Hin as [H|H]; [congruence|].
      exfalso. apply Hk'. apply in_map_iff. exists (x, w). auto.
    + destruct Hin as [H|H]; [|auto].
      injection H as -> _. rewrite String.eqb_refl in E. discriminate E.
Qed.

(** The two loops that copy globals into [locals]. *)
Lemma fold_assoc_get (P : string -> gval -> bool) (Q : gval -> Prop) (x : string)
    (g acc : list (string * gval)) :
  (forall w, In (x, w) g -> Q w) ->
  (exists w, assoc_get x acc = Some w /\ Q w) \/ (exists w, In (x, w) g /\ P x w = false) ->
  exists w, assoc_get x (fold_left (fun acc '(k, v) => if P k v then acc else assoc_set k v acc)
                           g acc) = Some w /\ Q w.
Proof.
  revert acc; induction g as [|[k v] g IH]; intros acc HQ Hpre; cbn [fold_left].
  - destruct Hpre as [H|[w [[] _]]]. exact H.
  - apply IH; [intros w Hw; apply HQ; right; exact Hw|].
    destruct (String.eqb x k) eqn:Exk.
    + apply String.eqb_eq in Exk. subst k.
      destruct (P x v) eqn:Ep.
      * destruct Hpre as [H|[w [[Hw|Hw] Hpw]]]; [left; exact H| |right; eauto].
        injection Hw as <-. congruence.
      * left. exists v. rewrite assoc_get_set, String.eqb_refl.
        split; [reflexivity|]. apply HQ. left. reflexivity.
    + destruct Hpre as [[w [Hw Qw]]|[w [[Hw|Hw] Hpw]]].
      * left. exists w. destruct (P k v); [|rewrite assoc_get_set, Exk]; auto.
      * injection Hw as -> _. rewrite String.eqb_refl in Exk. discriminate Exk.
      * right. eauto.
Qed.

Lemma fold_keeps_key (P : string -> gval -> bool) (x : string) (g acc : list (string * gval)) :
  assoc_get x acc <> None ->
  assoc_get x (fold_left (fun acc '(k, v) => if P k v then acc else assoc_set k v acc) g acc)
  <> None.
Proof.
  revert acc; induction g as [|[k v] g IH]; intros acc H; cbn [fold_left]; [exact H|].
  apply IH. destruct (P k v); [exact H|]. rewrite assoc_get_set.
  destruct (String.eqb x k); [discriminate | exact H].
Qed.

Lemma injected_bindings_nodup (c : jsval) : NoDup (map fst (injected_bindings c)).
Proof. cbn. repeat constructor; cbn; intuition discriminate. Qed.

(** X16: a variable assigned before a throw is still captured: [execute]
    reports no error and the report's locals bind the variable to the
    assigned value, unless the capture skips its name. *)
Theorem execute_throw_keeps_assigned (run_js : string -> program) (code x n msg : string)
    (frames : list string) (v : jsval) (rest : list stmt) (t : option Z) (m : Machine) :
  valid_timeout (timeout_of t) = true ->
  run_js code = Program (SAssign x v :: SThrow n msg frames :: rest) ->
  skipped iife_skipKeys x = false ->
  exists r m', execute run_js code t m = (Ok r, m') /\ r_error r = None
               /\ assoc_get x (r_locals r) = Some (GVal v)
               /\ assoc_get x (sb_locals (m_sb m')) = Some (GVal v).
Proof.
  intros Hv H Hx. unfold timeout_of in Hv.
  cbv [execute bind now gets createContext retire_vm upd get_sb put_sb modify]. rewrite H, Hv.
  cbv [negb]. cbn [run_body].
  cbv [ret set_global wrapper_tail report_user_error capture_into push_stderr capture_locals
       syncLocals report_ok upd get_sb put_sb gets modify bind log_report now].
  cbn [m_sb with_sb with_tasks set_vm set_stderr set_locals set_finalAnswer set_llmCalls
       set_stdout sb_vmContext sb_locals sb_stderr r_locals r_error].
  set (g := assoc_set x (GVal v) (injected_bindings (sb_context (m_sb m)))).
  assert (Hg : forall w, In (x, w) g -> w = GVal v)
    by (intros w Hw; exact (assoc_set_nodup _ _ _ _ (injected_bindings_nodup _) Hw)).
  destruct (fold_assoc_get (fun k v => skipped iife_skipKeys k || is_function v)
              (fun w => w = GVal v) x g (sb_locals (m_sb m)) Hg) as [w1 [E1 ->]].
  { right. exists (GVal v). split; [apply in_assoc_set_self | rewrite Hx; reflexivity]. }
  destruct (fold_assoc_get (fun k v => skipped sync_skipKeys k) (fun w => w = GVal v) x g _ Hg
              (or_introl (ex_intro _ (GVal v) (conj E1 eq_refl)))) as [w2 [E2 ->]].
  destruct (String.eqb (error_stack n msg frames) EmptyString);
    cbn [m_sb with_sb set_stderr set_locals sb_vmContext sb_locals];
    (eexists _, _; split; [reflexivity|]); cbn; auto.
Qed.

Lemma execute_throw_keeps_assigned_witness :
  valid_timeout (timeout_of None) = true
  /\ (fun _ : string => Program [SAssign "x" (JNum 1);
                                 SThrow "Error" "boom" ["    at rlm-sandbox.js:4:7"]]) "c"
    = Program (SAssign "x" (JNum 1) :: SThrow "Error" "boom" ["    at rlm-sandbox.js:4:7"] :: [])
  /\ skipped iife_skipKeys "x" = false
  /\ exists r m', execute (fun _ => Program [SAssign "x" (JNum 1);
                                             SThrow "Error" "boom" ["    at rlm-sandbox.js:4:7"]])
                    "c" None (initial_machine []) = (Ok r, m') /\ r_error r = None
               /\ assoc_get "x" (r_locals r) = Some (GVal (JNum 1))
               /\ assoc_get "x" (sb_locals (m_sb m')) = Some (GVal (JNum 1)).
Proof.
  split; [reflexivity|]. split; [reflexivity|]. split; [reflexivity|].
  apply (execute_throw_keeps_assigned _ "c" "x" "Error" "boom" ["    at rlm-sandbox.js:4:7"]
           (JNum 1) []); reflexivity.
Defined.

(* ------------------------------------------------------------------------- *)
(** ** Invariants of [locals] across [execute] *)

Lemma builtin_gvals_global k s x v : builtin_gvals k s ->
  builtin_gvals k (match sb_vmContext s with
     | Some gl => set_vm (Some (assoc_set x (GVal v) gl)) s
     | None => s
     end).
Proof.
  intros (g & Eg & Hin & Hg). rewrite Eg. exists (assoc_set x (GVal v) g). cbn.
  split; [reflexivity|]. split; [apply keys_assoc_set, Hin|].
  intros w Hw. destruct (in_assoc_set _ _ _ _ _ Hw) as [E|E]; [injection E as -> ->; eauto|auto].
Qed.

Lemma capture_sync_builtin k st m r m' :
  builtin_gvals k (m_sb m) -> skipped iife_skipKeys k = false -> skipped sync_skipKeys k = true ->
  (capture_locals ;; syncLocals ;; report_ok st) m = (Ok r, m') ->
  exists v, assoc_get k (r_locals r) = Some (GVal v).
Proof.
  intros (g & Eg & Hin & Hg) H1 H2.
  cbv [capture_locals syncLocals report_ok upd bind get_sb put_sb gets modify now log_report ret].
  cbn [m_sb with_sb set_locals sb_vmContext sb_locals]. rewrite Eg.
  intros E. injection E as <- _. cbn [r_locals].
  apply in_map_iff in Hin as [[k' w0] [Ek Hw0]]. cbn in Ek. subst k'.
  destruct (fold_assoc_get (fun k v => skipped iife_skipKeys k || is_function v)
              (fun w => exists v, w = GVal v) k g (sb_locals (m_sb m)) Hg) as [w1 [E1 Q1]].
  { right. exists w0. split; [exact Hw0|]. destruct (Hg w0 Hw0) as [v ->]. rewrite H1. reflexivity. }
  destruct (fold_assoc_get (fun k v => skipped sync_skipKeys k) (fun w => exists v, w = GVal v) k g _ Hg
              (or_introl (ex_intro _ w1 (conj E1 Q1)))) as [w2 [E2 [v ->]]].
  cbn. eauto.
Qed.

Lemma run_body_no_await (dl : option Z) (ss : list stmt) (m : Machine) :
  forallb (fun st => negb (is_await st)) ss = true ->
  match fst (run_body dl ss m) with Ok (BodyAwait _ _ _) => False | _ => True end.
Proof.
  revert m; induction ss as [|st ss IH]; intros m H; [exact I|].
  cbn [forallb] in H. apply andb_prop in H as [Hst H].
  destruct st; try discriminate Hst; cbn [run_body];
    cbv [bind push_stdout push_stderr upd get_sb put_sb gets modify set_global FINAL FINAL_VAR
         now advance set_clock ret];
    try (apply IH; exact H).
  - destruct dl as [dl|]; [destruct (Z.ltb dl _)|]; [exact I | apply IH; exact H ..].
  - exact I.
Qed.

(** X17: after an [execute] of a program without [await] whose report has
    no error, [locals] binds [Infinity], [NaN] and [undefined] to plain
    values: the capture of the wrapped code does not skip them, and
    [syncLocals] keeps what it wrote. *)
Theorem execute_captures_builtin_values (run_js : string -> program) (code : string)
    (ss : list stmt) (t : option Z) (m m' : Machine) (r : ExecutionReport) (k : string) :
  run_js code = Program ss -> forallb (fun st => negb (is_await st)) ss = true ->
  execute run_js code t m = (Ok r, m') -> r_error r = None ->
  In k ["Infinity"; "NaN"; "undefined"] ->
  exists v, assoc_get k (r_locals r) = Some (GVal v).
Proof.
  intros Hc Hna Hex Herr Hk.
  assert (H1 : skipped iife_skipKeys k = false) by (destruct Hk as [<-|[<-|[<-|[]]]]; reflexivity).
  assert (H2 : skipped sync_skipKeys k = true) by (destruct Hk as [<-|[<-|[<-|[]]]]; reflexivity).
  cbv [execute bind now gets createContext retire_vm upd get_sb put_sb modify] in Hex.
  rewrite Hc in Hex.
  match type of Hex with context [if negb ?b then _ else _] => destruct b end; cbn [negb] in Hex.
  2: { cbv [report_error bind now gets get_sb log_report modify ret] in Hex.
       injection Hex as <- _. discriminate Herr. }
  match type of Hex with context [run_body ?d ss ?m1] =>
    pose proof (inv_run_body (builtin_gvals k)
                  (fun _ _ H => H) (fun _ _ H => H) (fun _ _ H => H)
                  (builtin_gvals_global k) d ss m1) as HJ;
    pose proof (run_body_no_await d ss m1 Hna) as HA;
    destruct (run_body d ss m1) as [[e|err] m2] eqn:Erun end.
  2: discriminate Hex.
  cbn [snd fst] in HJ, HA.
  assert (HJ2 : builtin_gvals k (m_sb m2)).
  { apply HJ. cbn. eexists. split; [reflexivity|]. split.
    - destruct Hk as [<-|[<-|[<-|[]]]]; cbn; tauto.
    - intros w Hw. cbn in Hw.
      repeat (destruct Hw as [Hw|Hw];
              [injection Hw as Ek <-; subst k; try (destruct Hk as [Hk|[Hk|[Hk|[]]]]; discriminate Hk);
               eauto|]).
      destruct Hw. }
  destruct e as [|n msg fr| |w due rest].
  - cbv [wrapper_tail capture_into] in Hex.
    eapply capture_sync_builtin; [exact HJ2|exact H1|exact H2|exact Hex].
  - cbv [wrapper_tail capture_into report_user_error push_stderr upd bind get_sb put_sb gets
         modify ret] in Hex.
    destruct (String.eqb (error_stack n msg fr) EmptyString);
      (eapply capture_sync_builtin; [|exact H1|exact H2|exact Hex]); exact HJ2.
  - cbv [report_error bind now gets get_sb log_report modify ret] in Hex.
    injection Hex as <- _. discriminate Herr.
  - destruct HA.
Qed.

Section ExecuteLocals.

Variable L : list (string * gval) -> Prop.
Hypothesis L_capture : forall g l, L l ->
  L (fold_left (fun acc '(k, v) => if skipped iife_skipKeys k || is_function v then acc
                                   else assoc_set k v acc) g l).
Hypothesis L_sync : forall g l, L l ->
  L (fold_left (fun acc '(k, v) => if skipped sync_skipKeys k then acc else assoc_set k v acc) g l).

Lemma inv_run_body_locals (deadline : option Z) (ss : list stmt) :
  Inv (fun m => locals_inv L (m_sb m)) (run_body deadline ss).
Proof.
  apply inv_run_body; try (intros; assumption).
  intros s x v H. destruct (sb_vmContext s); exact H.
Qed.

#[local] Hint Resolve inv_run_body_locals : inv.
#[local] Hint Extern 1 (Inv _ (upd _)) =>
  (apply inv_upd; intros ? ?; unfold locals_inv in *; cbn [sb_locals set_vm set_locals set_stdout
     set_stderr set_finalAnswer set_llmCalls]; auto) : inv.

Lemma inv_execute_locals (run_js : string -> program) (code : string) (t : option Z) :
  Inv (fun m => locals_inv L (m_sb m)) (execute run_js code t).
Proof.
  unfold execute, createContext, wrapper_tail, report_user_error, capture_into, capture_locals,
    syncLocals, report_ok, report_error, push_stderr.
  inv_solve.
Qed.

End ExecuteLocals.

Lemma fold_skips_key (P : string -> gval -> bool) (x : string) (g acc : list (string * gval)) :
  (forall v, P x v = true) -> assoc_get x acc = None ->
  assoc_get x (fold_left (fun acc '(k, v) => if P k v then acc else assoc_set k v acc) g acc)
  = None.
Proof.
  intros HP. revert acc; induction g as [|[k v] g IH]; intros acc H; cbn [fold_left]; [exact H|].
  apply IH. destruct (P k v) eqn:Ep; [exact H|]. rewrite assoc_get_set.
  destruct (String.eqb x k) eqn:E; [|exact H].
  apply String.eqb_eq in E. subst k. rewrite HP in Ep. discriminate Ep.
Qed.

Lemma skipped_iife_sync (k : string) :
  skipped iife_skipKeys k = true -> skipped sync_skipKeys k = true.
Proof.
  unfold skipped. intros H. apply orb_true_iff in H as [H|H]; [rewrite H; reflexivity|].
  apply orb_true_iff. right. apply existsb_exists in H as [k' [Hin Ek]].
  apply String.eqb_eq in Ek. subst k'. apply existsb_exists. exists k.
  split; [|apply String.eqb_refl].
  cbv [iife_skipKeys] in Hin. cbv [sync_skipKeys]. cbn in Hin |- *. tauto.
Qed.

(** X18: [execute] never removes a variable from [locals]: a key bound
    before the call is still bound afterwards, whatever the program does. *)
Theorem execute_never_drops_locals (run_js : string -> program) (code : string) (t : option Z)
    (m : Machine) (k : string) :
  assoc_get k (sb_locals (m_sb m)) <> None ->
  assoc_get k (sb_locals (m_sb (snd (execute run_js code t m)))) <> None.
Proof.
  apply (inv_execute_locals (fun l => assoc_get k l <> None)); intros; apply fold_keeps_key; assumption.
Qed.

Lemma execute_never_drops_locals_witness :
  let m := mkMachine 0 [] [] (set_locals [("x", GVal (JNum 1))] (new_Sandbox None)) [] [] [] in
  assoc_get "x" (sb_locals (m_sb m)) <> None
  /\ assoc_get "x" (sb_locals (m_sb (snd (execute demo_js "busy(400000)" (Some 10) m)))) <> None.
Proof.
  intros m. split; [discriminate|].
  apply execute_never_drops_locals. discriminate.
Defined.

(** X19: [execute] never copies into [locals] a global whose name the
    capture of the wrapped code skips (the injected bindings such as
    [context], [print] or [llm_query], and names starting with [__]). *)
Theorem execute_never_captures_skipped (run_js : string -> program) (code : string)
    (t : option Z) (m : Machine) (k : string) :
  skipped iife_skipKeys k = true ->
  assoc_get k (sb_locals (m_sb m)) = None ->
  assoc_get k (sb_locals (m_sb (snd (execute run_js code t m)))) = None.
Proof.
  intros Hk. apply (inv_execute_locals (fun l => assoc_get k l = None)); intros;
    apply fold_skips_key; auto; intros v.
  - rewrite Hk. reflexivity.
  - apply skipped_iife_sync, Hk.
Qed.

Lemma execute_never_captures_skipped_witness :
  skipped iife_skipKeys "context" = true
  /\ assoc_get "context" (sb_locals (m_sb (initial_machine []))) = None
  /\ assoc_get "context"
       (sb_locals (m_sb (snd (execute (fun _ => Program [SAssign "context" (JNum 1)]) "context = 1"
                                None (initial_machine []))))) = None.
Proof.
  split; [reflexivity|]. split; [reflexivity|].
  apply execute_never_captures_skipped; reflexivity.
Defined.

Lemma execute_captures_builtin_values_witness :
  demo_js "x = 2" = Program [SAssign "x" (JNum 2)]
  /\ forallb (fun st => negb (is_await st)) [SAssign "x" (JNum 2)] = true
  /\ exists r m', execute demo_js "x = 2" None (initial_machine []) = (Ok r, m')
  /\ r_error r = None /\ In "NaN" ["Infinity"; "NaN"; "undefined"]
  /\ exists v, assoc_get "NaN" (r_locals r) = Some (GVal v).
Proof.
  split; [reflexivity|]. split; [reflexivity|].
  destruct (execute demo_js "x = 2" None (initial_machine [])) as [[r|e] m'] eqn:E.
  - exists r, m'. split; [reflexivity|].
    assert (Hr : r_error r = None) by (vm_compute in E; injection E as <- _; reflexivity).
    split; [exact Hr|]. split; [cbn; tauto|].
    exact (execute_captures_builtin_values demo_js "x = 2" [SAssign "x" (JNum 2)] None
             (initial_machine []) m' r "NaN" eq_refl eq_refl
             E Hr (or_intror (or_introl eq_refl))).
  - vm_compute in E. discriminate E.
Defined.

(* ------------------------------------------------------------------------- *)
(** ** Usage, context, history and trace of a completion *)


Section Usage.

Variable run_js : string -> program.
Variable prompt : string.
Variable opts : CompletionOptions.

Lemma early_result_usage (st : Z) (a : string) (d : DriverState) :
  Post (early_result st a d) usage_consistent.
Proof.
  unfold early_result. do 3 (apply post_any; intros ?). apply post_ret. split; reflexivity.
Qed.

Lemma run_blocks_usage (st : Z) (i : nat) (codes : list string)
    (acc : list (string * ExecutionReport)) (d : DriverState) :
  Post (run_blocks run_js opts st i codes acc d)
    (fun r => match r with inl res => usage_consistent res | inr _ => True end).
Proof.
  revert acc d; induction codes as [|code codes IH]; intros acc d;
    cbn [run_blocks]; [apply post_ret; exact I|].
  do 6 (apply post_any; intros ?). cbv zeta.
  destruct (is_truthy_string _).
  - apply post_any; intros _.
    apply (post_bind _ _ _ _ (early_result_usage _ _ _)).
    intros res Hres. apply post_ret. exact Hres.
  - apply IH.
Qed.

Lemma iteration_usage (st : Z) (i : nat) (d : DriverState) :
  Post (iteration run_js prompt opts st i d)
    (fun r => match r with inl res => usage_consistent res | inr _ => True end).
Proof.
  unfold iteration. do 5 (apply post_any; intros ?). cbv zeta.
  eapply post_bind; [apply run_blocks_usage|].
  intros [res|[cb d']] H; apply post_ret; exact H.
Qed.

Lemma iter_loop_usage (st : Z) (fuel i : nat) (d : DriverState) :
  Post (iter_loop run_js prompt opts st fuel i d)
    (fun r => match r with inl res => usage_consistent res | inr _ => True end).
Proof.
  revert i d; induction fuel as [|f IH]; intros i d; cbn [iter_loop]; [apply post_ret; exact I|].
  eapply post_bind; [apply iteration_usage|].
  intros [res|d'] H; [apply post_ret; exact H | apply IH].
Qed.

Lemma final_phase_usage (st : Z) (d : DriverState) :
  Post (final_phase run_js st d) usage_consistent.
Proof.
  unfold final_phase. do 6 (apply post_any; intros ?). cbv zeta.
  destruct (is_truthy_string _); apply post_ret; split; reflexivity.
Qed.

End Usage.

(** X20: whenever a completion returns a result, [rootCalls] equals
    [iterations] and [totalCalls] is [rootCalls + subCalls], on the early
    return and on both returns after the final request. *)
Theorem completion_usage_consistent (run_js : string -> program) (cfg : RLMConfig)
    (prompt : string) (opts : CompletionOptions) :
  Post (completion run_js cfg prompt opts) usage_consistent.
Proof.
  unfold completion. do 3 (apply post_any; intros ?). cbv zeta.
  destruct (context_text _).
  - eapply post_bind; [apply iter_loop_usage|].
    intros [res|d] H; [apply post_ret; exact H | apply final_phase_usage].
  - intros m. exact I.
Qed.


Section ContextInv.

Variable c : jsval.

#[local] Hint Extern 1 (Inv _ (upd _)) =>
  (apply inv_upd; intros ? ?; unfold context_is in *; cbn [sb_context set_vm set_locals
     set_stdout set_stderr set_finalAnswer set_llmCalls]; auto) : inv.

Lemma inv_execute_context (run_js : string -> program) (code : string) (t : option Z) :
  Inv (fun m => context_is c (m_sb m)) (execute run_js code t).
Proof.
  assert (Hb : forall d ss, Inv (fun m => context_is c (m_sb m)) (run_body d ss)).
  { intros. apply inv_run_body; try (intros; assumption).
    intros s x v H. destruct (sb_vmContext s); exact H. }
  unfold execute, createContext, wrapper_tail, report_user_error, capture_into, capture_locals,
    syncLocals, report_ok, report_error, push_stderr.
  inv_solve.
Qed.

End ContextInv.

(** X21: [execute] never changes the loaded context, even when the program
    assigns to the global [context]: the fresh vm context of the next
    execution binds [context] to the loaded value again. *)
Theorem execute_keeps_loaded_context (run_js : string -> program) (code : string)
    (t : option Z) (m : Machine) :
  let m1 := snd (execute run_js code t m) in
  sb_context (m_sb m1) = sb_context (m_sb m)
  /\ option_map (assoc_get "context") (sb_vmContext (m_sb (snd (createContext m1))))
     = Some (Some (GVal (sb_context (m_sb m)))).
Proof.
  intros m1.
  assert (H : sb_context (m_sb m1) = sb_context (m_sb m))
    by exact (inv_execute_context (sb_context (m_sb m)) run_js code t m eq_refl).
  split; [exact H|]. cbn. rewrite H. reflexivity.
Qed.

(** X22: the context survives [reset], and [loadContext] also rebinds the
    global [context] of a vm context that already exists. *)
Theorem loadContext_reset_createContext (c : jsval) (m : Machine) :
  option_map (assoc_get "context")
    (sb_vmContext (m_sb (snd ((loadContext c ;; reset ;; createContext) m))))
    = Some (Some (GVal c))
  /\ option_map (assoc_get "context")
       (sb_vmContext (m_sb (snd ((createContext ;; loadContext c) m))))
     = Some (Some (GVal c)).
Proof.
  split.
  - cbn. destruct (sb_vmContext (m_sb m)); reflexivity.
  - reflexivity.
Qed.



Lemma count_llm_app tr1 tr2 :
  count_llm_entries (tr1 ++ tr2) = (count_llm_entries tr1 + count_llm_entries tr2)%nat.
Proof. unfold count_llm_entries. rewrite filter_app, length_app. reflexivity. Qed.


Section History.

Variable run_js : string -> program.
Variable prompt : string.
Variable opts : CompletionOptions.

Lemma run_blocks_driver (st : Z) (i : nat) (codes : list string)
    (acc : list (string * ExecutionReport)) (d : DriverState) :
  Post (run_blocks run_js opts st i codes acc d)
    (fun r => match r with
              | inl res => iterations res = d_iterations d
                           /\ count_llm_entries (trace res) = count_llm_entries (d_trace d)
              | inr (_, d') => d_history d' = d_history d /\ d_iterations d' = d_iterations d
                               /\ count_llm_entries (d_trace d') = count_llm_entries (d_trace d)
              end).
Proof.
  revert acc d; induction codes as [|code codes IH]; intros acc d;
    cbn [run_blocks]; [apply post_ret; auto|].
  do 6 (apply post_any; intros ?). cbv zeta.
  assert (Ht : forall d e, is_llm_entry e = false ->
            count_llm_entries (d_trace (with_trace d e)) = count_llm_entries (d_trace d)).
  { intros d0 e He. unfold with_trace. cbn [d_trace]. rewrite count_llm_app.
    unfold count_llm_entries at 2. cbn [filter]. rewrite He. cbn [length]. lia. }
  destruct (is_truthy_string _).
  - apply post_any; intros _.
    eapply post_bind.
    + unfold early_result. do 3 (apply post_any; intros ?). apply post_ret.
      instantiate (1 := fun res => iterations res = d_iterations d
                          /\ count_llm_entries (trace res) = count_llm_entries (d_trace d)).
      cbn [iterations trace]. split; [reflexivity|]. rewrite !Ht by reflexivity. reflexivity.
    + intros res H. apply post_ret. exact H.
  - eapply post_conseq; [apply IH|]. intros [res|[acc' d']] H;
      rewrite !Ht in H by reflexivity; exact H.
Qed.

Lemma formatIteration_not_system (response : string) (cb : list (string * ExecutionReport)) :
  Forall not_system (formatIteration response cb).
Proof.
  unfold formatIteration. constructor; [discriminate|].
  apply Forall_forall. intros msg Hin. apply in_map_iff in Hin as [[c r] [<- _]]. discriminate.
Qed.

Lemma buildUserPrompt_head (p : string) (j : nat) :
  exists c s, msg_content (buildUserPrompt p j) = String c s /\ c <> Ascii.ascii_of_nat 67.
Proof. destruct j; (eexists _, _; split; [reflexivity | discriminate]). Qed.

Lemma code_message_not_user_prompt (rest p : string) (j : nat) :
  mkMsg User ("Code executed:" +++ rest) <> buildUserPrompt p j.
Proof.
  intro E. destruct (buildUserPrompt_head p j) as [c [s [Hc Hne]]].
  apply (f_equal msg_content) in E. rewrite Hc in E.
  injection E as Ec _. apply Hne. symmetry. exact Ec.
Qed.

Lemma formatIteration_no_user_prompt (p response : string)
    (cb : list (string * ExecutionReport)) :
  Forall (fun msg => not_system msg /\ forall j, msg <> buildUserPrompt p j)
    (formatIteration response cb).
Proof.
  unfold formatIteration. constructor.
  - split; [discriminate|]. intros j E. apply (f_equal msg_role) in E. discriminate E.
  - apply Forall_forall. intros msg Hin. apply in_map_iff in Hin as [[c r] [<- _]].
    split; [discriminate|]. intros j. cbv beta iota zeta.
    apply code_message_not_user_prompt.
Qed.

(** X23: the loop only appends to the message history: it never drops or
    rewrites an earlier message and never adds a system message; the
    per-iteration user prompt is not kept. *)
Theorem iter_loop_history_append_only (st : Z) (fuel i : nat) (d : DriverState) :
  Post (iter_loop run_js prompt opts st fuel i d)
    (fun r => match r with
              | inl _ => True
              | inr d' => exists l, d_history d' = d_history d ++ l
                            /\ Forall (fun msg => not_system msg
                                       /\ forall j, msg <> buildUserPrompt prompt j) l
              end).
Proof.
  revert i d; induction fuel as [|f IH]; intros i d; cbn [iter_loop].
  - apply post_ret. exists []. rewrite app_nil_r. auto.
  - apply (post_bind _ _ (fun r => match r with
                                   | inl _ => True
                                   | inr d' => exists l, d_history d' = d_history d ++ l
                                       /\ Forall (fun msg => not_system msg
                                              /\ forall j, msg <> buildUserPrompt prompt j) l
                                   end)).
    + unfold iteration. do 5 (apply post_any; intros ?). cbv zeta.
      eapply post_bind; [apply run_blocks_driver|].
      intros [res|[cb d']] H; apply post_ret; [exact I|]. cbn. destruct H as [Hh _].
      rewrite Hh. eexists; split; [reflexivity|]. apply formatIteration_no_user_prompt.
    + intros [res|d'] H; [apply post_ret; exact I|]. destruct H as [l [Hl Fl]].
      eapply post_conseq; [apply IH|]. intros [res|d''] H; [exact I|].
      destruct H as [l' [Hl' Fl']]. exists (l ++ l'). rewrite Hl', Hl, app_assoc.
      split; [reflexivity|]. apply Forall_app; auto.
Qed.

Lemma iteration_trace (st : Z) (i : nat) (d : DriverState) :
  count_llm_entries (d_trace d) = i ->
  Post (iteration run_js prompt opts st i d)
    (fun r => match r with
              | inl res => iterations res = S i /\ count_llm_entries (trace res) = S i
              | inr d' => d_iterations d' = S i /\ count_llm_entries (d_trace d') = S i
              end).
Proof.
  intros Hc. unfold iteration. do 5 (apply post_any; intros ?). cbv zeta.
  eapply post_bind; [apply run_blocks_driver|].
  cbn [d_iterations d_trace]. rewrite count_llm_app, Hc. cbn. rewrite Nat.add_1_r.
  intros [res|[cb d']] H; apply post_ret; [exact H|]. cbn. tauto.
Qed.

Lemma iter_loop_trace (st : Z) (fuel i : nat) (d : DriverState) :
  d_iterations d = i -> count_llm_entries (d_trace d) = i ->
  Post (iter_loop run_js prompt opts st fuel i d)
    (fun r => match r with
              | inl res => count_llm_entries (trace res) = iterations res
                           /\ (iterations res <= i + fuel)%nat
              | inr d' => count_llm_entries (d_trace d') = (i + fuel)%nat
                          /\ d_iterations d' = (i + fuel)%nat
              end).
Proof.
  revert i d; induction fuel as [|f IH]; intros i d Hi Hc; cbn [iter_loop].
  - apply post_ret. lia.
  - eapply post_bind; [apply (iteration_trace _ _ _ Hc)|].
    intros [res|d'] H.
    + apply post_ret. lia.
    + eapply post_conseq; [apply (IH (S i) d' (proj1 H) (proj2 H))|]. intros [res|d''] H'; lia.
Qed.

End History.

(** X24: the trace holds one [llm_call] entry per pass of the loop: the
    final-request root call is never traced, so a result that went through
    it has one [llm_call] entry fewer than its [iterations]. *)
Theorem completion_trace_llm_calls (run_js : string -> program) (cfg : RLMConfig)
    (prompt : string) (opts : CompletionOptions) :
  Post (completion run_js cfg prompt opts)
    (fun res => count_llm_entries (trace res) = Nat.min (iterations res) (maxIterations cfg)).
Proof.
  unfold completion. do 3 (apply post_any; intros ?). cbv zeta.
  destruct (context_text _).
  - eapply post_bind; [apply iter_loop_trace; reflexivity|].
    intros [res|d] H.
    + apply post_ret. lia.
    + unfold final_phase. do 6 (apply post_any; intros ?). cbv zeta.
      destruct (is_truthy_string _); apply post_ret; cbn [trace iterations]; lia.
  - intros m. exact I.
Qed.

(** X25: the prompt reported by [llm_query_start] is at most 2003
    characters long, starts with the first 2000 characters of the user
    message, and is the message itself when it has at most 2000. *)
Theorem truncate_prompt_bounds (s : string) :
  (String.length (truncate_prompt s) <= 2003)%nat
  /\ String.prefix (str_take 2000 s) (truncate_prompt s) = true
  /\ ((String.length s <= 2000)%nat -> truncate_prompt s = s).
Proof.
  assert (Hlen : forall n s, String.length (str_take n s) = Nat.min n (String.length s)).
  { induction n as [|n IH]; intros [|c s']; cbn; auto. }
  assert (Hpre : forall n s x, String.prefix (str_take n s) (str_take n s +++ x) = true).
  { induction n as [|n IH]; intros [|c s'] x; cbn; try (destruct x; reflexivity).
    destruct (Ascii.ascii_dec c c) as [_|N]; [apply IH | contradiction N; reflexivity]. }
  unfold truncate_prompt. destruct (Nat.ltb_spec 2000 (String.length s)) as [Hl|Hl].
  - rewrite length_append, Hlen. split; [change (String.length "...") with 3%nat; lia|]. split; [apply Hpre | lia].
  - rewrite str_take_all by exact Hl. split; [lia|]. split; [|reflexivity].
    clear. induction s as [|c s IH]; cbn; [reflexivity|].
    destruct (Ascii.ascii_dec c c) as [_|N]; [exact IH | contradiction N; reflexivity].
Qed.

(* ------------------------------------------------------------------------- *)
(** ** System prompt of sub-LLM requests *)



Section LogsStateLemmas.

Variable J : Machine -> Prop.
Variable P : caller * list ChatMessage -> Prop.

Lemma logsS_ret {A} (a : A) : LogsS J P (ret a).
Proof. intros m H. exists []. rewrite app_nil_r. auto. Qed.

Lemma logsS_throw {A} (e : string) : LogsS J P (@throw A e).
Proof. intros m H. exists []. rewrite app_nil_r. auto. Qed.

Lemma logsS_gets {A} (f : Machine -> A) : LogsS J P (gets f).
Proof. intros m H. exists []. rewrite app_nil_r. auto. Qed.

Lemma logsS_modify (f : Machine -> Machine) :
  (forall m, J m -> m_requests (f m) = m_requests m /\ J (f m)) ->
  LogsS J P (modify f).
Proof. intros Hf m H. exists []. rewrite app_nil_r. destruct (Hf m H). cbn. auto. Qed.

Lemma logsS_bind {A B} (c : M A) (k : A -> M B) :
  LogsS J P c -> (forall a, LogsS J P (k a)) -> LogsS J P (bind c k).
Proof.
  intros Hc Hk m H. unfold bind. destruct (Hc m H) as [l1 [E1 [F1 J1]]].
  destruct (c m) as [[a|e] m1]; cbn in E1, J1 |- *.
  - destruct (Hk a m1 J1) as [l2 [E2 [F2 J2]]]. exists (l1 ++ l2).
    rewrite E2, E1, app_assoc. split; [reflexivity|]. split; [apply Forall_app; auto | exact J2].
  - exists l1. auto.
Qed.

Lemma logsS_try_catch {A} (c : M A) : LogsS J P c -> LogsS J P (try_catch c).
Proof.
  intros Hc m H. destruct (Hc m H) as [l [E [F J1]]]. unfold try_catch.
  destruct (c m) as [[a|e] m1]; exists l; auto.
Qed.

(** A read of the state: what [J] tells about the value read may be used. *)
Lemma logsS_gets_bind {A B} (f : Machine -> A) (Q : A -> Prop) (k : A -> M B) :
  (forall m, J m -> Q (f m)) -> (forall a, Q a -> LogsS J P (k a)) ->
  LogsS J P (bind (gets f) k).
Proof. intros HQ Hk m H. exact (Hk _ (HQ m H) m H). Qed.

Lemma logsS_now : LogsS J P now.
Proof. apply logsS_gets. Qed.

Lemma logsS_get_sb : LogsS J P get_sb.
Proof. apply logsS_gets. Qed.

End LogsStateLemmas.

Create HintDb logsS.
#[export] Hint Resolve logsS_ret logsS_throw logsS_gets logsS_try_catch logsS_now logsS_get_sb
  : logsS.

Ltac logsS_solve :=
  repeat (cbv beta zeta;
          match goal with
          | |- LogsS _ _ (bind _ _) => apply logsS_bind; [|intros ?]
          | |- LogsS _ _ (match ?x with _ => _ end) => destruct x
          | |- LogsS _ _ (if ?b then _ else _) => destruct b
          | |- _ => solve [eauto with logsS]
          end).

Lemma take_first_due_Forall (Q : task -> Prop) (d : Z) (tks : list task) (tk : task)
    (others : list task) :
  take_first_due d tks = Some (tk, others) -> Forall Q tks -> Q tk /\ Forall Q others.
Proof.
  revert others; induction tks as [|x tks IH]; intros others; cbn; [discriminate|].
  intros E F. inversion F as [|? ? Qx Ftks]; subst.
  destruct (Z.eqb (tk_due x) d).
  - injection E as <- <-. auto.
  - destruct (take_first_due d tks) as [[y ys]|] eqn:Et; [|discriminate].
    injection E as <- <-. destruct (IH ys eq_refl Ftks). auto.
Qed.

Lemma next_task_Forall (Q : task -> Prop) (limit : Z) (tks : list task) (tk : task)
    (others : list task) :
  next_task limit tks = Some (tk, others) -> Forall Q tks -> Q tk /\ Forall Q others.
Proof.
  unfold next_task. destruct (min_due tks) as [d|]; [|discriminate].
  destruct (Z.leb d limit); [apply take_first_due_Forall | discriminate].
Qed.

Section SubPrompt.

Variable sp : string.
Variable run_js : string -> program.
Variable prompt : string.
Variable opts : CompletionOptions.

Let J := prompt_inv sp.
Let P := sub_request_ok sp.

Lemma prompt_inv_same (m m' : Machine) :
  m_sb m' = m_sb m -> m_tasks m' = m_tasks m -> J m -> J m'.
Proof. intros Hs Ht [H1 H2]. split; [rewrite Hs; exact H1 | rewrite Ht; exact H2]. Qed.

Lemma logsS_set_clock (t : Z) : LogsS J P (set_clock t).
Proof. apply logsS_modify. intros m H. split; [reflexivity | exact H]. Qed.

Lemma logsS_advance (ms : Z) : LogsS J P (advance ms).
Proof. apply logsS_bind; [apply logsS_now | intros; apply logsS_set_clock]. Qed.

Lemma logsS_log_report (r : ExecutionReport) : LogsS J P (log_report r).
Proof. apply logsS_modify. intros m H. split; [reflexivity | exact H]. Qed.

Lemma logsS_put_sb (s : Sandbox) : has_systemPrompt sp s -> LogsS J P (put_sb s).
Proof. intros Hs. apply logsS_modify. intros m [_ H2]. split; [reflexivity | split; assumption]. Qed.

Lemma logsS_upd (f : Sandbox -> Sandbox) :
  (forall s, has_systemPrompt sp s -> has_systemPrompt sp (f s)) -> LogsS J P (upd f).
Proof.
  intros Hf. unfold upd, get_sb.
  apply (logsS_gets_bind _ _ m_sb (has_systemPrompt sp)); [intros m H; exact (proj1 H)|].
  intros s Hs. apply logsS_put_sb. auto.
Qed.

Lemma logsS_set_tasks (tks : list task) :
  Forall (task_prompt_ok sp) tks -> LogsS J P (set_tasks tks).
Proof. intros F. apply logsS_modify. intros m [H1 _]. split; [reflexivity | split; assumption]. Qed.

Lemma logsS_schedule (tk : task) : task_prompt_ok sp tk -> LogsS J P (schedule tk).
Proof.
  intros Htk. apply logsS_modify. intros m [H1 H2].
  split; [reflexivity | split; [exact H1 | apply Forall_app; auto]].
Qed.

Lemma logsS_retire_vm (keep : bool) : LogsS J P (retire_vm keep).
Proof.
  apply logsS_modify. intros m [H1 H2]. split; [reflexivity | split; [exact H1|]].
  cbn. apply Forall_map. revert H2. apply Forall_impl. intros tk Htk.
  unfold retire_task, task_prompt_ok in *.
  destruct (tk_owner tk) eqn:E; cbn; [exact I | rewrite E; exact Htk].
Qed.

Lemma logsS_client_send (who : caller) (msgs : list ChatMessage) :
  P (who, msgs) -> LogsS J P (client_send who msgs).
Proof.
  intros HP m H. exists [(who, msgs)]. unfold client_send.
  destruct (m_replies m) as [|[c u lat|e lat] rs]; cbn;
    (split; [reflexivity | split; [constructor; [exact HP | constructor] | exact H]]).
Qed.

#[local] Hint Resolve logsS_set_clock logsS_advance logsS_log_report logsS_retire_vm : logsS.
#[local] Hint Extern 1 (LogsS _ _ (modify _)) =>
  (apply logsS_modify; intros ?m ?H; split; [reflexivity | revert H; apply prompt_inv_same;
                                             reflexivity]) : logsS.
#[local] Hint Extern 1 (LogsS _ _ (schedule _)) => (apply logsS_schedule; exact I) : logsS.
#[local] Hint Extern 1 (LogsS _ _ (upd _)) =>
  (apply logsS_upd; intros ? ?; unfold has_systemPrompt in *; cbn [sb_systemPrompt set_vm
     set_locals set_stdout set_stderr set_finalAnswer set_llmCalls set_context];
   repeat match goal with |- context [match ?x with _ => _ end] => destruct x end; auto) : logsS.

Lemma logsS_llmQuery (p : string) (model : option string) : LogsS J P (llmQuery p model).
Proof.
  unfold llmQuery. apply logsS_bind; [apply logsS_now|intros t]. unfold get_sb.
  apply (logsS_gets_bind _ _ m_sb (has_systemPrompt sp)); [intros m H; exact (proj1 H)|].
  intros s Hs. cbv zeta. apply logsS_bind.
  - apply logsS_client_send. intros _. exists p. cbn [snd].
    unfold has_systemPrompt in Hs. rewrite Hs. reflexivity.
  - intros [settled lat]. apply logsS_ret.
Qed.
#[local] Hint Resolve logsS_llmQuery : logsS.

Lemma logsS_run_body (deadline : option Z) (ss : list stmt) : LogsS J P (run_body deadline ss).
Proof.
  induction ss as [|st ss IH]; cbn [run_body]; [auto with logsS|].
  destruct st; unfold FINAL, FINAL_VAR, push_stdout, push_stderr, set_global; logsS_solve.
Qed.
#[local] Hint Resolve logsS_run_body : logsS.

Lemma logsS_wrapper_tail (live : bool) (e : body_end) : LogsS J P (wrapper_tail live e).
Proof.
  unfold wrapper_tail, report_user_error, capture_into, capture_locals, push_stderr.
  logsS_solve.
Qed.
#[local] Hint Resolve logsS_wrapper_tail : logsS.

Lemma logsS_resume (w : wake) : LogsS J P (resume w).
Proof. unfold resume, llmQuery_settle, set_global. logsS_solve. Qed.

Lemma logsS_execute (code : string) (t : option Z) : LogsS J P (execute run_js code t).
Proof.
  unfold execute, createContext, syncLocals, report_ok, report_error. logsS_solve.
Qed.
#[local] Hint Resolve logsS_execute : logsS.

Lemma task_merge_prompt (o : owner) (cur view cur' : Sandbox) (o' : owner) :
  has_systemPrompt sp cur -> has_systemPrompt sp view ->
  task_merge o cur view = (cur', o') ->
  has_systemPrompt sp cur' /\ match o' with OwnDetached sb _ => has_systemPrompt sp sb
                                          | OwnCurrent _ _ => True end.
Proof.
  intros Hc Hv. destruct o as [[g|] l|sb l]; cbn; intros E; injection E as <- <-;
    unfold has_systemPrompt in *; cbn; auto.
Qed.

Lemma logsS_run_task (tk : task) : task_prompt_ok sp tk -> LogsS J P (run_task tk).
Proof.
  intros Htk. unfold run_task, get_sb.
  apply (logsS_gets_bind _ _ m_sb (has_systemPrompt sp)); [intros m H; exact (proj1 H)|].
  intros cur Hcur. apply logsS_bind.
  { apply logsS_put_sb. unfold task_prompt_ok, has_systemPrompt in *.
    destruct (tk_owner tk) as [[g|] l|sb l]; cbn; assumption. }
  intros _. apply logsS_bind; [apply logsS_resume|intros _].
  apply logsS_bind; [apply logsS_run_body|intros e].
  apply logsS_bind; [apply logsS_wrapper_tail|intros _].
  apply (logsS_gets_bind _ _ m_sb (has_systemPrompt sp)); [intros m H; exact (proj1 H)|].
  intros view Hview.
  destruct (task_merge (tk_owner tk) cur view) as [cur' o'] eqn:Em.
  destruct (task_merge_prompt _ _ _ _ _ Hcur Hview Em) as [Hc' Ho'].
  apply logsS_bind; [apply logsS_put_sb; exact Hc'|intros _].
  destruct e; try apply logsS_ret. apply logsS_schedule. exact Ho'.
Qed.

Lemma logsS_run_until (limit : Z) : LogsS J P (run_until limit).
Proof.
  unfold run_until. apply logsS_bind; [apply logsS_gets|intros tks].
  generalize (task_fuel tks). intros fuel.
  induction fuel as [|f IH]; cbn [run_due]; [apply logsS_ret|].
  apply (logsS_gets_bind _ _ m_tasks (Forall (task_prompt_ok sp))); [intros m H; exact (proj2 H)|].
  intros tks' Htks.
  destruct (next_task limit tks') as [[tk others]|] eqn:En; [|apply logsS_ret].
  destruct (next_task_Forall _ _ _ _ _ En Htks) as [Htk Hothers].
  apply logsS_bind; [apply logsS_set_tasks; exact Hothers|intros _].
  apply logsS_bind; [apply logsS_now|intros t].
  apply logsS_bind; [apply logsS_set_clock|intros _].
  apply logsS_bind; [apply logsS_run_task; exact Htk|intros _].
  exact IH.
Qed.
#[local] Hint Resolve logsS_run_until : logsS.

Lemma logsS_client_complete (who : caller) (msgs : list ChatMessage) :
  P (who, msgs) -> LogsS J P (client_complete who msgs).
Proof.
  intros HP. unfold client_complete.
  apply logsS_bind; [apply logsS_client_send; exact HP|intros [settled lat]]. logsS_solve.
Qed.
#[local] Hint Extern 1 (LogsS _ _ (client_complete _ _)) =>
  (apply logsS_client_complete; unfold P, sub_request_ok; cbn; discriminate) : logsS.

Lemma logsS_emit (ev : RLMEvent) : LogsS J P (emit opts ev).
Proof. unfold emit. logsS_solve. Qed.
#[local] Hint Resolve logsS_emit : logsS.

Lemma logsS_run_blocks (st : Z) (i : nat) (codes : list string)
    (acc : list (string * ExecutionReport)) (d : DriverState) :
  LogsS J P (run_blocks run_js opts st i codes acc d).
Proof.
  revert acc d; induction codes as [|code codes IH]; intros acc d;
    cbn [run_blocks]; [auto with logsS|].
  unfold getFinalAnswer, early_result, getLLMCalls, getTotalUsage. logsS_solve.
Qed.
#[local] Hint Resolve logsS_run_blocks : logsS.

Lemma logsS_iter_loop (st : Z) (fuel i : nat) (d : DriverState) :
  LogsS J P (iter_loop run_js prompt opts st fuel i d).
Proof.
  revert i d; induction fuel as [|f IH]; intros i d; cbn [iter_loop]; [auto with logsS|].
  unfold iteration. logsS_solve.
Qed.
#[local] Hint Resolve logsS_iter_loop : logsS.

Lemma logsS_final_phase (st : Z) (d : DriverState) : LogsS J P (final_phase run_js st d).
Proof.
  unfold final_phase, getFinalAnswer, getLLMCalls, getTotalUsage.
  apply logsS_bind; [auto with logsS|intros r].
  apply logsS_bind; [|intros; logsS_solve].
  generalize (findCodeBlocks (cr_content r)). intros codes.
  induction codes as [|c cs IH]; cbn [execute_all]; logsS_solve.
Qed.

Lemma logsS_loadContext (c : jsval) : LogsS J P (loadContext c).
Proof.
  unfold loadContext. apply logsS_upd. intros s H. unfold has_systemPrompt in *.
  destruct (sb_vmContext (set_context c s)); exact H.
Qed.

(** The machine once [new Sandbox(client, sp)] is the current sandbox. *)
Lemma install_prompt_inv (m : Machine) :
  Forall (fun tk => has_systemPrompt sp (task_view (tk_owner tk) (m_sb m))) (m_tasks m) ->
  J (snd (install_sb (new_Sandbox (Some sp)) m)).
Proof.
  intros F. split; [reflexivity|]. cbn. apply Forall_map. revert F. apply Forall_impl.
  intros tk Htk. unfold detach, task_prompt_ok.
  destruct (tk_owner tk) eqn:E; cbn; [exact Htk | rewrite E; exact Htk].
Qed.

End SubPrompt.

(** X26: every sub-LLM request sent during a completion is the root system
    prompt as a system message (omitted when empty) followed by one user
    message: [llm_query] reads the prompt the driver gave the sandbox.  This
    holds when every program still suspended from earlier completions sees a
    sandbox with that same prompt (none is, on a fresh machine). *)
Theorem completion_sub_requests_system_prompt (run_js : string -> program) (cfg : RLMConfig)
    (prompt : string) (opts : CompletionOptions) (m : Machine) :
  Forall (fun tk => has_systemPrompt (rllm_systemPrompt cfg) (task_view (tk_owner tk) (m_sb m)))
    (m_tasks m) ->
  exists l, m_requests (snd (completion run_js cfg prompt opts m)) = m_requests m ++ l
            /\ Forall (sub_request_ok (rllm_systemPrompt cfg)) l.
Proof.
  intros Htasks. set (sp := rllm_systemPrompt cfg). fold sp in Htasks.
  pose proof (install_prompt_inv sp m Htasks) as Hinv.
  unfold completion. fold sp.
  unfold bind at 1. cbn [now gets]. unfold bind at 1.
  destruct (install_sb (new_Sandbox (Some sp)) m) as [o1 m1] eqn:Ei.
  cbn [snd] in Hinv. assert (Hr : m_requests m1 = m_requests m)
    by (unfold install_sb, modify in Ei; injection Ei as _ <-; reflexivity).
  assert (Ho : o1 = Ok tt) by (unfold install_sb, modify in Ei; injection Ei as <- _; reflexivity).
  subst o1. cbv beta iota. rewrite <- Hr.
  match goal with |- context [snd (?c m1)] =>
    assert (HL : LogsS (prompt_inv sp) (sub_request_ok sp) c) end.
  { apply logsS_bind; [apply logsS_loadContext|intros _].
    destruct (context_text _); [|apply logsS_throw].
    apply logsS_bind; [apply logsS_iter_loop|intros [res|d]];
      [apply logsS_ret|apply logsS_final_phase]. }
  destruct (HL m1 Hinv) as [l [E [F _]]]. exists l. split; [exact E|exact F].
Qed.

Lemma completion_sub_requests_system_prompt_witness :
  exists l, m_requests (snd (completion demo_js (mkConfig 1 None) "question" (demo_options None)
                                (initial_machine late_replies)))
            = m_requests (initial_machine late_replies) ++ l
            /\ Forall (sub_request_ok (rllm_systemPrompt (mkConfig 1 None))) l.
Proof.
  apply (completion_sub_requests_system_prompt demo_js (mkConfig 1 None) "question"
           (demo_options None) (initial_machine late_replies)).
  constructor.
Defined.

(* ------------------------------------------------------------------------- *)
(** ** Failed executions *)

(** X27: an execution that reports an error (a syntax error or the
    timeout) leaves [locals] as they were: the capture of the wrapped code
    never runs, so variables assigned before the timeout are lost. *)
Theorem execute_error_keeps_locals (run_js : string -> program) (code : string)
    (t : option Z) (m m' : Machine) (r : ExecutionReport) :
  execute run_js code t m = (Ok r, m') -> r_error r <> None ->
  r_locals r = sb_locals (m_sb m) /\ sb_locals (m_sb m') = sb_locals (m_sb m).
Proof.
  intros Hex Herr.
  cbv [execute bind now gets createContext retire_vm upd get_sb put_sb modify] in Hex.
  destruct (run_js code) as [msg|ss].
  { cbv [report_error bind now gets get_sb log_report modify ret] in Hex.
    injection Hex as <- <-. cbn. auto. }
  destruct (negb (valid_timeout _)).
  { cbv [report_error bind now gets get_sb log_report modify ret] in Hex.
    injection Hex as <- <-. cbn. auto. }
  match type of Hex with context [run_body ?d ss ?m1] =>
    pose proof (inv_run_body_locals (fun l => l = sb_locals (m_sb m)) d ss m1 eq_refl) as HL;
    destruct (run_body d ss m1) as [[e|err] m2] eqn:Erun end.
  2: discriminate Hex.
  cbn [snd] in HL. unfold locals_inv in HL.
  destruct e as [| n msg fr | | w due rest];
    cbv [wrapper_tail report_user_error capture_into capture_locals syncLocals report_ok
         report_error upd bind get_sb put_sb gets modify now log_report ret push_stderr
         schedule] in Hex.
  3: injection Hex as <- <-; cbn; auto.
  all: try (destruct (String.eqb _ _)); injection Hex as <- _; exfalso; apply Herr; reflexivity.
Qed.

Lemma execute_error_keeps_locals_witness :
  let m := mkMachine 0 [] [] (set_locals [("x", GVal (JNum 1))] (new_Sandbox None)) [] [] [] in
  exists r m', execute demo_js "busy(400000)" None m = (Ok r, m') /\ r_error r <> None
  /\ r_locals r = [("x", GVal (JNum 1))] /\ sb_locals (m_sb m') = [("x", GVal (JNum 1))].
Proof.
  intros m.
  destruct (execute demo_js "busy(400000)" None m) as [[r|e] m'] eqn:E.
  - exists r, m'. split; [reflexivity|].
    assert (Hr : r_error r <> None) by (vm_compute in E; injection E as <- _; discriminate).
    split; [exact Hr|].
    exact (execute_error_keeps_locals demo_js "busy(400000)" None m m' r E Hr).
  - vm_compute in E. discriminate E.
Defined.

(* ------------------------------------------------------------------------- *)
(** ** Sub-call records of an execution *)

(** X28: every report [execute] returns has an empty [llmCalls]:
    [createContext] empties the list, and a record is only pushed when an
    [llm_query] call settles, after [execute] has returned. *)
Theorem execute_report_no_llm_calls (run_js : string -> program) (code : string)
    (t : option Z) (m m' : Machine) (r : ExecutionReport) :
  execute run_js code t m = (Ok r, m') -> r_llmCalls r = [].
Proof.
  intros Hex.
  assert (HG : forall s x v, sb_llmCalls s = [] ->
            sb_llmCalls (match sb_vmContext s with
                         | Some gl => set_vm (Some (assoc_set x (GVal v) gl)) s
                         | None => s
                         end) = [])
    by (intros s x v H; destruct (sb_vmContext s); exact H).
  cbv [execute bind now gets createContext retire_vm upd get_sb put_sb modify] in Hex.
  destruct (run_js code) as [msg|ss].
  { cbv [report_error bind now gets get_sb log_report modify ret] in Hex.
    injection Hex as <- _. reflexivity. }
  destruct (negb (valid_timeout _)).
  { cbv [report_error bind now gets get_sb log_report modify ret] in Hex.
    injection Hex as <- _. reflexivity. }
  match type of Hex with context [run_body ?d ss ?m1] =>
    pose proof (inv_run_body (fun s => sb_llmCalls s = []) (fun s o H => H) (fun s e H => H)
                  (fun s f H => H) HG d ss m1 eq_refl) as HL;
    destruct (run_body d ss m1) as [[e|err] m2] eqn:Erun end.
  2: discriminate Hex.
  cbn [snd] in HL.
  destruct e as [| n msg fr | | w due rest];
    cbv [wrapper_tail report_user_error capture_into capture_locals syncLocals report_ok
         report_error upd bind get_sb put_sb gets modify now log_report ret push_stderr
         schedule] in Hex.
  all: try (destruct (String.eqb _ _)); injection Hex as <- _; exact HL.
Qed.

Lemma execute_report_no_llm_calls_witness :
  exists r m', execute demo_js "await llm_query('p')" None
                 (initial_machine [RespondWith "sub" demo_usage 7]) = (Ok r, m')
               /\ r_llmCalls r = [].
Proof.
  destruct (execute demo_js "await llm_query('p')" None
              (initial_machine [RespondWith "sub" demo_usage 7])) as [[r|e] m'] eqn:E.
  - exists r, m'. split; [reflexivity|].
    exact (execute_report_no_llm_calls demo_js "await llm_query('p')" None
             (initial_machine [RespondWith "sub" demo_usage 7]) m' r E).
  - vm_compute in E. discriminate E.
Defined.

(* ------------------------------------------------------------------------- *)
(** ** Exceptions of the [onEvent] callback *)

Section KeepsLemmas.

Lemma keeps_ret {A} (a : A) : Keeps (ret a).
Proof. intros m. reflexivity. Qed.

Lemma keeps_throw {A} (e : string) : Keeps (@throw A e).
Proof. intros m. reflexivity. Qed.

Lemma keeps_gets {A} (f : Machine -> A) : Keeps (gets f).
Proof. intros m. reflexivity. Qed.

Lemma keeps_modify (f : Machine -> Machine) :
  (forall m, m_events (f m) = m_events m) -> Keeps (modify f).
Proof. intros Hf m. apply Hf. Qed.

Lemma keeps_bind {A B} (c : M A) (k : A -> M B) :
  Keeps c -> (forall a, Keeps (k a)) -> Keeps (bind c k).
Proof.
  intros Hc Hk m. unfold bind. pose proof (Hc m) as H.
  destruct (c m) as [[a|e] m1]; cbn in H |- *; [rewrite Hk; exact H | exact H].
Qed.

Lemma keeps_try_catch {A} (c : M A) : Keeps c -> Keeps (try_catch c).
Proof.
  intros Hc m. pose proof (Hc m) as H. unfold try_catch.
  destruct (c m) as [[a|e] m1]; exact H.
Qed.

Lemma keeps_client_send (who : caller) (msgs : list ChatMessage) : Keeps (client_send who msgs).
Proof. intros m. unfold client_send. destruct (m_replies m) as [|[c u lat|e lat] rs]; reflexivity. Qed.

Lemma keeps_now : Keeps now.
Proof. apply keeps_gets. Qed.

Lemma keeps_get_sb : Keeps get_sb.
Proof. apply keeps_gets. Qed.

Lemma keeps_put_sb (sb : Sandbox) : Keeps (put_sb sb).
Proof. apply keeps_modify. reflexivity. Qed.

Lemma keeps_set_clock (t : Z) : Keeps (set_clock t).
Proof. apply keeps_modify. reflexivity. Qed.

Lemma keeps_log_report (r : ExecutionReport) : Keeps (log_report r).
Proof. apply keeps_modify. reflexivity. Qed.

Lemma keeps_set_tasks (tks : list task) : Keeps (set_tasks tks).
Proof. apply keeps_modify. reflexivity. Qed.

Lemma keeps_schedule (tk : task) : Keeps (schedule tk).
Proof. apply keeps_modify. reflexivity. Qed.

Lemma keeps_retire_vm (keep : bool) : Keeps (retire_vm keep).
Proof. apply keeps_modify. reflexivity. Qed.

Lemma keeps_install_sb (sb : Sandbox) : Keeps (install_sb sb).
Proof. apply keeps_modify. reflexivity. Qed.

Lemma keeps_advance (ms : Z) : Keeps (advance ms).
Proof. apply keeps_bind; [apply keeps_now | intros; apply keeps_set_clock]. Qed.

Lemma keeps_upd (f : Sandbox -> Sandbox) : Keeps (upd f).
Proof. apply keeps_bind; [apply keeps_get_sb | intros; apply keeps_put_sb]. Qed.

End KeepsLemmas.

Create HintDb keeps.
#[export] Hint Resolve keeps_ret keeps_throw keeps_gets keeps_try_catch keeps_client_send
  keeps_now keeps_get_sb keeps_put_sb keeps_set_clock keeps_log_report keeps_set_tasks
  keeps_schedule keeps_retire_vm keeps_install_sb keeps_advance keeps_upd : keeps.
#[export] Hint Extern 1 (Keeps (modify _)) => (apply keeps_modify; intros; reflexivity) : keeps.

Ltac keeps_solve :=
  repeat (cbv beta zeta;
          match goal with
          | |- Keeps (bind _ _) => apply keeps_bind; [|intros ?]
          | |- Keeps (match ?x with _ => _ end) => destruct x
          | |- Keeps (if ?b then _ else _) => destruct b
          | |- _ => solve [eauto with keeps]
          end).

Section KeepsSandbox.

Lemma keeps_llmQuery (p : string) (model : option string) : Keeps (llmQuery p model).
Proof. unfold llmQuery. keeps_solve. Qed.
#[local] Hint Resolve keeps_llmQuery : keeps.

Lemma keeps_run_body (deadline : option Z) (ss : list stmt) : Keeps (run_body deadline ss).
Proof.
  induction ss as [|st ss IH]; cbn [run_body]; [auto with keeps|].
  destruct st; unfold FINAL, FINAL_VAR, push_stdout, push_stderr, set_global; keeps_solve.
Qed.

Lemma keeps_wrapper_tail (live : bool) (e : body_end) : Keeps (wrapper_tail live e).
Proof.
  unfold wrapper_tail, report_user_error, capture_into, capture_locals, push_stderr. keeps_solve.
Qed.
#[local] Hint Resolve keeps_run_body keeps_wrapper_tail : keeps.

Lemma keeps_execute (run_js : string -> program) (code : string) (t : option Z) :
  Keeps (execute run_js code t).
Proof. unfold execute, createContext, syncLocals, report_ok, report_error. keeps_solve. Qed.

Lemma keeps_run_task (tk : task) : Keeps (run_task tk).
Proof. unfold run_task, resume, llmQuery_settle, set_global. keeps_solve. Qed.
#[local] Hint Resolve keeps_run_task : keeps.

Lemma keeps_run_until (limit : Z) : Keeps (run_until limit).
Proof.
  unfold run_until. apply keeps_bind; [auto with keeps|intros tks].
  generalize (task_fuel tks). intros fuel.
  induction fuel as [|f IH]; cbn [run_due]; keeps_solve.
Qed.
#[local] Hint Resolve keeps_run_until : keeps.

Lemma keeps_client_complete (who : caller) (msgs : list ChatMessage) :
  Keeps (client_complete who msgs).
Proof. unfold client_complete. keeps_solve. Qed.

Lemma keeps_loadContext (c : jsval) : Keeps (loadContext c).
Proof. unfold loadContext. auto with keeps. Qed.

End KeepsSandbox.

#[export] Hint Resolve keeps_execute keeps_client_complete keeps_loadContext : keeps.

Section EmitsLemmas.

Variable f : Z * RLMEvent -> option string.

Lemma emits_keeps {A} (c : M A) : Keeps c -> EmitsOK f c.
Proof. intros Hc m. exists []. rewrite app_nil_r. split; [apply Hc | left; constructor]. Qed.

Lemma emits_bind {A B} (c : M A) (k : A -> M B) :
  EmitsOK f c -> (forall a, EmitsOK f (k a)) -> EmitsOK f (bind c k).
Proof.
  intros Hc Hk m. unfold bind. destruct (Hc m) as [l1 [E1 H1]].
  destruct (c m) as [[a|e] m1]; cbn [fst snd] in E1, H1 |- *.
  - destruct H1 as [F1 | [l0 [ev [e [_ [_ [_ Hx]]]]]]]; [|discriminate Hx].
    destruct (Hk a m1) as [l2 [E2 H2]]. exists (l1 ++ l2).
    rewrite E2, E1, app_assoc. split; [reflexivity|].
    destruct H2 as [F2 | [l0 [ev [e [-> [F0 [Hf Hx]]]]]]].
    + left. apply Forall_app. split; assumption.
    + right. exists (l1 ++ l0), ev, e. rewrite app_assoc.
      split; [reflexivity|]. split; [apply Forall_app; split; assumption|]. split; assumption.
  - exists l1. split; [exact E1|].
    destruct H1 as [F1 | [l0 [ev [e0 [Hl [F0 [Hf Hx]]]]]]]; [left; exact F1|].
    right. exists l0, ev, e0. injection Hx as <-. repeat split; assumption.
Qed.

End EmitsLemmas.

Ltac emits_solve :=
  repeat (cbv beta zeta;
          match goal with
          | |- EmitsOK _ (bind _ _) => apply emits_bind; [|intros ?]
          | |- EmitsOK _ (match ?x with _ => _ end) => destruct x
          | |- EmitsOK _ (if ?b then _ else _) => destruct b
          | |- _ => solve [eauto with emits]
          | |- EmitsOK _ _ => apply emits_keeps; solve [keeps_solve]
          end).

(** A list that ends with the first element on which [g] is defined
    cannot be split at a later element on which [g] is defined. *)
Lemma split_at_first_defined {X} (g : X -> option string) (l0 pre post : list X) (x y : X) :
  l0 ++ [x] = pre ++ y :: post -> Forall (fun z => g z = None) l0 -> g y <> None ->
  l0 = pre /\ x = y /\ post = [].
Proof.
  revert pre; induction l0 as [|a l0 IH]; intros pre E F Hy.
  - destruct pre as [|b pre]; cbn in E.
    + injection E as -> <-. auto.
    + injection E as _ E. destruct pre; discriminate E.
  - inversion F as [|? ? Ha F']; subst. destruct pre as [|b pre]; cbn in E.
    + injection E as -> _. contradiction.
    + injection E as -> E. destruct (IH pre E F' Hy) as [-> [-> ->]]. auto.
Qed.

Section EmitsDriver.

Variable run_js : string -> program.
Variable cfg : RLMConfig.
Variable prompt : string.
Variable opts : CompletionOptions.
Variable f : Z * RLMEvent -> option string.
Hypothesis onEvent_f : opt_onEvent opts = Some f.

Lemma emits_emit (ev : RLMEvent) : EmitsOK f (emit opts ev).
Proof.
  intros m. unfold emit. rewrite onEvent_f. cbv [bind now gets modify].
  exists [(m_clock m, ev)].
  destruct (f (m_clock m, ev)) as [e|] eqn:E; cbv [throw ret fst snd m_events];
    (split; [reflexivity|]).
  - right. exists [], (m_clock m, ev), e. repeat split; [constructor | exact E].
  - left. constructor; [exact E | constructor].
Qed.

Create HintDb emits.
#[local] Hint Resolve emits_emit : emits.

Lemma emits_run_blocks (st : Z) (i : nat) (codes : list string)
    (acc : list (string * ExecutionReport)) (d : DriverState) :
  EmitsOK f (run_blocks run_js opts st i codes acc d).
Proof.
  revert acc d; induction codes as [|code codes IH]; intros acc d; cbn [run_blocks].
  - apply emits_keeps. auto with keeps.
  - unfold getFinalAnswer, early_result, getLLMCalls, getTotalUsage. emits_solve.
Qed.
#[local] Hint Resolve emits_run_blocks : emits.

Lemma emits_iter_loop (st : Z) (fuel i : nat) (d : DriverState) :
  EmitsOK f (iter_loop run_js prompt opts st fuel i d).
Proof.
  revert i d; induction fuel as [|n IH]; intros i d; cbn [iter_loop].
  - apply emits_keeps. auto with keeps.
  - unfold iteration. emits_solve.
Qed.
#[local] Hint Resolve emits_iter_loop : emits.

Lemma keeps_final_phase (st : Z) (d : DriverState) : Keeps (final_phase run_js st d).
Proof.
  unfold final_phase, getFinalAnswer, getLLMCalls, getTotalUsage.
  apply keeps_bind; [auto with keeps|intros r].
  apply keeps_bind; [|intros; keeps_solve].
  generalize (findCodeBlocks (cr_content r)). intros codes.
  induction codes as [|c cs IH]; cbn [execute_all]; keeps_solve.
Qed.

Lemma emits_completion : EmitsOK f (completion run_js cfg prompt opts).
Proof.
  unfold completion. emits_solve. apply emits_keeps. apply keeps_final_phase.
Qed.

End EmitsDriver.

(** C8 (amended): an exception the [onEvent] callback throws at any event
    is not swallowed: that event is the last one emitted, the callback
    returned normally on every earlier event, and the completion rejects
    with that exception. *)
Theorem onEvent_throw_rejects (run_js : string -> program) (cfg : RLMConfig) (prompt : string)
    (ctx : jsval) (schema : option string) (f : Z * RLMEvent -> option string)
    (replies : list reply) (pre : list (Z * RLMEvent)) (ev : Z * RLMEvent)
    (post : list (Z * RLMEvent)) (e : string) :
  m_events (snd (run_completion run_js cfg prompt (mkOptions ctx schema (Some f)) replies))
    = pre ++ ev :: post ->
  f ev = Some e ->
  post = [] /\ Forall (fun x => f x = None) pre
  /\ fst (run_completion run_js cfg prompt (mkOptions ctx schema (Some f)) replies) = Exn e.
Proof.
  intros Hev Hf. unfold run_completion in *.
  destruct (emits_completion run_js cfg prompt (mkOptions ctx schema (Some f)) f eq_refl
              (initial_machine replies)) as [l [El Hl]].
  rewrite El in Hev. change (m_events (initial_machine replies)) with (@nil (Z * RLMEvent)) in Hev.
  rewrite app_nil_l in Hev. subst l.
  destruct Hl as [Fall | [l0 [ev' [e' [Hl0 [F0 [Hfe Hres]]]]]]].
  - apply Forall_app in Fall as [_ F]. inversion F as [|? ? Hx _]. congruence.
  - destruct (split_at_first_defined f l0 pre post ev' ev (eq_sym Hl0) F0)
      as [-> [-> ->]]; [congruence|].
    split; [reflexivity|]. split; [exact F0|]. rewrite Hres. congruence.
Qed.

Lemma onEvent_throw_rejects_witness :
  exists pre ev post,
    m_events (snd code_throw_run) = pre ++ ev :: post
    /\ throw_at_code ev = Some "Error: listener failed" /\ pre <> []
    /\ (post = [] /\ Forall (fun x => throw_at_code x = None) pre
        /\ fst code_throw_run = Exn "Error: listener failed").
Proof.
  exists (firstn 3 (m_events (snd code_throw_run))),
    (nth 3 (m_events (snd code_throw_run)) (0, EvIterationStart 0)),
    (skipn 4 (m_events (snd code_throw_run))).
  assert (E : m_events (snd code_throw_run)
              = firstn 3 (m_events (snd code_throw_run))
                ++ nth 3 (m_events (snd code_throw_run)) (0, EvIterationStart 0)
                :: skipn 4 (m_events (snd code_throw_run)))
    by (vm_compute; reflexivity).
  assert (F : throw_at_code (nth 3 (m_events (snd code_throw_run)) (0, EvIterationStart 0))
              = Some "Error: listener failed") by (vm_compute; reflexivity).
  split; [exact E|]. split; [exact F|]. split; [vm_compute; discriminate|].
  exact (onEvent_throw_rejects demo_js (mkConfig 2 None) "question" (JStr "abc") None
           throw_at_code demo_replies _ _ _ "Error: listener failed" E F).
Defined.
